(** * PC Parts Tracker: price derivation, price history and saved builds

    A shallow embedding of the state handlers and derivation functions of
    [src/App.tsx] (the revision with saved builds and price history), and
    the properties stated about them.

    The component keeps its state in React hooks and replaces it wholesale
    on every event: no handler writes into an existing array or object
    (every update goes through [map], [filter] or a spread copy).  The
    state is therefore modelled by plain values, and a handler by a
    function from the state before the event to the state after it.

    JavaScript numbers are IEEE 754 binary64 values.  They are modelled by
    [spec_float] with precision 53 and maximal exponent 1024, and the
    arithmetic of the program by the operations of the standard library's
    specification of binary floating point.  Strings are modelled by
    [string]; a character stands for one code unit below 256.

    The list on display goes through [Array.prototype.sort].  With the
    comparator for availability the order of the result is the engine's
    choice, so the sort is modelled by the algorithm of an engine, V8. *)

From Stdlib Require Import ZArith NArith List String Ascii Bool Lia.
From Stdlib Require Import Permutation.
From Stdlib Require Import Decimal DecimalString DecimalPos DecimalN.
From Stdlib Require Import SpecFloat.
Import ListNotations.

#[local] Open Scope string_scope.
#[local] Open Scope Z_scope.

(** ** The JavaScript runtime the program relies on *)

Module JS.

(** *** Numbers *)

Definition number := spec_float.

Definition prec : Z := 53.
Definition emax : Z := 1024.

Definition NaN : number := S754_nan.
Definition Infinity : number := S754_infinity false.
Definition zero : number := S754_zero false.

(** The global [isNaN], on an argument that is already a number. *)
Definition isNaN (x : number) : bool :=
  match x with S754_nan => true | _ => false end.

Definition isFinite (x : number) : bool :=
  match x with S754_nan | S754_infinity _ => false | _ => true end.

(** [x + y], [x - y], [x < y], [x <= y] and [x === y] on numbers. *)
Definition add (x y : number) : number := SFadd prec emax x y.
Definition sub (x y : number) : number := SFsub prec emax x y.
Definition lt (x y : number) : bool := SFltb x y.
Definition le (x y : number) : bool := SFleb x y.
Definition strictEq (x y : number) : bool := SFeqb x y.

(** [Math.min(...xs)]: the running minimum starts at [+Infinity]; a NaN
    argument makes the result NaN; [-0] is below [+0]. *)
Definition min_step (lowest x : number) : number :=
  match x, lowest with
  | S754_zero true, S754_zero false => x
  | _, _ => if lt x lowest then x else lowest
  end.

Fixpoint min_from (lowest : number) (xs : list number) : number :=
  match xs with
  | [] => lowest
  | x :: xs' => if isNaN x then NaN else min_from (min_step lowest x) xs'
  end.

Definition Math_min (xs : list number) : number := min_from Infinity xs.

(** *** Strings *)

(** White space and line terminators among the code units below 256:
    TAB, LF, VT, FF, CR, SP and NBSP. *)
Definition isWhiteSpace (c : ascii) : bool :=
  let n := N_of_ascii c in
  (N.eqb n 9 || N.eqb n 10 || N.eqb n 11 || N.eqb n 12 || N.eqb n 13
   || N.eqb n 32 || N.eqb n 160)%bool.

Fixpoint trimStart (s : string) : string :=
  match s with
  | String c s' => if isWhiteSpace c then trimStart s' else s
  | EmptyString => s
  end.

(** The string without its trailing white space. *)
Fixpoint trimEnd (s : string) : string :=
  match s with
  | EmptyString => EmptyString
  | String c s' =>
      match trimEnd s' with
      | EmptyString => if isWhiteSpace c then EmptyString else String c EmptyString
      | t => String c t
      end
  end.

(** [s.trim()] *)
Definition trim (s : string) : string := trimEnd (trimStart s).

(** Truthiness of a string: every string but the empty one. *)
Definition truthy (s : string) : bool :=
  match s with EmptyString => false | _ => true end.

(** [s.replace(c, '')] for a one-character pattern: only the first
    occurrence is removed, wherever it stands. *)
Fixpoint removeFirst (c : ascii) (s : string) : string :=
  match s with
  | EmptyString => EmptyString
  | String d s' => if Ascii.eqb d c then s' else String d (removeFirst c s')
  end.

Definition isDigit (c : ascii) : bool :=
  let n := N_of_ascii c in (N.leb 48 n && N.leb n 57)%bool.

(** The longest prefix of decimal digits, and what follows it. *)
Fixpoint spanDigits (s : string) : string * string :=
  match s with
  | String c s' =>
      if isDigit c
      then let (d, r) := spanDigits s' in (String c d, r)
      else (EmptyString, s)
  | EmptyString => (EmptyString, EmptyString)
  end.

(** The value of a string of decimal digits, most significant first. *)
Fixpoint digitsValueFrom (acc : N) (s : string) : N :=
  match s with
  | EmptyString => acc
  | String c s' => digitsValueFrom (10 * acc + (N_of_ascii c - 48))%N s'
  end.

Definition digitsValue (s : string) : N := digitsValueFrom 0%N s.

(** The decimal digits of a natural number; ["0"] for zero. *)
Definition decimal (n : N) : string := NilEmpty.string_of_uint (N.to_uint n).

(** *** Decimal text to number *)

(** The binary64 value nearest to [m * 10^e] (ties to even), with the
    sign [neg]. *)
Definition ofDecimal (neg : bool) (m : N) (e : Z) : number :=
  match m with
  | N0 => S754_zero neg
  | Npos p =>
      if 0 <=? e
      then binary_normalize prec emax
             (cond_Zopp neg (Zpos p * 10 ^ e)) 0 neg
      else SFdiv prec emax
             (S754_finite neg p 0)
             (S754_finite false (Z.to_pos (10 ^ (- e))) 0)
  end.

(** The exponent part [e[+-]digits] at the head of [s], when there is a
    complete one; [0] otherwise. *)
Definition exponentPart (s : string) : Z :=
  match s with
  | String c r =>
      if (Ascii.eqb c "e" || Ascii.eqb c "E")%bool then
        let '(neg, r') :=
          match r with
          | String "+" r1 => (false, r1)
          | String "-" r1 => (true, r1)
          | _ => (false, r)
          end in
        let (ds, _) := spanDigits r' in
        match ds with
        | EmptyString => 0
        | _ => cond_Zopp neg (Z.of_N (digitsValue ds))
        end
      else 0
  | EmptyString => 0
  end.

(** The global [parseFloat] on a string: leading white space is skipped,
    then the longest prefix that is a signed decimal literal (or
    [Infinity]) is converted; without such a prefix the result is NaN. *)
Definition parseFloat (s : string) : number :=
  let s0 := trimStart s in
  let '(neg, s1) :=
    match s0 with
    | String "+" r => (false, r)
    | String "-" r => (true, r)
    | _ => (false, s0)
    end in
  if prefix "Infinity" s1 then S754_infinity neg
  else
    let (ip, r1) := spanDigits s1 in
    let (fp, r2) :=
      match r1 with
      | String "." r => spanDigits r
      | _ => (EmptyString, r1)
      end in
    match ip ++ fp with
    | EmptyString => NaN
    | ds => ofDecimal neg (digitsValue ds)
              (exponentPart r2 - Z.of_nat (String.length fp))
    end.

(** *** Number to text *)

(** The exact value of a finite number is [m * 2^e]; [scaled f m e] is the
    integer [n] for which [n / 10^f] is nearest to it, the larger one when
    two are as near. *)
Definition scaled (f : N) (m : positive) (e : Z) : Z :=
  let t := Zpos m * 10 ^ Z.of_N f in
  if 0 <=? e then t * 2 ^ e
  else (2 * t + 2 ^ (- e)) / 2 ^ (- e + 1).

(** Whether [m * 2^e >= 10^21]. *)
Definition atLeast1e21 (m : positive) (e : Z) : bool :=
  if 0 <=? e then 10 ^ 21 <=? Zpos m * 2 ^ e
  else 10 ^ 21 * 2 ^ (- e) <=? Zpos m.

Fixpoint zeros (k : nat) : string :=
  match k with
  | O => EmptyString
  | S k' => String "0" (zeros k')
  end.

(** The digits [ds] of the scaled integer with the decimal point placed
    before the last [f] of them, padded with zeros on the left so that
    one digit at least stands before the point. *)
Definition placePoint (f : nat) (ds : string) : string :=
  let k := String.length ds in
  let padded := if Nat.leb k f then zeros (f + 1 - k) ++ ds else ds in
  let k' := String.length padded in
  match f with
  | O => padded
  | _ => substring 0 (k' - f) padded ++ "." ++ substring (k' - f) f padded
  end.

(** Whether the integer [z] rounds to the finite number [v]. *)
Definition roundsTo (v : number) (z : Z) : bool :=
  match v, binary_normalize prec emax z 0 false with
  | S754_finite s m e, S754_finite s' m' e' =>
      (Bool.eqb s s' && Pos.eqb m m' && Z.eqb e e')%bool
  | _, _ => false
  end.

(** The digits [s] and the decimal exponent [n] that identify [v] with
    [k] significant digits, if [k] digits are enough.  [x] is the value of
    [v], an integer of [n0] digits; the candidates are the two multiples of
    [10^(n0-k)] around [x], the nearer one, or the even one, when both
    round to [v]. *)
Definition shortestAt (v : number) (x : Z) (n0 k : nat) : option (Z * nat) :=
  let p := 10 ^ Z.of_nat (n0 - k) in
  let lo := x / p in
  let hi := lo + 1 in
  let okLo := (0 <? lo) && roundsTo v (lo * p) in
  let okHi := roundsTo v (hi * p) in
  let pick (s : Z) :=
    if s =? 10 ^ Z.of_nat k then Some (1, S n0) else Some (s, n0) in
  match okLo, okHi with
  | false, false => None
  | true, false => pick lo
  | false, true => pick hi
  | true, true =>
      let dl := x - lo * p in
      let dh := hi * p - x in
      if dl <? dh then pick lo
      else if dh <? dl then pick hi
      else if Z.even lo then pick lo else pick hi
  end.

Fixpoint shortestFrom (v : number) (x : Z) (n0 k fuel : nat) : Z * nat :=
  match fuel with
  | O => (x, n0)
  | S fuel' =>
      match shortestAt v x n0 k with
      | Some r => r
      | None => shortestFrom v x n0 (S k) fuel'
      end
  end.

(** The positive integer [x], the value of [v], written in exponent
    notation with as few significant digits as identify [v]: what
    [Number.prototype.toString] yields from [10^21] on. *)
Definition exponential (v : number) (x : Z) : string :=
  let n0 := String.length (decimal (Z.to_N x)) in
  let '(s, n) := shortestFrom v x n0 1 n0 in
  let ds := decimal (Z.to_N s) in
  let ex := "e+" ++ decimal (N.of_nat (n - 1)) in
  match ds with
  | String d EmptyString => String d ex
  | String d rest => String d ("." ++ rest ++ ex)
  | EmptyString => ex
  end.

(** [x.toFixed(f)]: text for a number that is not finite; exponent
    notation from [10^21] on; otherwise the sign and the decimal
    expansion rounded to [f] digits after the point. *)
Definition toFixed (x : number) (f : N) : string :=
  match x with
  | S754_nan => "NaN"
  | S754_infinity false => "Infinity"
  | S754_infinity true => "-Infinity"
  | S754_zero _ => placePoint (N.to_nat f) "0"
  | S754_finite neg m e =>
      (if neg then "-" else EmptyString) ++
      (if atLeast1e21 m e
       then exponential (S754_finite false m e) (Zpos m * 2 ^ e)
       else placePoint (N.to_nat f) (decimal (Z.to_N (scaled f m e))))
  end.

End JS.

Import JS.

(** ** [Array.prototype.sort]

    For a comparator that is not consistent the language leaves the order
    of the result to the engine, and the comparator that the program uses
    for availability is not consistent.  The sort is therefore modelled
    by the algorithm of the engine: the TimSort of V8 (Chrome, Edge,
    Node), [third_party/v8/builtins/array-sort.tq].

    The work array is a list.  A run is the list of its elements, and a
    position inside a run counts from the first element of the run.  The
    loops of the algorithm take a number of rounds that bounds their
    iterations. *)

Module ArraySort.

#[local] Open Scope nat_scope.
#[local] Open Scope list_scope.
#[local] Abbreviation length := List.length.
#[local] Abbreviation rev := List.rev.
#[local] Abbreviation concat := List.concat.

Section Elements.

Context {A : Type}.

(** The function given to [sort]. *)
Variable comparefn : A -> A -> number.

(** [sortState.Compare(x, y) < 0].  [Compare] turns a NaN answer of the
    comparator into [0], and the algorithm only ever asks whether an
    answer is below zero. *)
Definition isLess (x y : A) : bool := lt (comparefn x y) zero.

Definition kMinGallopWins : nat := 7.

(** [ComputeMinRunLength]: [n] itself below 64, else the six leading
    bits of [n], plus one when a lower bit is set. *)
Fixpoint minRunLoop (rounds n r : nat) : nat :=
  match rounds with
  | 0 => n + r
  | S rounds' =>
      if 64 <=? n then minRunLoop rounds' (n / 2) (if Nat.odd n then 1 else r)
      else n + r
  end.

Definition ComputeMinRunLength (nArg : nat) : nat := minRunLoop nArg nArg 0.

(** [CountAndMakeRun], on the part of the work array from [low] on.  The
    run goes on for as long as the order between neighbours is the order
    of the first two elements; a descending run is reversed.  The result
    is the run and what follows it. *)
Fixpoint extendRun (isDescending : bool) (previousElement : A) (l : list A)
  : list A * list A :=
  match l with
  | [] => ([], [])
  | currentElement :: l' =>
      if Bool.eqb (isLess currentElement previousElement) isDescending then
        let (run, rest) := extendRun isDescending currentElement l' in
        (currentElement :: run, rest)
      else ([], l)
  end.

Definition CountAndMakeRun (l : list A) : list A * list A :=
  match l with
  | elementHigh :: elementLow :: l' =>
      let isDescending := isLess elementLow elementHigh in
      let (run, rest) := extendRun isDescending elementLow l' in
      let whole := elementHigh :: elementLow :: run in
      (if isDescending then rev whole else whole, rest)
  | _ => (l, [])
  end.

(** The binary search of [BinaryInsertionSort], [GallopLeft] and
    [GallopRight]: [isBefore m] tells that the position sought is [m] or
    lies before [m]. *)
Fixpoint bisect (rounds : nat) (isBefore : nat -> bool) (left right : nat)
  : nat * nat :=
  match rounds with
  | 0 => (left, right)
  | S rounds' =>
      if left <? right then
        let mid := left + (right - left) / 2 in
        if isBefore mid then bisect rounds' isBefore left mid
        else bisect rounds' isBefore (mid + 1) right
      else (left, right)
  end.

(** One step of [BinaryInsertionSort]: the pivot, the element after the
    sorted part, goes to the position that the binary search finds in the
    sorted part. *)
Definition insertPivot (sorted : list A) (pivot : A) : list A :=
  let left :=
    fst (bisect (length sorted) (fun mid => isLess pivot (nth mid sorted pivot))
           0 (length sorted)) in
  firstn left sorted ++ pivot :: skipn left sorted.

(** [BinaryInsertionSort(low, start, high)]: [run] holds the elements of
    [low .. start - 1], [toInsert] those of [start .. high - 1]. *)
Definition BinaryInsertionSort (run toInsert : list A) : list A :=
  fold_left insertPivot toInsert run.

(** The first loop of [GallopLeft] and [GallopRight]: the offset grows as
    1, 3, 7, ... while it is below [maxOfs] and the element at the offset
    lies on the same side of the key as the element at the hint. *)
Fixpoint gallop (rounds : nat) (sameSide : nat -> bool) (maxOfs lastOfs offset : nat)
  : nat * nat :=
  match rounds with
  | 0 => (lastOfs, offset)
  | S rounds' =>
      if offset <? maxOfs then
        if sameSide offset then gallop rounds' sameSide maxOfs offset (2 * offset + 1)
        else (lastOfs, offset)
      else (lastOfs, offset)
  end.

(** [GallopLeft(array, key, base, length, hint)], on the [length]
    elements from [base] on: the position of [key] in the run, before any
    element equal to it.  The first component of [bounds] is [lastOfs]
    after its increment, which follows the two branches. *)
Definition GallopLeft (array : list A) (key : A) (hint : nat) : nat :=
  let elementAt i := nth i array key in
  let bounds :=
    if isLess (elementAt hint) key then
      let maxOfs := length array - hint in
      let (lastOfs, offset) :=
        gallop maxOfs (fun offset => isLess (elementAt (hint + offset)) key)
          maxOfs 0 1 in
      let offset := Nat.min offset maxOfs in
      (lastOfs + hint + 1, offset + hint)
    else
      let maxOfs := hint + 1 in
      let (lastOfs, offset) :=
        gallop maxOfs (fun offset => negb (isLess (elementAt (hint - offset)) key))
          maxOfs 0 1 in
      let offset := Nat.min offset maxOfs in
      (hint + 1 - offset, hint - lastOfs) in
  snd (bisect (length array) (fun m => negb (isLess (elementAt m) key))
         (fst bounds) (snd bounds)).

(** [GallopRight]: the position of [key] in the run, after any element
    equal to it. *)
Definition GallopRight (array : list A) (key : A) (hint : nat) : nat :=
  let elementAt i := nth i array key in
  let bounds :=
    if isLess key (elementAt hint) then
      let maxOfs := hint + 1 in
      let (lastOfs, offset) :=
        gallop maxOfs (fun offset => isLess key (elementAt (hint - offset)))
          maxOfs 0 1 in
      let offset := Nat.min offset maxOfs in
      (hint + 1 - offset, hint - lastOfs)
    else
      let maxOfs := length array - hint in
      let (lastOfs, offset) :=
        gallop maxOfs (fun offset => negb (isLess key (elementAt (hint + offset))))
          maxOfs 0 1 in
      let offset := Nat.min offset maxOfs in
      (lastOfs + hint + 1, offset + hint) in
  snd (bisect (length array) (fun m => isLess key (elementAt m))
         (fst bounds) (snd bounds)).

(** Where a merge stands: in the loop that takes one element at a time,
    or at the test of the loop that gallops. *)
Inductive Mode :=
| OneAtATime (nofWinsA nofWinsB : nat)
| Galloping (firstIteration : bool) (nofWinsA nofWinsB : nat).

(** The loops of [MergeLow].  [tempA] is what is left of run A in the
    temporary array, [runB] what is left of run B in the work array; the
    result is what the merge writes from [dest] on, with the value of
    [sortState.minGallop] at the end. *)
Fixpoint mergeLowLoop (rounds : nat) (mode : Mode) (minGallop : nat)
    (tempA runB : list A) : list A * nat :=
  match rounds, tempA, runB with
  | S rounds', a :: tempA', b :: runB' =>
      match mode with
      | OneAtATime nofWinsA nofWinsB =>
          if isLess b a then
            if length runB' =? 0 then (b :: tempA, minGallop)
            else
              let (out, minGallop') :=
                if minGallop <=? S nofWinsB
                then mergeLowLoop rounds' (Galloping true 0 (S nofWinsB))
                       (S minGallop) tempA runB'
                else mergeLowLoop rounds' (OneAtATime 0 (S nofWinsB))
                       minGallop tempA runB' in
              (b :: out, minGallop')
          else
            if length tempA' =? 1 then (a :: runB ++ tempA', minGallop)
            else
              let (out, minGallop') :=
                if minGallop <=? S nofWinsA
                then mergeLowLoop rounds' (Galloping true (S nofWinsA) 0)
                       (S minGallop) tempA' runB
                else mergeLowLoop rounds' (OneAtATime (S nofWinsA) 0)
                       minGallop tempA' runB in
              (a :: out, minGallop')
      | Galloping firstIteration nofWinsA nofWinsB =>
          if (kMinGallopWins <=? nofWinsA) || (kMinGallopWins <=? nofWinsB)
             || firstIteration
          then
            let minGallop := Nat.max 1 (minGallop - 1) in
            let nofWinsA := GallopRight tempA b 0 in
            let wonA := firstn nofWinsA tempA in
            let tempA := skipn nofWinsA tempA in
            if (0 <? nofWinsA) && (length tempA =? 1)
            then (wonA ++ runB ++ tempA, minGallop)
            else if (0 <? nofWinsA) && (length tempA =? 0)
            then (wonA ++ runB, minGallop)
            else if length runB' =? 0 then (wonA ++ b :: tempA, minGallop)
            else
              match tempA with
              | [] => (wonA ++ runB, minGallop)
              | a :: tempA' =>
                  let nofWinsB := GallopLeft runB' a 0 in
                  let wonB := firstn nofWinsB runB' in
                  let runB' := skipn nofWinsB runB' in
                  if (0 <? nofWinsB) && (length runB' =? 0)
                  then (wonA ++ b :: wonB ++ tempA, minGallop)
                  else if length tempA' =? 1
                  then (wonA ++ b :: wonB ++ a :: runB' ++ tempA', minGallop)
                  else
                    let (out, minGallop') :=
                      mergeLowLoop rounds' (Galloping false nofWinsA nofWinsB)
                        minGallop tempA' runB' in
                    (wonA ++ b :: wonB ++ a :: out, minGallop')
              end
          else mergeLowLoop rounds' (OneAtATime 0 0) (S minGallop) tempA runB
      end
  | _, _, _ => (tempA ++ runB, minGallop)
  end.

(** [MergeLow]: run A goes to the temporary array, the first element of
    run B is in place at once. *)
Definition MergeLow (runA runB : list A) (minGallop : nat) : list A * nat :=
  match runB with
  | [] => (runA, minGallop)
  | b :: runB' =>
      if length runB' =? 0 then (b :: runA, minGallop)
      else if length runA =? 1 then (b :: runB' ++ runA, minGallop)
      else
        let (out, minGallop') :=
          mergeLowLoop (2 * (length runA + length runB)) (OneAtATime 0 0)
            minGallop runA runB' in
        (b :: out, minGallop')
  end.

(** The loops of [MergeHigh], which merges from the right end.  [revA]
    is what is left of run A in the work array and [tempB] what is left
    of run B in the temporary array, both last element first; the result
    is what the merge writes down from [dest], last element first. *)
Fixpoint mergeHighLoop (rounds : nat) (mode : Mode) (minGallop : nat)
    (revA tempB : list A) : list A * nat :=
  match rounds, revA, tempB with
  | S rounds', a :: revA', b :: tempB' =>
      match mode with
      | OneAtATime nofWinsA nofWinsB =>
          if isLess b a then
            if length revA' =? 0 then (a :: tempB, minGallop)
            else
              let (out, minGallop') :=
                if minGallop <=? S nofWinsA
                then mergeHighLoop rounds' (Galloping true (S nofWinsA) 0)
                       (S minGallop) revA' tempB
                else mergeHighLoop rounds' (OneAtATime (S nofWinsA) 0)
                       minGallop revA' tempB in
              (a :: out, minGallop')
          else
            if length tempB' =? 1 then (b :: revA ++ tempB', minGallop)
            else
              let (out, minGallop') :=
                if minGallop <=? S nofWinsB
                then mergeHighLoop rounds' (Galloping true 0 (S nofWinsB))
                       (S minGallop) revA tempB'
                else mergeHighLoop rounds' (OneAtATime 0 (S nofWinsB))
                       minGallop revA tempB' in
              (b :: out, minGallop')
      | Galloping firstIteration nofWinsA nofWinsB =>
          if (kMinGallopWins <=? nofWinsA) || (kMinGallopWins <=? nofWinsB)
             || firstIteration
          then
            let minGallop := Nat.max 1 (minGallop - 1) in
            let k := GallopRight (rev revA) b (length revA - 1) in
            let nofWinsA := length revA - k in
            let wonA := firstn nofWinsA revA in
            let revA := skipn nofWinsA revA in
            if (0 <? nofWinsA) && (length revA =? 0)
            then (wonA ++ tempB, minGallop)
            else if length tempB' =? 1 then (wonA ++ b :: revA ++ tempB', minGallop)
            else
              match revA with
              | [] => (wonA ++ tempB, minGallop)
              | a :: revA' =>
                  let k := GallopLeft (rev tempB') a (length tempB' - 1) in
                  let nofWinsB := length tempB' - k in
                  let wonB := firstn nofWinsB tempB' in
                  let tempB' := skipn nofWinsB tempB' in
                  if (0 <? nofWinsB) && (length tempB' =? 1)
                  then (wonA ++ b :: wonB ++ revA ++ tempB', minGallop)
                  else if (0 <? nofWinsB) && (length tempB' =? 0)
                  then (wonA ++ b :: wonB ++ revA, minGallop)
                  else if length revA' =? 0
                  then (wonA ++ b :: wonB ++ a :: tempB', minGallop)
                  else
                    let (out, minGallop') :=
                      mergeHighLoop rounds' (Galloping false nofWinsA nofWinsB)
                        minGallop revA' tempB' in
                    (wonA ++ b :: wonB ++ a :: out, minGallop')
              end
          else mergeHighLoop rounds' (OneAtATime 0 0) (S minGallop) revA tempB
      end
  | _, _, _ => (tempB ++ revA, minGallop)
  end.

(** [MergeHigh]: run B goes to the temporary array, the last element of
    run A is in place at once. *)
Definition MergeHigh (runA runB : list A) (minGallop : nat) : list A * nat :=
  match rev runA with
  | [] => (runB, minGallop)
  | a :: revA' =>
      if length revA' =? 0 then (runB ++ [a], minGallop)
      else if length runB =? 1 then (runB ++ runA, minGallop)
      else
        let (out, minGallop') :=
          mergeHighLoop (2 * (length runA + length runB)) (OneAtATime 0 0)
            minGallop revA' (rev runB) in
        (rev (a :: out), minGallop')
  end.

(** [MergeAt]: the two runs are adjacent, run A first.  The elements of
    run A that stand before the first element of run B, and the elements
    of run B that stand after the last element of run A, are in place;
    the rest is merged. *)
Definition MergeAt (runA runB : list A) (minGallop : nat) : list A * nat :=
  match runB with
  | [] => (runA, minGallop)
  | keyRight :: _ =>
      let k := GallopRight runA keyRight 0 in
      let placedA := firstn k runA in
      let runA' := skipn k runA in
      if length runA' =? 0 then (runA ++ runB, minGallop)
      else
        let keyLeft := last runA' keyRight in
        let lengthB := GallopLeft runB keyLeft (length runB - 1) in
        let runB' := firstn lengthB runB in
        let placedB := skipn lengthB runB in
        if lengthB =? 0 then (runA ++ runB, minGallop)
        else
          let (merged, minGallop') :=
            if length runA' <=? lengthB
            then MergeLow runA' runB' minGallop
            else MergeHigh runA' runB' minGallop in
          (placedA ++ merged ++ placedB, minGallop')
  end.

(** The stack of pending runs, the latest run first.  [MergeCollapse]
    merges until the lengths on the stack satisfy the two invariants. *)
Definition RunInvariantEstablished (lengthN lengthNM : nat) (below : list (list A))
  : bool :=
  match below with
  | [] => true
  | runNMM :: _ => lengthNM + lengthN <? length runNMM
  end.

Fixpoint MergeCollapse (rounds : nat) (pendingRuns : list (list A)) (minGallop : nat)
  : list (list A) * nat :=
  match rounds, pendingRuns with
  | S rounds', run1 :: run0 :: below =>
      if negb (RunInvariantEstablished (length run1) (length run0) below)
         || negb (match below with
                  | [] => true
                  | runM :: below' =>
                      RunInvariantEstablished (length run0) (length runM) below'
                  end)
      then
        match below with
        | runM :: below' =>
            if length runM <? length run1 then
              let (merged, minGallop') := MergeAt runM run0 minGallop in
              MergeCollapse rounds' (run1 :: merged :: below') minGallop'
            else
              let (merged, minGallop') := MergeAt run0 run1 minGallop in
              MergeCollapse rounds' (merged :: below) minGallop'
        | [] =>
            let (merged, minGallop') := MergeAt run0 run1 minGallop in
            MergeCollapse rounds' (merged :: below) minGallop'
        end
      else if length run0 <=? length run1 then
        let (merged, minGallop') := MergeAt run0 run1 minGallop in
        MergeCollapse rounds' (merged :: below) minGallop'
      else (pendingRuns, minGallop)
  | _, _ => (pendingRuns, minGallop)
  end.

Fixpoint MergeForceCollapse (rounds : nat) (pendingRuns : list (list A))
    (minGallop : nat) : list (list A) * nat :=
  match rounds, pendingRuns with
  | S rounds', run1 :: run0 :: below =>
      match below with
      | runM :: below' =>
          if length runM <? length run1 then
            let (merged, minGallop') := MergeAt runM run0 minGallop in
            MergeForceCollapse rounds' (run1 :: merged :: below') minGallop'
          else
            let (merged, minGallop') := MergeAt run0 run1 minGallop in
            MergeForceCollapse rounds' (merged :: below) minGallop'
      | [] =>
          let (merged, minGallop') := MergeAt run0 run1 minGallop in
          MergeForceCollapse rounds' (merged :: below) minGallop'
      end
  | _, _ => (pendingRuns, minGallop)
  end.

(** The loop of [ArrayTimSortImpl]: the next run is counted, extended by
    binary insertion when it is shorter than [minRunLength], pushed, and
    the stack collapsed. *)
Fixpoint sortLoop (rounds : nat) (minRunLength : nat) (remaining : list A)
    (pendingRuns : list (list A)) (minGallop : nat) : list (list A) * nat :=
  match rounds, remaining with
  | S rounds', _ :: _ =>
      let (run, rest) := CountAndMakeRun remaining in
      let forcedRunLength := Nat.min minRunLength (length remaining) in
      let extra :=
        if length run <? minRunLength then forcedRunLength - length run else 0 in
      let currentRun := BinaryInsertionSort run (firstn extra rest) in
      let (pendingRuns', minGallop') :=
        MergeCollapse (S (length pendingRuns)) (currentRun :: pendingRuns) minGallop in
      sortLoop rounds' minRunLength (skipn extra rest) pendingRuns' minGallop'
  | _, _ => (pendingRuns, minGallop)
  end.

Definition ArrayTimSortImpl (l : list A) : list A :=
  if length l <? 2 then l
  else
    let (pendingRuns, minGallop) :=
      sortLoop (length l) (ComputeMinRunLength (length l)) l [] kMinGallopWins in
    let (pendingRuns', _) :=
      MergeForceCollapse (length pendingRuns) pendingRuns minGallop in
    concat (rev pendingRuns').

(** [Array.prototype.sort] with a comparator, on an array without holes
    and without [undefined] elements: the elements go to the work array,
    are sorted there, and come back in the order of the work array. *)
Definition ArrayPrototypeSort (l : list A) : list A := ArrayTimSortImpl l.

End Elements.

End ArraySort.

(** ** Data model *)

Record PriceHistory := {
  ph_date : string;
  ph_price : number
}.

Record Store := {
  store_id : string;
  store_name : string;
  store_url : string;
  store_price : string;
  store_inStock : bool;
  store_priceHistory : list PriceHistory;
  store_priceAlert : option number;
  store_tempPrice : option string
}.

(** [type] is declared a string, but a Part is built from the form by a
    spread and an [as Part] cast, so the field holds whatever the form
    holds: it is optional at run time, as [compatibility] is. *)
Record Part := {
  part_id : string;
  part_name : string;
  part_type : option string;
  part_stores : list Store;
  part_lastChecked : string;
  part_compatibility : option (list string)
}.

Record SavedBuild := {
  build_id : string;
  build_name : string;
  build_date : string;
  build_parts : list Part
}.

(** [Partial<Part>], the type of the add-Part form. *)
Record PartialPart := {
  np_id : option string;
  np_name : option string;
  np_type : option string;
  np_stores : option (list Store);
  np_lastChecked : option string;
  np_compatibility : option (list string)
}.

Definition partTypes : list string :=
  ["CPU"; "GPU"; "Motherboard"; "RAM"; "Storage"; "PSU"; "Case"; "Cooling"].

Inductive SortBy := ByName | ByPrice | ByAvailability.

(** What a handler reads from the clock: [Date.now().toString()] and
    [new Date().toLocaleDateString()]. *)
Record Clock := {
  now : string;
  currentDate : string
}.

(** The state of the component, and the browser's [localStorage]. *)
Record AppState := {
  parts : list Part;
  showAddForm : bool;
  showFilters : bool;
  showSaveDialog : bool;
  showLoadDialog : bool;
  buildName : string;
  savedBuilds : list SavedBuild;
  selectedType : string;
  sortBy : SortBy;
  isDark : bool;
  newPart : PartialPart;
  localStorage : string -> option string
}.

Definition setItem (key value : string) (ls : string -> option string)
  : string -> option string :=
  fun k => if String.eqb k key then Some value else ls k.

(** Functional updates of single fields. *)
Definition with_parts (ps : list Part) (st : AppState) : AppState :=
  {| parts := ps; showAddForm := showAddForm st; showFilters := showFilters st;
     showSaveDialog := showSaveDialog st; showLoadDialog := showLoadDialog st;
     buildName := buildName st; savedBuilds := savedBuilds st;
     selectedType := selectedType st; sortBy := sortBy st; isDark := isDark st;
     newPart := newPart st; localStorage := localStorage st |}.

Definition with_newPart (np : PartialPart) (st : AppState) : AppState :=
  {| parts := parts st; showAddForm := showAddForm st; showFilters := showFilters st;
     showSaveDialog := showSaveDialog st; showLoadDialog := showLoadDialog st;
     buildName := buildName st; savedBuilds := savedBuilds st;
     selectedType := selectedType st; sortBy := sortBy st; isDark := isDark st;
     newPart := np; localStorage := localStorage st |}.

Definition with_stores (ss : option (list Store)) (np : PartialPart) : PartialPart :=
  {| np_id := np_id np; np_name := np_name np; np_type := np_type np;
     np_stores := ss; np_lastChecked := np_lastChecked np;
     np_compatibility := np_compatibility np |}.

(** The blank store listing of the form. *)
Definition blankStore (id : string) : Store :=
  {| store_id := id; store_name := EmptyString; store_url := EmptyString;
     store_price := EmptyString;
     store_inStock := false; store_priceHistory := [];
     store_priceAlert := None; store_tempPrice := None |}.

(** [newPart.stores || []] *)
Definition storesOrEmpty (np : PartialPart) : list Store :=
  match np_stores np with Some ss => ss | None => [] end.

(** ** Price history *)

(** [store.priceHistory[store.priceHistory.length - 1]] *)
Definition lastEntry (h : list PriceHistory) : option PriceHistory :=
  nth_error h (List.length h - 1).

(** [newPrice.replace('$', '')] parsed as a number. *)
Definition parsePrice (price : string) : number :=
  parseFloat (removeFirst "$" price).

Definition updatePriceHistory (today : string) (store : Store) (newPrice : string)
  : list PriceHistory :=
  let priceNum := parsePrice newPrice in
  if isNaN priceNum then store_priceHistory store
  else
    match lastEntry (store_priceHistory store) with
    | None =>
        store_priceHistory store ++ [{| ph_date := today; ph_price := priceNum |}]
    | Some last =>
        if (negb (strictEq (ph_price last) priceNum)
            || negb (String.eqb (ph_date last) today))%bool
        then store_priceHistory store ++ [{| ph_date := today; ph_price := priceNum |}]
        else store_priceHistory store
    end.

(** ** Derived values *)

(** [stores.map(store => parseFloat(store.price.replace('$', '')))] *)
Definition parsedPrices (stores : list Store) : list number :=
  map (fun store => parsePrice (store_price store)) stores.

Definition getBestPrice (stores : list Store) : string :=
  let prices := parsedPrices stores in
  "$" ++ toFixed (Math_min prices) 2.

Definition getAvailabilityStatus (stores : list Store) : bool :=
  existsb store_inStock stores.

Definition getTotalBuildCost (ps : list Part) : number :=
  fold_left
    (fun total part =>
       let bestPrice := parsePrice (getBestPrice (part_stores part)) in
       add total bestPrice)
    ps zero.

(** ** The add-Part form *)

Definition handleAddStore (clk : Clock) (st : AppState) : AppState :=
  with_newPart
    (with_stores (Some (storesOrEmpty (newPart st) ++ [blankStore (now clk)])%list)
       (newPart st))
    st.

Definition handleRemoveStore (storeId : string) (st : AppState) : AppState :=
  if Nat.leb (List.length (storesOrEmpty (newPart st))) 1 then st
  else
    with_newPart
      (with_stores
         (Some (filter (fun store => negb (String.eqb (store_id store) storeId))
                  (storesOrEmpty (newPart st))))
         (newPart st))
      st.

(** A field of a store listing together with a value of its type, for
    [{ ...store, [field]: value }]. *)
Inductive StoreField :=
| FieldId (v : string)
| FieldName (v : string)
| FieldUrl (v : string)
| FieldPrice (v : string)
| FieldInStock (v : bool)
| FieldPriceAlert (v : number)
| FieldTempPrice (v : string).

Definition setStoreField (fv : StoreField) (s : Store) : Store :=
  {| store_id := match fv with FieldId v => v | _ => store_id s end;
     store_name := match fv with FieldName v => v | _ => store_name s end;
     store_url := match fv with FieldUrl v => v | _ => store_url s end;
     store_price := match fv with FieldPrice v => v | _ => store_price s end;
     store_inStock := match fv with FieldInStock v => v | _ => store_inStock s end;
     store_priceHistory := store_priceHistory s;
     store_priceAlert :=
       match fv with FieldPriceAlert v => Some v | _ => store_priceAlert s end;
     store_tempPrice :=
       match fv with FieldTempPrice v => Some v | _ => store_tempPrice s end |}.

Definition handleStoreChange (storeId : string) (fv : StoreField) (st : AppState)
  : AppState :=
  with_newPart
    (with_stores
       (Some (map (fun store =>
                     if String.eqb (store_id store) storeId
                     then setStoreField fv store else store)
                (storesOrEmpty (newPart st))))
       (newPart st))
    st.

(** [store.name && store.url && store.price] as a condition. *)
Definition storeFilled (store : Store) : bool :=
  (truthy (store_name store) && truthy (store_url store)
   && truthy (store_price store))%bool.

(** [newPart.name && newPart.stores?.every(...)] as a condition. *)
Definition formValid (np : PartialPart) : bool :=
  match np_name np with
  | Some n =>
      (truthy n &&
       match np_stores np with
       | Some ss => forallb storeFilled ss
       | None => false
       end)%bool
  | None => false
  end.

Definition withHistory (h : list PriceHistory) (s : Store) : Store :=
  {| store_id := store_id s; store_name := store_name s; store_url := store_url s;
     store_price := store_price s; store_inStock := store_inStock s;
     store_priceHistory := h;
     store_priceAlert := store_priceAlert s; store_tempPrice := store_tempPrice s |}.

(** The form after a successful submission. *)
Definition freshForm (clk : Clock) : PartialPart :=
  {| np_id := None; np_name := None; np_type := nth_error partTypes 0;
     np_stores := Some [blankStore (now clk)];
     np_lastChecked := None; np_compatibility := None |}.

Definition handleAddPart (clk : Clock) (st : AppState) : AppState :=
  if formValid (newPart st) then
    let storesWithHistory :=
      map (fun store =>
             withHistory (updatePriceHistory (currentDate clk) store (store_price store))
               store)
        (storesOrEmpty (newPart st)) in
    let part :=
      {| part_id := now clk;
         part_name := match np_name (newPart st) with Some n => n | None => EmptyString end;
         part_type := np_type (newPart st);
         part_stores := storesWithHistory;
         part_lastChecked := currentDate clk;
         part_compatibility := np_compatibility (newPart st) |} in
    {| parts := (parts st ++ [part])%list;
       showAddForm := false; showFilters := showFilters st;
       showSaveDialog := showSaveDialog st; showLoadDialog := showLoadDialog st;
       buildName := buildName st; savedBuilds := savedBuilds st;
       selectedType := selectedType st; sortBy := sortBy st; isDark := isDark st;
       newPart := freshForm clk; localStorage := localStorage st |}
  else st.

(** ** The catalog *)

Definition handleDeletePart (id : string) (st : AppState) : AppState :=
  with_parts (filter (fun part => negb (String.eqb (part_id part) id)) (parts st)) st.

(** [parts.map(part => part.id === partId ? { ...part, stores:
    part.stores.map(store => store.id === storeId ? f(store) : store) }
    : part)], the shape shared by the handlers below; [lc] is the new
    [lastChecked] when the handler sets it. *)
Definition updateStore (partId storeId : string) (lc : option string)
    (f : Store -> Store) (ps : list Part) : list Part :=
  map (fun part =>
         if String.eqb (part_id part) partId then
           {| part_id := part_id part; part_name := part_name part;
              part_type := part_type part;
              part_stores :=
                map (fun store =>
                       if String.eqb (store_id store) storeId then f store else store)
                  (part_stores part);
              part_lastChecked :=
                match lc with Some d => d | None => part_lastChecked part end;
              part_compatibility := part_compatibility part |}
         else part)
    ps.

Definition handlePriceInputChange (partId storeId value : string) (st : AppState)
  : AppState :=
  with_parts
    (updateStore partId storeId None
       (fun store => setStoreField (FieldTempPrice value) store) (parts st))
    st.

Definition handlePriceUpdate (clk : Clock) (partId storeId newPrice : string)
    (st : AppState) : AppState :=
  with_parts
    (updateStore partId storeId (Some (currentDate clk))
       (fun store =>
          {| store_id := store_id store; store_name := store_name store;
             store_url := store_url store;
             store_price := newPrice;
             store_inStock := store_inStock store;
             store_priceHistory := updatePriceHistory (currentDate clk) store newPrice;
             store_priceAlert := store_priceAlert store;
             store_tempPrice := None |})
       (parts st))
    st.

Definition toggleStock (clk : Clock) (partId storeId : string) (st : AppState)
  : AppState :=
  with_parts
    (updateStore partId storeId (Some (currentDate clk))
       (fun store => setStoreField (FieldInStock (negb (store_inStock store))) store)
       (parts st))
    st.

Definition setPriceAlert (partId storeId : string) (price : number) (st : AppState)
  : AppState :=
  with_parts
    (updateStore partId storeId None
       (fun store => setStoreField (FieldPriceAlert price) store) (parts st))
    st.

(** ** Saved builds *)

Section Persistence.

(** [JSON.stringify] on the list of saved builds. *)
Variable JSON_stringify : list SavedBuild -> string.

Definition handleSaveBuild (clk : Clock) (st : AppState) : AppState :=
  if negb (truthy (trim (buildName st))) then st
  else
    let newBuild :=
      {| build_id := now clk; build_name := buildName st;
         build_date := currentDate clk; build_parts := parts st |} in
    let updatedBuilds := (savedBuilds st ++ [newBuild])%list in
    {| parts := parts st; showAddForm := showAddForm st;
       showFilters := showFilters st;
       showSaveDialog := false; showLoadDialog := showLoadDialog st;
       buildName := EmptyString; savedBuilds := updatedBuilds;
       selectedType := selectedType st; sortBy := sortBy st; isDark := isDark st;
       newPart := newPart st;
       localStorage :=
         setItem "savedBuilds" (JSON_stringify updatedBuilds) (localStorage st) |}.

Definition handleLoadBuild (build : SavedBuild) (st : AppState) : AppState :=
  {| parts := build_parts build; showAddForm := showAddForm st;
     showFilters := showFilters st;
     showSaveDialog := showSaveDialog st; showLoadDialog := false;
     buildName := buildName st; savedBuilds := savedBuilds st;
     selectedType := selectedType st; sortBy := sortBy st; isDark := isDark st;
     newPart := newPart st; localStorage := localStorage st |}.

Definition handleDeleteBuild (buildId : string) (st : AppState) : AppState :=
  let updatedBuilds :=
    filter (fun build => negb (String.eqb (build_id build) buildId)) (savedBuilds st) in
  {| parts := parts st; showAddForm := showAddForm st;
     showFilters := showFilters st;
     showSaveDialog := showSaveDialog st; showLoadDialog := showLoadDialog st;
     buildName := buildName st; savedBuilds := updatedBuilds;
     selectedType := selectedType st; sortBy := sortBy st; isDark := isDark st;
     newPart := newPart st;
     localStorage :=
       setItem "savedBuilds" (JSON_stringify updatedBuilds) (localStorage st) |}.

End Persistence.

(** ** Filtering and sorting *)

Definition one : number := Eval vm_compute in parseFloat "1".
Definition minusOne : number := Eval vm_compute in parseFloat "-1".

Section Sorting.

(** [String.prototype.localeCompare], which depends on the host's locale. *)
Variable localeCompare : string -> string -> number.

(** [Array.prototype.sort] with a comparator, on the fresh array that
    [filter] returns. *)
Variable sort : (Part -> Part -> number) -> list Part -> list Part.

(** The comparator given to [sort]. *)
Definition compareParts (by_ : SortBy) (a b : Part) : number :=
  match by_ with
  | ByName => localeCompare (part_name a) (part_name b)
  | ByPrice =>
      sub (parsePrice (getBestPrice (part_stores a)))
          (parsePrice (getBestPrice (part_stores b)))
  | ByAvailability =>
      if getAvailabilityStatus (part_stores b) then one else minusOne
  end.

Definition typeSelected (selected : string) (part : Part) : bool :=
  (String.eqb selected "all"
   || match part_type part with
      | Some t => String.eqb t selected
      | None => false
      end)%bool.

Definition filteredAndSortedParts (st : AppState) : list Part :=
  sort (compareParts (sortBy st)) (filter (typeSelected (selectedType st)) (parts st)).

End Sorting.

(** ** The component as a machine *)

(** The events that change the catalog, the form or the saved builds.
    [NameChange], [TypeChange] and [BuildNameChange] are the inline
    [onChange] handlers of the form's name and type fields and of the
    build-name field. *)
Inductive Action :=
| AddStore (clk : Clock)
| RemoveStore (storeId : string)
| StoreChange (storeId : string) (fv : StoreField)
| NameChange (v : string)
| TypeChange (v : string)
| AddPart (clk : Clock)
| DeletePart (id : string)
| PriceInputChange (partId storeId value : string)
| PriceUpdate (clk : Clock) (partId storeId newPrice : string)
| ToggleStock (clk : Clock) (partId storeId : string)
| SetPriceAlert (partId storeId : string) (price : number)
| BuildNameChange (v : string)
| SaveBuild (clk : Clock)
| LoadBuild (build : SavedBuild)
| DeleteBuild (buildId : string).

Definition with_name (v : string) (np : PartialPart) : PartialPart :=
  {| np_id := np_id np; np_name := Some v; np_type := np_type np;
     np_stores := np_stores np; np_lastChecked := np_lastChecked np;
     np_compatibility := np_compatibility np |}.

Definition with_type (v : string) (np : PartialPart) : PartialPart :=
  {| np_id := np_id np; np_name := np_name np; np_type := Some v;
     np_stores := np_stores np; np_lastChecked := np_lastChecked np;
     np_compatibility := np_compatibility np |}.

Definition with_buildName (name : string) (st : AppState) : AppState :=
  {| parts := parts st; showAddForm := showAddForm st; showFilters := showFilters st;
     showSaveDialog := showSaveDialog st; showLoadDialog := showLoadDialog st;
     buildName := name; savedBuilds := savedBuilds st;
     selectedType := selectedType st; sortBy := sortBy st; isDark := isDark st;
     newPart := newPart st; localStorage := localStorage st |}.

Section Machine.

Variable JSON_stringify : list SavedBuild -> string.

Definition step (a : Action) (st : AppState) : AppState :=
  match a with
  | AddStore clk => handleAddStore clk st
  | RemoveStore storeId => handleRemoveStore storeId st
  | StoreChange storeId fv => handleStoreChange storeId fv st
  | NameChange v => with_newPart (with_name v (newPart st)) st
  | TypeChange v => with_newPart (with_type v (newPart st)) st
  | AddPart clk => handleAddPart clk st
  | DeletePart id => handleDeletePart id st
  | PriceInputChange partId storeId value =>
      handlePriceInputChange partId storeId value st
  | PriceUpdate clk partId storeId newPrice =>
      handlePriceUpdate clk partId storeId newPrice st
  | ToggleStock clk partId storeId => toggleStock clk partId storeId st
  | SetPriceAlert partId storeId price => setPriceAlert partId storeId price st
  | BuildNameChange v => with_buildName v st
  | SaveBuild clk => handleSaveBuild JSON_stringify clk st
  | LoadBuild build => handleLoadBuild build st
  | DeleteBuild buildId => handleDeleteBuild JSON_stringify buildId st
  end.

Definition run (acts : list Action) (st : AppState) : AppState :=
  fold_left (fun s a => step a s) acts st.

End Machine.

(** The state in which the component starts, before any saved build is
    read from storage: nothing in the catalog, and the form with one
    blank listing. *)
Definition initialState (clk : Clock) : AppState :=
  {| parts := []; showAddForm := false; showFilters := false;
     showSaveDialog := false; showLoadDialog := false;
     buildName := EmptyString; savedBuilds := [];
     selectedType := "all"; sortBy := ByName; isDark := false;
     newPart := freshForm clk; localStorage := fun _ => None |}.

(** ** Notions used in the statements *)

(** *** Prices and their text *)

(** Whether a string consists of decimal digits only. *)
Fixpoint allDigits (s : string) : bool :=
  match s with
  | EmptyString => true
  | String c s' => (isDigit c && allDigits s')%bool
  end.

(** Text with exactly two decimal places: an optional minus sign, one or
    more digits, a point, two digits. *)
Definition isUnsignedFixed2 (s : string) : bool :=
  let (ip, r) := spanDigits s in
  match ip, r with
  | String _ _, String "." (String d1 (String d2 EmptyString)) =>
      (isDigit d1 && isDigit d2)%bool
  | _, _ => false
  end.

Definition isFixed2 (s : string) : bool :=
  isUnsignedFixed2 (match s with String "-" r => r | _ => s end).

(** A finite number of magnitude below [10^21]. *)
Definition below1e21 (x : number) : bool :=
  match x with
  | S754_zero _ => true
  | S754_finite _ m e => negb (atLeast1e21 m e)
  | _ => false
  end.

(** Stripping a leading ['$'], as the specification words the parsing of a
    price; [parsePrice] removes the first ['$'] wherever it stands. *)
Definition stripLeadingDollar (price : string) : string :=
  match price with
  | String "$" rest => rest
  | _ => price
  end.

(** Whether a string holds no ['$']. *)
Fixpoint dollarFree (s : string) : bool :=
  match s with
  | EmptyString => true
  | String c s' => (negb (Ascii.eqb c "$") && dollarFree s')%bool
  end.

(** The best price of a Part as a number, the number read back from the
    text that [getBestPrice] displays, and the sum that [reduce] builds,
    from [0] and from left to right. *)
Definition bestPrice (part : Part) : number :=
  Math_min (parsedPrices (part_stores part)).

Definition displayedBest (part : Part) : number :=
  parsePrice (getBestPrice (part_stores part)).

Definition sumNumbers (xs : list number) : number := fold_left add xs zero.

(** A number that is neither NaN nor below zero. *)
Definition notNegative (x : number) : bool :=
  match x with
  | S754_zero _ => true
  | S754_infinity s => negb s
  | S754_finite s _ _ => negb s
  | S754_nan => false
  end.

(** [Infinity] or NaN. *)
Definition infiniteOrNaN (x : number) : Prop := x = Infinity \/ x = NaN.

(** *** Histories and names *)

(** Whether the most recent entry of a history, if any, carries the date
    [today] and a price equal to [p]. *)
Definition repeatsLast (today : string) (p : number) (h : list PriceHistory) : bool :=
  match List.rev h with
  | e :: _ => (String.eqb (ph_date e) today && strictEq (ph_price e) p)%bool
  | [] => false
  end.

(** The histories of all store listings of a catalog, in place. *)
Definition histories (ps : list Part) : list (list (list PriceHistory)) :=
  map (fun part => map store_priceHistory (part_stores part)) ps.

(** A string that is empty or made of white space only. *)
Fixpoint allWhiteSpace (s : string) : bool :=
  match s with
  | EmptyString => true
  | String c s' => (isWhiteSpace c && allWhiteSpace s')%bool
  end.

(** The events that write the list of saved builds. *)
Definition touchesBuilds (a : Action) : bool :=
  match a with
  | SaveBuild _ | DeleteBuild _ => true
  | _ => false
  end.

(** *** The invariant *)

(** A Part with one store listing at least. *)
Definition hasStore (part : Part) : Prop := part_stores part <> [].

(** Every Part of the catalog and of every saved build has a store
    listing, and the form holds one listing at least, with distinct ids. *)
Definition formOk (np : PartialPart) : Prop :=
  exists ss, np_stores np = Some ss /\ ss <> [] /\ NoDup (map store_id ss).

Definition Inv (st : AppState) : Prop :=
  Forall hasStore (parts st) /\
  Forall (fun build => Forall hasStore (build_parts build)) (savedBuilds st) /\
  formOk (newPart st).

(** A submission that the validation rejects: the name is missing or
    empty, or a listing has an empty name, url or price. *)
Definition hasEmptyField (store : Store) : Prop :=
  store_name store = EmptyString \/ store_url store = EmptyString \/
  store_price store = EmptyString.

Definition incomplete (np : PartialPart) : Prop :=
  np_name np = None \/ np_name np = Some EmptyString \/
  exists store, In store (storesOrEmpty np) /\ hasEmptyField store.

(** What the invariant relies on from outside the handlers: the clock has
    moved on when a listing is added to the form, so that its id is new;
    the form edits the name, url, price and stock flag of a listing, not
    its id; a build that is loaded is one of the saved builds. *)
Definition keepsId (fv : StoreField) : Prop :=
  match fv with FieldId _ => False | _ => True end.

Definition enabled (st : AppState) (a : Action) : Prop :=
  match a with
  | AddStore clk => ~ In (now clk) (map store_id (storesOrEmpty (newPart st)))
  | StoreChange _ fv => keepsId fv
  | LoadBuild build => In build (savedBuilds st)
  | _ => True
  end.

(** *** Sorting *)

(** [available] elements first: the list splits into a part where
    [available] holds everywhere and a part where it holds nowhere. *)
Definition availableFirst {A : Type} (available : A -> bool) (l : list A) : Prop :=
  exists first rest,
    l = (first ++ rest)%list /\
    Forall (fun x => available x = true) first /\
    Forall (fun x => available x = false) rest.

(** What holds of a run on the stack of pending runs when the comparator
    is the one for availability: the run holds an element, and its
    available elements come first. *)
Definition goodRun {A : Type} (available : A -> bool) (run : list A) : Prop :=
  run <> [] /\ availableFirst available run.

(** What merging runs of the stack [before] leaves: runs as above, with
    the same elements, and no more runs than before. *)
Definition collapsed {A : Type} (available : A -> bool)
    (before after : list (list A)) : Prop :=
  Forall (goodRun available) after /\
  Permutation (List.concat before) (List.concat after) /\
  (List.length after <= List.length before)%nat.

(** A merge that is in its loop of single steps, or enters its galloping
    loop. *)
Definition starting (mode : ArraySort.Mode) : Prop :=
  match mode with
  | ArraySort.OneAtATime _ _ => True
  | ArraySort.Galloping firstIteration _ _ => firstIteration = true
  end.

(** Insertion sort.  It is not the sort of the engine: it serves as an
    example of a sort for the properties of the displayed list that hold
    whatever the sort is. *)
Fixpoint insertBy (cmp : Part -> Part -> number) (x : Part) (l : list Part)
  : list Part :=
  match l with
  | [] => [x]
  | y :: l' => if lt zero (cmp x y) then y :: insertBy cmp x l' else x :: l
  end.

Fixpoint insertionSort (cmp : Part -> Part -> number) (l : list Part) : list Part :=
  match l with
  | [] => []
  | x :: l' => insertBy cmp x (insertionSort cmp l')
  end.

(** ** Examples *)

(** A store listing with a given price text, and a Part with given
    listings. *)
Definition listing (id price : string) (inStock : bool) : Store :=
  {| store_id := id; store_name := "Shop"; store_url := "https://shop.example";
     store_price := price; store_inStock := inStock; store_priceHistory := [];
     store_priceAlert := None; store_tempPrice := None |}.

Definition partOf (id name : string) (stores : list Store) : Part :=
  {| part_id := id; part_name := name; part_type := Some "CPU";
     part_stores := stores; part_lastChecked := "1/1/2024";
     part_compatibility := None |}.

(** The catalog of the specification's example. *)
Definition exampleCatalog : list Part :=
  [partOf "1" "AMD Ryzen 7 7800X3D"
     [listing "1a" "$449.99" true; listing "1b" "$459.99" false]].

Definition exampleClock : Clock :=
  {| now := "1704153600000"; currentDate := "1/2/2024" |}.

(** A stand-in for [JSON.stringify] in examples: the names of the builds. *)
Definition buildNames (builds : list SavedBuild) : string :=
  String.concat "," (map build_name builds).

(** *** Further notions *)

(** What the price field of a listing shows:
    [store.tempPrice !== undefined ? store.tempPrice : store.price]. *)
Definition priceFieldValue (store : Store) : string :=
  match store_tempPrice store with
  | Some typed => typed
  | None => store_price store
  end.

(** The listings of all Parts of a catalog, in place. *)
Definition listings (ps : list Part) : list (list Store) := map part_stores ps.

(** The displayed best price of every Part, in place. *)
Definition bestPrices (ps : list Part) : list string :=
  map (fun part => getBestPrice (part_stores part)) ps.

(** One list continues another by one element at most. *)
Definition extendsByOne {A : Type} (old new : list A) : Prop :=
  exists added, new = (old ++ added)%list /\ (List.length added <= 1)%nat.

(** The history that a listing without history gets from its first
    price: one entry when the price parses, none otherwise. *)
Definition firstHistory (today price : string) : list PriceHistory :=
  if isNaN (parsePrice price) then []
  else [{| ph_date := today; ph_price := parsePrice price |}].

(** Every listing of the form is without history. *)
Definition blankHistories (np : PartialPart) : Prop :=
  Forall (fun store => store_priceHistory store = []) (storesOrEmpty np).

(** What [sort] guarantees whatever the comparator: the result is a
    rearrangement of the input. *)
Definition permutes
    (sort : (Part -> Part -> number) -> list Part -> list Part) : Prop :=
  forall cmp l, Permutation l (sort cmp l).

(** The stored text is the text of the current list of saved builds. *)
Definition inSync (JSON_stringify : list SavedBuild -> string) (st : AppState) : Prop :=
  localStorage st "savedBuilds" = Some (JSON_stringify (savedBuilds st)).

(** The ids of the Parts of a catalog are distinct, and so are the ids
    of the listings of each Part. *)
Definition uniqueIds (ps : list Part) : Prop :=
  NoDup (map part_id ps) /\
  Forall (fun part => NoDup (map store_id (part_stores part))) ps.

Definition idsOk (st : AppState) : Prop :=
  uniqueIds (parts st) /\
  Forall (fun build => uniqueIds (build_parts build)) (savedBuilds st) /\
  NoDup (map store_id (storesOrEmpty (newPart st))).

(** What distinct ids rely on from outside the handlers: the clock gives
    a listing added to the form, and a Part added to the catalog, an id
    that is not in use; the form does not edit ids; a build that is
    loaded is one of the saved builds. *)
Definition freshIds (st : AppState) (a : Action) : Prop :=
  match a with
  | AddStore clk => ~ In (now clk) (map store_id (storesOrEmpty (newPart st)))
  | StoreChange _ fv => keepsId fv
  | AddPart clk => ~ In (now clk) (map part_id (parts st))
  | LoadBuild build => In build (savedBuilds st)
  | _ => True
  end.

(** What the alert field of a listing shows, [store.priceAlert || '']:
    the alert, unless it is missing, NaN or zero. *)
Definition alertFieldValue (store : Store) : option number :=
  match store_priceAlert store with
  | Some v => if (isNaN v || strictEq v zero)%bool then None else Some v
  | None => None
  end.

(** The [onChange] handler of the alert field:
    [setPriceAlert(part.id, store.id, parseFloat(e.target.value))]. *)
Definition handleAlertInput (partId storeId text : string) (st : AppState) : AppState :=
  setPriceAlert partId storeId (parseFloat text) st.

(** A Part with other listings and another [lastChecked] date. *)
Definition withListings (ss : list Store) (lc : string) (part : Part) : Part :=
  {| part_id := part_id part; part_name := part_name part;
     part_type := part_type part; part_stores := ss;
     part_lastChecked := lc; part_compatibility := part_compatibility part |}.

(** No history, displayed best price or total differs between two
    states. *)
Definition sameFigures (st st' : AppState) : Prop :=
  histories (parts st') = histories (parts st) /\
  bestPrices (parts st') = bestPrices (parts st) /\
  getTotalBuildCost (parts st') = getTotalBuildCost (parts st).

(** * Properties *)

(** ** Order on numbers *)

Ltac order_cases :=
  repeat match goal with
         | |- context [PosDef.Pos.compare_cont Eq ?a ?b] =>
             change (PosDef.Pos.compare_cont Eq a b) with (Pos.compare a b)
         | H : context [PosDef.Pos.compare_cont Eq ?a ?b] |- _ =>
             change (PosDef.Pos.compare_cont Eq a b) with (Pos.compare a b) in H
         end;
  repeat match goal with
         | |- context [Z.compare ?a ?b] => destruct (Z.compare_spec a b)
         | H : context [Z.compare ?a ?b] |- _ => destruct (Z.compare_spec a b)
         | |- context [Pos.compare ?a ?b] => destruct (Pos.compare_spec a b)
         | H : context [Pos.compare ?a ?b] |- _ => destruct (Pos.compare_spec a b)
         end;
  simpl in *; try reflexivity; try discriminate; try lia.

Lemma le_trans (a b c : number) :
  le a b = true -> le b c = true -> le a c = true.
Proof.
  unfold le, SFleb, SFcompare.
  destruct a as [[|]|[|]| |[|] ma ea], b as [[|]|[|]| |[|] mb eb],
           c as [[|]|[|]| |[|] mc ec];
    try reflexivity; try discriminate;
    intros Hab Hbc; order_cases.
Qed.

Lemma le_total (a b : number) :
  isNaN a = false -> isNaN b = false -> lt a b = false -> le b a = true.
Proof.
  unfold le, lt, SFleb, SFltb, SFcompare, isNaN.
  destruct a as [[|]|[|]| |[|] ma ea], b as [[|]|[|]| |[|] mb eb];
    try reflexivity; try discriminate;
    intros _ _ Hab; order_cases.
Qed.

Lemma lt_le (a b : number) : lt a b = true -> le a b = true.
Proof.
  unfold le, lt, SFleb, SFltb. destruct (SFcompare a b) as [[| |]|]; congruence.
Qed.

Lemma le_refl (a : number) : isNaN a = false -> le a a = true.
Proof.
  unfold le, SFleb, SFcompare, isNaN.
  destruct a as [[|]|[|]| |[|] ma ea]; try reflexivity; try discriminate;
    intros _; order_cases.
Qed.

Lemma isFinite_not_NaN (x : number) : isFinite x = true -> isNaN x = false.
Proof. destruct x; simpl; congruence. Qed.

Create HintDb numbers.
#[local] Hint Resolve lt_le le_refl le_total isFinite_not_NaN : numbers.

Lemma le_Infinity_finite (x : number) :
  isFinite x = true -> le Infinity x = false.
Proof. destruct x as [s|s| |s m e]; simpl; try discriminate; reflexivity. Qed.

(** ** [Math.min] *)

Lemma min_step_spec (lowest x : number) :
  isNaN lowest = false -> isNaN x = false ->
  (min_step lowest x = lowest \/ min_step lowest x = x) /\
  le (min_step lowest x) lowest = true /\
  le (min_step lowest x) x = true /\
  isNaN (min_step lowest x) = false.
Proof.
  intros Hl Hx.
  assert (Hgen : (if lt x lowest then x else lowest) = lowest \/
                 (if lt x lowest then x else lowest) = x).
  { destruct (lt x lowest); auto. }
  assert (Hle : le (if lt x lowest then x else lowest) lowest = true /\
                le (if lt x lowest then x else lowest) x = true /\
                isNaN (if lt x lowest then x else lowest) = false).
  { destruct (lt x lowest) eqn:E.
    - repeat split; auto with numbers.
    - repeat split; auto with numbers. }
  unfold min_step.
  destruct x as [[|]|sx| |sx mx ex]; try (split; [exact Hgen | exact Hle]).
  destruct lowest as [[|]|sl| |sl ml el]; try (split; [exact Hgen | exact Hle]).
  repeat split; auto.
Qed.

Lemma min_from_spec (xs : list number) :
  forall lowest,
    isNaN lowest = false ->
    Forall (fun x => isNaN x = false) xs ->
    (min_from lowest xs = lowest \/ In (min_from lowest xs) xs) /\
    le (min_from lowest xs) lowest = true /\
    Forall (fun x => le (min_from lowest xs) x = true) xs.
Proof.
  induction xs as [|x xs IH]; intros lowest Hl Hxs; simpl.
  - repeat split; auto with numbers.
  - inversion Hxs as [|? ? Hx Hxs']; subst. rewrite Hx.
    destruct (min_step_spec lowest x Hl Hx) as (Hsel & Hlow & Hlex & Hnan).
    destruct (IH (min_step lowest x) Hnan Hxs') as (Hin & Hle & Hall).
    repeat split.
    + destruct Hin as [Heq | Hin]; [|auto].
      rewrite Heq. destruct Hsel as [-> | ->]; auto.
    + eapply le_trans; eauto.
    + constructor; [eapply le_trans; eauto | exact Hall].
Qed.

(** On a non-empty list of finite numbers, [Math.min] returns an element
    of the list that is below or equal to every element. *)
Lemma Math_min_least (xs : list number) :
  xs <> [] ->
  Forall (fun x => isFinite x = true) xs ->
  In (Math_min xs) xs /\ Forall (fun x => le (Math_min xs) x = true) xs.
Proof.
  intros Hne Hfin.
  assert (Hnan : Forall (fun x => isNaN x = false) xs).
  { eapply Forall_impl; [|exact Hfin]. auto with numbers. }
  destruct (min_from_spec xs Infinity eq_refl Hnan) as (Hin & _ & Hall).
  fold (Math_min xs) in *. split; [|exact Hall].
  destruct Hin as [Heq | Hin]; [|exact Hin].
  destruct xs as [|x xs]; [congruence|].
  inversion Hall as [|? ? Hx _]; subst. inversion Hfin as [|? ? Hfx _]; subst.
  rewrite Heq, le_Infinity_finite in Hx by assumption. discriminate.
Qed.

(** ** Decimal text *)

Lemma allDigits_app (a b : string) :
  allDigits (a ++ b) = (allDigits a && allDigits b)%bool.
Proof.
  induction a as [|c a IH]; simpl; [reflexivity|].
  rewrite IH. now rewrite andb_assoc.
Qed.

Lemma string_of_uint_digits (d : uint) :
  allDigits (NilEmpty.string_of_uint d) = true.
Proof. induction d; simpl; auto. Qed.

Lemma decimal_digits (n : N) : allDigits (decimal n) = true.
Proof. apply string_of_uint_digits. Qed.

Lemma decimal_nonempty (n : N) : decimal n <> EmptyString.
Proof.
  unfold decimal. destruct n as [|p]; [discriminate|].
  simpl. intros H.
  assert (Hnil : Pos.to_uint p = Nil) by (destruct (Pos.to_uint p); simpl in H; congruence).
  now apply DecimalPos.Unsigned.to_uint_nonnil in Hnil.
Qed.

Lemma zeros_digits (k : nat) : allDigits (zeros k) = true.
Proof. induction k; simpl; auto. Qed.

Lemma length_zeros (k : nat) : String.length (zeros k) = k.
Proof. induction k; simpl; auto. Qed.

Lemma length_append (a b : string) :
  String.length (a ++ b) = (String.length a + String.length b)%nat.
Proof. induction a; simpl; auto. Qed.

Lemma substring_prefix (a b : string) :
  substring 0 (String.length a) (a ++ b) = a.
Proof. induction a as [|c a IH]; simpl; [now destruct b | now rewrite IH]. Qed.

Lemma substring_suffix (a b : string) :
  substring (String.length a) (String.length b) (a ++ b) = b.
Proof.
  induction a as [|c a IH]; simpl; [|exact IH].
  induction b as [|c b IHb]; simpl; [reflexivity | now rewrite IHb].
Qed.

(** A string of three characters or more ends with two characters. *)
Lemma last_two (s : string) :
  (3 <= String.length s)%nat ->
  exists a d1 d2, s = a ++ String d1 (String d2 EmptyString) /\ a <> EmptyString.
Proof.
  induction s as [|c s IH]; simpl; [lia|]. intros Hlen.
  destruct s as [|c1 [|c2 [|c3 s]]]; simpl in *; try lia.
  - exists (String c EmptyString), c1, c2. split; [reflexivity | discriminate].
  - destruct IH as (a & d1 & d2 & Heq & _); [lia|].
    exists (String c a), d1, d2. split; [|discriminate].
    simpl. now rewrite <- Heq.
Qed.

Lemma spanDigits_point (a r : string) :
  allDigits a = true -> spanDigits (a ++ String "." r) = (a, String "." r).
Proof.
  induction a as [|c a IH]; simpl; [reflexivity|].
  intros H. apply andb_true_iff in H as [Hc Ha]. now rewrite Hc, IH.
Qed.

(** Placing the point before the last two of a non-empty string of
    digits gives text with exactly two decimal places. *)
Lemma placePoint_fixed2 (ds : string) :
  allDigits ds = true -> ds <> EmptyString -> isUnsignedFixed2 (placePoint 2 ds) = true.
Proof.
  intros Hd Hne. unfold placePoint.
  set (padded := if Nat.leb (String.length ds) 2
                 then zeros (2 + 1 - String.length ds) ++ ds else ds).
  assert (Hpd : allDigits padded = true).
  { unfold padded. destruct (Nat.leb _ _); [|exact Hd].
    now rewrite allDigits_app, zeros_digits, Hd. }
  assert (Hlen : (3 <= String.length padded)%nat).
  { unfold padded. destruct (Nat.leb (String.length ds) 2) eqn:E.
    - apply Nat.leb_le in E. rewrite length_append, length_zeros. lia.
    - apply Nat.leb_gt in E. lia. }
  destruct (last_two padded Hlen) as (a & d1 & d2 & Heq & Ha).
  rewrite Heq in Hpd. rewrite allDigits_app in Hpd.
  apply andb_true_iff in Hpd as [Hda Hdb]. simpl in Hdb.
  apply andb_true_iff in Hdb as [Hd1 Hdb]. apply andb_true_iff in Hdb as [Hd2 _].
  assert (Hk : (String.length padded - 2 = String.length a)%nat).
  { rewrite Heq, length_append. simpl. lia. }
  rewrite Hk, Heq.
  rewrite substring_prefix.
  change 2%nat with (String.length (String d1 (String d2 EmptyString))) at 1.
  rewrite substring_suffix.
  unfold isUnsignedFixed2.
  change (a ++ "." ++ String d1 (String d2 EmptyString))
    with (a ++ String "." (String d1 (String d2 EmptyString))).
  rewrite spanDigits_point by exact Hda.
  destruct a; [congruence|]. now rewrite Hd1, Hd2.
Qed.

Lemma unsigned_fixed2 (t : string) :
  isUnsignedFixed2 t = true ->
  isFixed2 t = true /\ isFixed2 ("-" ++ t) = true.
Proof.
  intros H. split; [|exact H].
  unfold isFixed2. destruct t as [|c t]; [exact H|].
  destruct (Ascii.eqb_spec c "-") as [-> | Hc].
  - discriminate H.
  - destruct c as [[|] [|] [|] [|] [|] [|] [|] [|]]; try exact H. congruence.
Qed.

Lemma toFixed_fixed2 (x : number) :
  below1e21 x = true -> isFixed2 (toFixed x 2) = true.
Proof.
  destruct x as [s|s| |s m e]; simpl; try discriminate; intros Hb.
  - reflexivity.
  - apply negb_true_iff in Hb. rewrite Hb.
    pose proof (placePoint_fixed2 (decimal (Z.to_N (scaled 2 m e)))
                  (decimal_digits _) (decimal_nonempty _)) as H.
    apply unsigned_fixed2 in H. destruct s; tauto.
Qed.

(** The integer that [toFixed] prints is the nearest one to the exact
    value scaled by [10^f], the larger one in a tie. *)
Lemma scaled_nearest (f : N) (m : positive) (e : Z) :
  (0 <= e -> scaled f m e = Zpos m * 10 ^ Z.of_N f * 2 ^ e) /\
  (e < 0 ->
   - 2 ^ (- e) < 2 * (scaled f m e * 2 ^ (- e) - Zpos m * 10 ^ Z.of_N f)
     <= 2 ^ (- e)).
Proof.
  unfold scaled. split; intros He.
  - apply Z.leb_le in He. now rewrite He.
  - assert (Hle : (0 <=? e) = false) by (apply Z.leb_gt; exact He).
    rewrite Hle. set (t := Zpos m * 10 ^ Z.of_N f). set (d := 2 ^ (- e)).
    assert (Hd : 0 < d) by (apply Z.pow_pos_nonneg; lia).
    replace (2 ^ (- e + 1)) with (2 * d)
      by (unfold d; rewrite Z.pow_add_r by lia; lia).
    pose proof (Z.div_mod (2 * t + d) (2 * d) ltac:(lia)) as Hdm.
    pose proof (Z.mod_pos_bound (2 * t + d) (2 * d) ltac:(lia)) as Hb.
    nia.
Qed.

(** ** Best price *)

Lemma removeFirst_head (c : ascii) (s : string) : removeFirst c (String c s) = s.
Proof. simpl. now rewrite Ascii.eqb_refl. Qed.

Lemma removeFirst_dollarFree (s : string) :
  dollarFree s = true -> removeFirst "$" s = s.
Proof.
  induction s as [|c s IH]; simpl; [reflexivity|]. intros H.
  apply andb_true_iff in H as [Hc Hs]. apply negb_true_iff in Hc.
  now rewrite Hc, IH.
Qed.

(** For a price whose only ['$'], if any, is at its head, the program
    parses what is left when the leading ['$'] is stripped. *)
Lemma parsePrice_leading_dollar (price : string) :
  dollarFree (stripLeadingDollar price) = true ->
  parsePrice price = parseFloat (stripLeadingDollar price).
Proof.
  unfold parsePrice. intros H. f_equal.
  destruct price as [|c r]; [reflexivity|].
  destruct (Ascii.eqb_spec c "$") as [-> | Hc].
  - apply removeFirst_head.
  - assert (Hs : stripLeadingDollar (String c r) = String c r).
    { destruct c as [[|] [|] [|] [|] [|] [|] [|] [|]]; try reflexivity. congruence. }
    rewrite Hs in *. now apply removeFirst_dollarFree.
Qed.

(** C1 (amended).  For store listings that are not empty and whose
    prices, with their first ['$'] removed, all parse to finite numbers,
    [getBestPrice] returns ["$"] followed by [toFixed(2)] of the minimum
    of the parsed prices: a parsed price that no parsed price is below.
    When the magnitude of that minimum is below [10^21], the text after
    the ["$"] has exactly two decimal places. *)
Theorem getBestPrice_minimum (stores : list Store) :
  stores <> [] ->
  Forall (fun store => isFinite (parsePrice (store_price store)) = true) stores ->
  let m := Math_min (parsedPrices stores) in
  In m (parsedPrices stores) /\
  Forall (fun p => le m p = true) (parsedPrices stores) /\
  getBestPrice stores = "$" ++ toFixed m 2 /\
  (below1e21 m = true -> isFixed2 (toFixed m 2) = true).
Proof.
  intros Hne Hfin m.
  assert (Hne' : parsedPrices stores <> []).
  { destruct stores; [congruence | discriminate]. }
  assert (Hfin' : Forall (fun x => isFinite x = true) (parsedPrices stores)).
  { unfold parsedPrices. rewrite Forall_map. exact Hfin. }
  destruct (Math_min_least _ Hne' Hfin') as [Hin Hall].
  repeat split; try assumption.
  apply toFixed_fixed2.
Qed.

Lemma getBestPrice_minimum_witness :
  let stores := [listing "1a" "$449.99" true; listing "1b" "$459.99" false] in
  getBestPrice stores = "$449.99" /\
  isFixed2 (toFixed (Math_min (parsedPrices stores)) 2) = true.
Proof.
  intros stores.
  assert (Hne : stores <> []) by discriminate.
  assert (Hfin : Forall (fun store => isFinite (parsePrice (store_price store)) = true)
                   stores).
  { repeat constructor. }
  destruct (getBestPrice_minimum stores Hne Hfin) as (_ & _ & Hbest & Hshape).
  split.
  - rewrite Hbest. vm_compute. reflexivity.
  - apply Hshape. vm_compute. reflexivity.
Defined.

(** C1, as stated, fails from [10^21] on: [toFixed] then writes the
    number in exponent notation.  It also fails for a price with a ['$']
    that is not at its head: stripping a leading ['$'] leaves ["4$5"] as
    it is, which parses to [4], while the program removes the ['$'] and
    parses [45]. *)
Lemma getBestPrice_exceptions :
  let stores := [listing "1a" "$1e21" true] in
  let stores' := [listing "1a" "4$5" true] in
  (stores <> [] /\
   Forall (fun store => isFinite (parsePrice (store_price store)) = true) stores /\
   getBestPrice stores = "$1e+21" /\
   isFixed2 "1e+21" = false) /\
  (Forall (fun store =>
             isFinite (parseFloat (stripLeadingDollar (store_price store))) = true)
     stores' /\
   map (fun store => toFixed (parseFloat (stripLeadingDollar (store_price store))) 2)
     stores' = ["4.00"] /\
   getBestPrice stores' = "$45.00").
Proof.
  split.
  - split; [discriminate|]. split; [repeat constructor|].
    split; vm_compute; reflexivity.
  - split; [repeat constructor|]. split; vm_compute; reflexivity.
Qed.

(** ** Price history *)

Lemma lastEntry_snoc (h : list PriceHistory) (e : PriceHistory) :
  lastEntry (h ++ [e]) = Some e.
Proof.
  unfold lastEntry. rewrite length_app. simpl.
  replace (List.length h + 1 - 1)%nat with (List.length h + 0)%nat by lia.
  now rewrite nth_error_app2, Nat.add_0_r, Nat.sub_diag by lia.
Qed.

Lemma lastEntry_rev (h : list PriceHistory) :
  lastEntry h = match List.rev h with e :: _ => Some e | [] => None end.
Proof.
  destruct (List.rev h) as [|e t] eqn:E.
  - apply (f_equal (@List.rev _)) in E. rewrite rev_involutive in E. now subst.
  - apply (f_equal (@List.rev _)) in E. rewrite rev_involutive in E. simpl in E.
    subst h. apply lastEntry_snoc.
Qed.

(** C2.  When the new price parses to a number [p], [updatePriceHistory]
    returns the history with the one entry [(today, p)] added at its end,
    unless the most recent entry already has today's date and a price
    equal to [p], in which case it returns the history as it is.  Either
    way the entries already there stay as they are, in their order. *)
Theorem updatePriceHistory_appends (today newPrice : string) (store : Store) :
  isNaN (parsePrice newPrice) = false ->
  updatePriceHistory today store newPrice =
    (if repeatsLast today (parsePrice newPrice) (store_priceHistory store)
     then store_priceHistory store
     else store_priceHistory store
            ++ [{| ph_date := today; ph_price := parsePrice newPrice |}])%list
  /\ firstn (List.length (store_priceHistory store))
       (updatePriceHistory today store newPrice) = store_priceHistory store.
Proof.
  intros Hnum.
  assert (Heq : updatePriceHistory today store newPrice =
    (if repeatsLast today (parsePrice newPrice) (store_priceHistory store)
     then store_priceHistory store
     else store_priceHistory store
            ++ [{| ph_date := today; ph_price := parsePrice newPrice |}])%list).
  { unfold updatePriceHistory, repeatsLast. rewrite Hnum, lastEntry_rev.
    destruct (List.rev (store_priceHistory store)) as [|e t]; [reflexivity|].
    destruct (strictEq (ph_price e) (parsePrice newPrice));
      destruct (String.eqb (ph_date e) today); reflexivity. }
  split; [exact Heq|].
  rewrite Heq.
  destruct (repeatsLast _ _ _).
  - apply firstn_all.
  - rewrite firstn_app, Nat.sub_diag, firstn_all. simpl. apply app_nil_r.
Qed.

Lemma updatePriceHistory_appends_witness :
  let store :=
    {| store_id := "1a"; store_name := "Newegg"; store_url := "https://www.newegg.com";
       store_price := "$449.99"; store_inStock := true;
       store_priceHistory :=
         [{| ph_date := "1/1/2024"; ph_price := parsePrice "$449.99" |}];
       store_priceAlert := None; store_tempPrice := None |} in
  updatePriceHistory "1/2/2024" store "$429.99" =
    [{| ph_date := "1/1/2024"; ph_price := parsePrice "$449.99" |};
     {| ph_date := "1/2/2024"; ph_price := parsePrice "$429.99" |}]
  /\ updatePriceHistory "1/1/2024" store "$449.99" = store_priceHistory store.
Proof.
  intros store. split.
  - destruct (updatePriceHistory_appends "1/2/2024" "$429.99" store eq_refl) as [H _].
    rewrite H. reflexivity.
  - destruct (updatePriceHistory_appends "1/1/2024" "$449.99" store eq_refl) as [H _].
    rewrite H. reflexivity.
Defined.

Lemma updatePriceHistory_unparseable (today newPrice : string) (store : Store) :
  isNaN (parsePrice newPrice) = true ->
  updatePriceHistory today store newPrice = store_priceHistory store.
Proof. intros H. unfold updatePriceHistory. now rewrite H. Qed.

(** C4.  When the new price does not parse to a number,
    [handlePriceUpdate] leaves every price history of the catalog as it
    is, and the listing it targets carries the new text as its price. *)
Theorem handlePriceUpdate_unparseable
    (clk : Clock) (partId storeId newPrice : string) (st : AppState) :
  isNaN (parsePrice newPrice) = true ->
  let st' := handlePriceUpdate clk partId storeId newPrice st in
  histories (parts st') = histories (parts st) /\
  forall i j part store,
    nth_error (parts st) i = Some part ->
    nth_error (part_stores part) j = Some store ->
    part_id part = partId -> store_id store = storeId ->
    exists part' store',
      nth_error (parts st') i = Some part' /\
      nth_error (part_stores part') j = Some store' /\
      store_price store' = newPrice /\
      store_priceHistory store' = store_priceHistory store.
Proof.
  intros Hnan st'. subst st'. unfold handlePriceUpdate, updateStore. simpl. split.
  - unfold histories. rewrite map_map. apply map_ext. intros part.
    destruct (String.eqb (part_id part) partId); [|reflexivity]. simpl.
    rewrite map_map. apply map_ext. intros store.
    destruct (String.eqb (store_id store) storeId); [|reflexivity]. simpl.
    now apply updatePriceHistory_unparseable.
  - intros i j part store Hi Hj Hp Hs.
    rewrite nth_error_map, Hi. simpl.
    rewrite <- Hp, String.eqb_refl.
    eexists. eexists. split; [reflexivity|]. simpl.
    rewrite nth_error_map, Hj. simpl.
    rewrite <- Hs, String.eqb_refl. split; [reflexivity|]. simpl.
    split; [reflexivity|]. now apply updatePriceHistory_unparseable.
Qed.

Lemma handlePriceUpdate_unparseable_witness :
  let clk := {| now := "1704153600000"; currentDate := "1/2/2024" |} in
  let store :=
    {| store_id := "1a"; store_name := "Newegg"; store_url := "https://www.newegg.com";
       store_price := "$449.99"; store_inStock := true;
       store_priceHistory :=
         [{| ph_date := "1/1/2024"; ph_price := parsePrice "$449.99" |}];
       store_priceAlert := None; store_tempPrice := None |} in
  let st := with_parts [partOf "1" "AMD Ryzen 7 7800X3D" [store]] (initialState clk) in
  isNaN (parsePrice "call us") = true /\
  histories (parts (handlePriceUpdate clk "1" "1a" "call us" st)) = histories (parts st).
Proof.
  intros clk store st. split; [reflexivity|].
  exact (proj1 (handlePriceUpdate_unparseable clk "1" "1a" "call us" st eq_refl)).
Defined.

(** ** Saved builds *)

Lemma trim_allWhiteSpace (s : string) : allWhiteSpace s = true -> trim s = EmptyString.
Proof.
  unfold trim. induction s as [|c s IH]; simpl; [reflexivity|].
  intros H. apply andb_true_iff in H as [Hc Hs]. rewrite Hc. auto.
Qed.

Section SavedBuilds.

Variable JSON_stringify : list SavedBuild -> string.

(** C5.  When the build name is empty or made of white space only,
    [handleSaveBuild] changes nothing: the saved builds, the stored value
    and the catalog are as before, and no build is created. *)
Theorem handleSaveBuild_blank_name (clk : Clock) (st : AppState) :
  allWhiteSpace (buildName st) = true ->
  handleSaveBuild JSON_stringify clk st = st.
Proof.
  intros H. unfold handleSaveBuild. now rewrite (trim_allWhiteSpace _ H).
Qed.

Lemma filter_other_ids (buildId : string) (l : list SavedBuild) :
  ~ In buildId (map build_id l) ->
  filter (fun build => negb (String.eqb (build_id build) buildId)) l = l.
Proof.
  induction l as [|b l IH]; simpl; [reflexivity|]. intros Hnot.
  destruct (String.eqb_spec (build_id b) buildId) as [E | E]; simpl.
  - exfalso. apply Hnot. now left.
  - f_equal. apply IH. intros Hin. apply Hnot. now right.
Qed.

(** C6.  In a list of saved builds with distinct ids, [handleDeleteBuild]
    with the id of one of them removes that build and no other: the
    builds before it and after it remain, as they were and in their
    order; the stored value is the text of the remaining list. *)
Theorem handleDeleteBuild_removes_one
    (st : AppState) (before after : list SavedBuild) (build : SavedBuild) :
  NoDup (map build_id (savedBuilds st)) ->
  savedBuilds st = (before ++ build :: after)%list ->
  let st' := handleDeleteBuild JSON_stringify (build_id build) st in
  savedBuilds st' = (before ++ after)%list /\
  localStorage st' "savedBuilds" = Some (JSON_stringify (before ++ after)%list) /\
  parts st' = parts st.
Proof.
  intros Hnd Heq st'. subst st'. unfold handleDeleteBuild. simpl.
  rewrite Heq in *. rewrite map_app in Hnd. simpl in Hnd.
  pose proof (NoDup_remove_2 _ _ _ Hnd) as Hnot.
  assert (Hfilter :
    filter (fun b => negb (String.eqb (build_id b) (build_id build)))
      (before ++ build :: after) = (before ++ after)%list).
  { rewrite filter_app. simpl. rewrite String.eqb_refl. simpl.
    rewrite !filter_other_ids; [reflexivity | |];
      intros Hin; apply Hnot; apply in_or_app; auto. }
  rewrite Hfilter. repeat split; reflexivity.
Qed.

End SavedBuilds.

Lemma handleSaveBuild_blank_name_witness :
  let st := with_buildName "   " (with_parts exampleCatalog (initialState exampleClock)) in
  allWhiteSpace (buildName st) = true /\
  handleSaveBuild buildNames exampleClock st = st.
Proof.
  intros st. split; [reflexivity|].
  apply handleSaveBuild_blank_name. reflexivity.
Defined.

Lemma handleDeleteBuild_removes_one_witness :
  let b1 := {| build_id := "1"; build_name := "Gaming"; build_date := "1/1/2024";
               build_parts := exampleCatalog |} in
  let b2 := {| build_id := "2"; build_name := "Office"; build_date := "1/2/2024";
               build_parts := [] |} in
  let b3 := {| build_id := "3"; build_name := "Server"; build_date := "1/3/2024";
               build_parts := exampleCatalog |} in
  let st := run buildNames
              [BuildNameChange "Server";
               SaveBuild {| now := "3"; currentDate := "1/3/2024" |}]
              (handleLoadBuild b1
                 {| parts := []; showAddForm := false; showFilters := false;
                    showSaveDialog := false; showLoadDialog := true;
                    buildName := EmptyString; savedBuilds := [b1; b2];
                    selectedType := "all"; sortBy := ByName; isDark := false;
                    newPart := freshForm exampleClock;
                    localStorage := fun _ => None |}) in
  savedBuilds st = [b1; b2; b3] /\
  savedBuilds (handleDeleteBuild buildNames "2" st) = [b1; b3] /\
  localStorage (handleDeleteBuild buildNames "2" st) "savedBuilds" = Some "Gaming,Server".
Proof.
  intros b1 b2 b3 st. split; [reflexivity|].
  assert (Hnd : NoDup (map build_id (savedBuilds st))).
  { simpl. repeat constructor; simpl; intuition discriminate. }
  destruct (handleDeleteBuild_removes_one buildNames st [b1] [b3] b2 Hnd eq_refl)
    as (Hb & Hls & _).
  split; [exact Hb | exact Hls].
Defined.

(** ** Saving and loading *)

Section SaveLoad.

Variable JSON_stringify : list SavedBuild -> string.

Lemma step_keeps_builds (a : Action) (st : AppState) :
  touchesBuilds a = false ->
  savedBuilds (step JSON_stringify a st) = savedBuilds st.
Proof.
  destruct a; simpl; try discriminate; intros _; try reflexivity.
  - unfold handleRemoveStore. now destruct (Nat.leb _ _).
  - unfold handleAddPart. now destruct (formValid _).
Qed.

Lemma run_keeps_builds (acts : list Action) :
  Forall (fun a => touchesBuilds a = false) acts ->
  forall st, savedBuilds (run JSON_stringify acts st) = savedBuilds st.
Proof.
  induction 1 as [|a acts Ha _ IH]; intros st; [reflexivity|].
  change (run JSON_stringify (a :: acts) st)
    with (run JSON_stringify acts (step JSON_stringify a st)).
  rewrite IH. now apply step_keeps_builds.
Qed.

(** C3.  With a build name that is not blank, [handleSaveBuild] adds one
    build at the end of the saved builds; it carries the name and the
    catalog of the time of the save, and the stored value is the text of
    the new list.  Loading that build gives back the catalog of the time
    of the save, at once and after any later events on the catalog and
    the form: none of them changes the saved builds. *)
Theorem save_then_load (clk : Clock) (st : AppState) (acts : list Action) :
  truthy (trim (buildName st)) = true ->
  Forall (fun a => touchesBuilds a = false) acts ->
  let saved := handleSaveBuild JSON_stringify clk st in
  exists build,
    savedBuilds saved = (savedBuilds st ++ [build])%list /\
    build_name build = buildName st /\
    build_parts build = parts st /\
    localStorage saved "savedBuilds" = Some (JSON_stringify (savedBuilds saved)) /\
    parts (handleLoadBuild build saved) = parts st /\
    savedBuilds (run JSON_stringify acts saved) = savedBuilds saved /\
    parts (handleLoadBuild build (run JSON_stringify acts saved)) = parts st.
Proof.
  intros Hname Hacts saved. subst saved.
  unfold handleSaveBuild at 1 2 3 4. rewrite Hname. simpl.
  eexists. split; [reflexivity|]. simpl.
  repeat split.
  now apply run_keeps_builds.
Qed.

End SaveLoad.

Lemma save_then_load_witness :
  let st := with_buildName " Gaming rig "
              (with_parts exampleCatalog (initialState exampleClock)) in
  let saved := handleSaveBuild buildNames exampleClock st in
  let acts := [DeletePart "1"; NameChange "Fan"; AddPart exampleClock] in
  truthy (trim (buildName st)) = true /\
  exists build,
    savedBuilds saved = [build] /\
    parts (run buildNames acts saved) <> exampleCatalog /\
    parts (handleLoadBuild build (run buildNames acts saved)) = exampleCatalog.
Proof.
  intros st saved acts. split; [reflexivity|].
  assert (Hacts : Forall (fun a => touchesBuilds a = false) acts)
    by (repeat constructor).
  destruct (save_then_load buildNames exampleClock st acts eq_refl Hacts)
    as (build & Hsaved & _ & _ & _ & _ & _ & Hload).
  exists build. split; [exact Hsaved|]. split; [|exact Hload].
  vm_compute. discriminate.
Defined.

(** ** Sorting by availability *)

(** The comparator for availability is
    [(a, b) => getAvailabilityStatus(b.stores) ? 1 : -1]: it does not
    look at [a].  The order of the displayed list rests on what the sort
    does with such answers.  The searches of the sort are taken first,
    whatever the comparator; then its runs, its merges and its stack of
    runs under a comparator of this kind. *)

Section Searches.

#[local] Open Scope nat_scope.
#[local] Open Scope list_scope.
#[local] Abbreviation length := List.length.
#[local] Abbreviation rev := List.rev.

Import ArraySort.

(** The binary search finds the position [p] when the answers change
    from "after" to "before" at [p]. *)
Lemma bisect_spec (isBefore : nat -> bool) (p : nat) :
  forall rounds left right,
    left <= p <= right ->
    (forall m, left <= m < p -> isBefore m = false) ->
    (forall m, p <= m < right -> isBefore m = true) ->
    right - left <= rounds ->
    bisect rounds isBefore left right = (p, p).
Proof.
  induction rounds as [|rounds IH]; intros left right Hp Hlo Hhi Hr; cbn [bisect].
  - f_equal; lia.
  - destruct (left <? right) eqn:E.
    + apply Nat.ltb_lt in E.
      assert (Hmid : left <= left + (right - left) / 2 < right).
      { split; [lia|].
        assert ((right - left) / 2 < right - left) by (apply Nat.div_lt; lia). lia. }
      assert (Hhalf : (right - left) / 2 <= rounds).
      { pose proof (Nat.div_mod_eq (right - left) 2).
        pose proof (Nat.mod_upper_bound (right - left) 2). lia. }
      destruct (isBefore (left + (right - left) / 2)) eqn:Em.
      * apply IH; auto; try lia.
        -- split; [lia|].
           destruct (Nat.le_gt_cases p (left + (right - left) / 2)) as [H|H]; [exact H|].
           rewrite Hlo in Em by lia. discriminate.
        -- intros m Hm. apply Hhi. lia.
      * apply IH; auto; try lia.
        -- split; [|lia].
           destruct (Nat.le_gt_cases p (left + (right - left) / 2)) as [H|H]; [|lia].
           rewrite Hhi in Em by lia. discriminate.
        -- intros m Hm. apply Hlo. lia.
    + apply Nat.ltb_ge in E. f_equal; lia.
Qed.

(** The galloping loop stops with [lastOfs] on the side of the hint and
    [offset] on the other side, or at [maxOfs]. *)
Lemma gallop_spec (sameSide : nat -> bool) (maxOfs : nat) :
  forall rounds lastOfs offset,
    lastOfs < offset -> lastOfs < maxOfs -> maxOfs <= offset + rounds ->
    forall lastOfs' offset',
      gallop rounds sameSide maxOfs lastOfs offset = (lastOfs', offset') ->
      lastOfs' < offset' /\ lastOfs' < maxOfs /\
      (lastOfs' = lastOfs \/ sameSide lastOfs' = true) /\
      (maxOfs <= offset' \/ sameSide offset' = false).
Proof.
  induction rounds as [|rounds IH]; intros lastOfs offset Hlt Hmax Hr lastOfs' offset';
    cbn [gallop].
  - intros [= <- <-]. repeat split; auto. left. lia.
  - destruct (offset <? maxOfs) eqn:E.
    + apply Nat.ltb_lt in E. destruct (sameSide offset) eqn:Es.
      * intros Hg. apply IH in Hg; try lia.
        destruct Hg as (H1 & H2 & H3 & H4). repeat split; auto.
        destruct H3 as [H3 | H3]; [right; rewrite H3; exact Es | right; exact H3].
      * intros [= <- <-]. repeat split; auto.
    + apply Nat.ltb_ge in E. intros [= <- <-]. repeat split; auto.
Qed.

Context {A : Type}.
Variable comparefn : A -> A -> number.

(** [GallopRight] finds the position [p] in an array where [key] is
    below the elements from [p] on, and only below these. *)
Lemma GallopRight_spec (array : list A) (key : A) (hint p : nat) :
  hint < length array -> p <= length array ->
  (forall i, i < p -> isLess comparefn key (nth i array key) = false) ->
  (forall i, p <= i < length array -> isLess comparefn key (nth i array key) = true) ->
  GallopRight comparefn array key hint = p.
Proof.
  intros Hhint Hp Hlo Hhi. unfold GallopRight.
  match goal with |- snd (bisect _ _ (fst ?b) (snd ?b)) = _ => set (bounds := b) end.
  assert (Hb : fst bounds <= p <= snd bounds /\ snd bounds <= length array).
  { subst bounds. destruct (isLess comparefn key (nth hint array key)) eqn:E.
    - assert (Hge : p <= hint).
      { destruct (Nat.le_gt_cases p hint) as [H|H]; [exact H|].
        rewrite Hlo in E by lia. discriminate. }
      pose proof (gallop_spec (fun offset => isLess comparefn key (nth (hint - offset) array key))
                    (hint + 1) (hint + 1) 0 1) as G.
      specialize (G ltac:(lia) ltac:(lia) ltac:(lia)).
      destruct (gallop (hint + 1) _ (hint + 1) 0 1) as [lastOfs offset].
      destruct (G _ _ eq_refl) as (G1 & G2 & G3 & G4). clear G. simpl.
      assert (p <= hint - lastOfs).
      { destruct G3 as [-> | G3]; [lia|].
        destruct (Nat.le_gt_cases p (hint - lastOfs)) as [H|H]; [exact H|].
        rewrite Hlo in G3 by lia. discriminate. }
      assert (hint + 1 - Nat.min offset (hint + 1) <= p).
      { destruct (Nat.le_gt_cases (hint + 1) offset) as [H'|H']; [lia|].
        destruct G4 as [G4 | G4]; [lia|].
        destruct (Nat.le_gt_cases p (hint - offset)) as [H''|H'']; [|lia].
        rewrite Hhi in G4 by lia. discriminate. }
      lia.
    - assert (Hlt : hint < p).
      { destruct (Nat.le_gt_cases p hint) as [H|H]; [|exact H].
        rewrite Hhi in E by lia. discriminate. }
      pose proof (gallop_spec
                    (fun offset => negb (isLess comparefn key (nth (hint + offset) array key)))
                    (length array - hint) (length array - hint) 0 1) as G.
      specialize (G ltac:(lia) ltac:(lia) ltac:(lia)).
      destruct (gallop (length array - hint) _ (length array - hint) 0 1)
        as [lastOfs offset].
      destruct (G _ _ eq_refl) as (G1 & G2 & G3 & G4). clear G. simpl.
      assert (lastOfs + hint + 1 <= p).
      { destruct G3 as [-> | G3]; [lia|].
        destruct (Nat.le_gt_cases p (hint + lastOfs)) as [H|H]; [|lia].
        rewrite Hhi in G3 by lia. discriminate. }
      assert (p <= Nat.min offset (length array - hint) + hint).
      { destruct (Nat.le_gt_cases (length array - hint) offset) as [H'|H']; [lia|].
        destruct G4 as [G4 | G4]; [lia|].
        destruct (Nat.le_gt_cases p (hint + offset)) as [H''|H'']; [lia|].
        rewrite Hlo in G4 by lia. discriminate. }
      lia. }
  rewrite (bisect_spec _ p); [reflexivity | lia | | | lia].
  - intros m Hm. apply Hlo. lia.
  - intros m Hm. apply Hhi. lia.
Qed.

(** [GallopLeft] finds the position [p] in an array where the elements
    before [p], and only these, are below [key]. *)
Lemma GallopLeft_spec (array : list A) (key : A) (hint p : nat) :
  hint < length array -> p <= length array ->
  (forall i, i < p -> isLess comparefn (nth i array key) key = true) ->
  (forall i, p <= i < length array -> isLess comparefn (nth i array key) key = false) ->
  GallopLeft comparefn array key hint = p.
Proof.
  intros Hhint Hp Hlo Hhi. unfold GallopLeft.
  match goal with |- snd (bisect _ _ (fst ?b) (snd ?b)) = _ => set (bounds := b) end.
  assert (Hb : fst bounds <= p <= snd bounds /\ snd bounds <= length array).
  { subst bounds. destruct (isLess comparefn (nth hint array key) key) eqn:E.
    - assert (Hlt : hint < p).
      { destruct (Nat.le_gt_cases p hint) as [H|H]; [|exact H].
        rewrite Hhi in E by lia. discriminate. }
      pose proof (gallop_spec
                    (fun offset => isLess comparefn (nth (hint + offset) array key) key)
                    (length array - hint) (length array - hint) 0 1) as G.
      specialize (G ltac:(lia) ltac:(lia) ltac:(lia)).
      destruct (gallop (length array - hint) _ (length array - hint) 0 1)
        as [lastOfs offset].
      destruct (G _ _ eq_refl) as (G1 & G2 & G3 & G4). clear G. simpl.
      assert (lastOfs + hint + 1 <= p).
      { destruct G3 as [-> | G3]; [lia|].
        destruct (Nat.le_gt_cases p (hint + lastOfs)) as [H|H]; [|lia].
        rewrite Hhi in G3 by lia. discriminate. }
      assert (p <= Nat.min offset (length array - hint) + hint).
      { destruct (Nat.le_gt_cases (length array - hint) offset) as [H'|H']; [lia|].
        destruct G4 as [G4 | G4]; [lia|].
        destruct (Nat.le_gt_cases p (hint + offset)) as [H''|H'']; [lia|].
        rewrite Hlo in G4 by lia. discriminate. }
      lia.
    - assert (Hge : p <= hint).
      { destruct (Nat.le_gt_cases p hint) as [H|H]; [exact H|].
        rewrite Hlo in E by lia. discriminate. }
      pose proof (gallop_spec
                    (fun offset => negb (isLess comparefn (nth (hint - offset) array key) key))
                    (hint + 1) (hint + 1) 0 1) as G.
      specialize (G ltac:(lia) ltac:(lia) ltac:(lia)).
      destruct (gallop (hint + 1) _ (hint + 1) 0 1) as [lastOfs offset].
      destruct (G _ _ eq_refl) as (G1 & G2 & G3 & G4). clear G. simpl.
      assert (p <= hint - lastOfs).
      { destruct G3 as [-> | G3]; [lia|].
        destruct (Nat.le_gt_cases p (hint - lastOfs)) as [H|H]; [exact H|].
        rewrite Hlo in G3 by lia. discriminate. }
      assert (hint + 1 - Nat.min offset (hint + 1) <= p).
      { destruct (Nat.le_gt_cases (hint + 1) offset) as [H'|H']; [lia|].
        destruct G4 as [G4 | G4]; [lia|].
        destruct (Nat.le_gt_cases p (hint - offset)) as [H''|H'']; [|lia].
        rewrite Hhi in G4 by lia. discriminate. }
      lia. }
  rewrite (bisect_spec _ p); [reflexivity | lia | | | lia].
  - intros m Hm. rewrite Hlo by lia. reflexivity.
  - intros m Hm. rewrite Hhi by lia. reflexivity.
Qed.

End Searches.

(** The sort under a comparator whose answer is above zero when its
    second argument is available and below zero when it is not: an
    element is then below another exactly when the other is not
    available. *)
Section AvailabilityComparator.

#[local] Open Scope nat_scope.
#[local] Open Scope list_scope.
#[local] Abbreviation length := List.length.
#[local] Abbreviation rev := List.rev.
#[local] Abbreviation concat := List.concat.

Import ArraySort.

Context {A : Type}.
Variable comparefn : A -> A -> number.
Variable available : A -> bool.
Hypothesis answers : forall x y, isLess comparefn x y = negb (available y).

#[local] Abbreviation availables := (Forall (fun x => available x = true)).
#[local] Abbreviation unavailables := (Forall (fun x => available x = false)).

Lemma availableFirst_nil : availableFirst available [].
Proof. exists [], []. repeat split; constructor. Qed.

Lemma availableFirst_snoc (l : list A) (x : A) :
  availables l -> availableFirst available (l ++ [x]).
Proof.
  intros H. destruct (available x) eqn:E.
  - exists (l ++ [x]), []. rewrite app_nil_r. repeat split; [|constructor].
    apply Forall_app. split; [exact H|]. now repeat constructor.
  - exists l, [x]. repeat split; [exact H|]. now repeat constructor.
Qed.

Lemma availableFirst_cons (l : list A) (x : A) :
  unavailables l -> availableFirst available (x :: l).
Proof.
  intros H. destruct (available x) eqn:E.
  - exists [x], l. repeat split; [|exact H]. now repeat constructor.
  - exists [], (x :: l). repeat split; [constructor|]. now constructor.
Qed.

Lemma availableFirst_insert (first rest : list A) (x : A) :
  availables first -> unavailables rest ->
  availableFirst available (first ++ x :: rest).
Proof.
  intros Hf Hr. destruct (available x) eqn:E.
  - exists (first ++ [x]), rest. rewrite <- app_assoc. repeat split; [|exact Hr].
    apply Forall_app. split; [exact Hf|]. now repeat constructor.
  - exists first, (x :: rest). repeat split; [exact Hf|]. now constructor.
Qed.

(** In a list with the available elements first, an available element
    stands before any element that is not available. *)
Lemma availableFirst_order (l : list A) :
  availableFirst available l ->
  forall i j x y,
    nth_error l i = Some x -> nth_error l j = Some y ->
    available x = true -> available y = false -> i < j.
Proof.
  intros (first & rest & -> & Hf & Hr) i j x y Hi Hj Hx Hy.
  rewrite Forall_forall in Hf, Hr.
  assert (i < length first).
  { destruct (Nat.lt_ge_cases i (length first)) as [H|H]; [exact H|].
    rewrite nth_error_app2 in Hi by exact H. apply nth_error_In in Hi.
    apply Hr in Hi. congruence. }
  assert (length first <= j).
  { destruct (Nat.lt_ge_cases j (length first)) as [H'|H']; [|exact H'].
    rewrite nth_error_app1 in Hj by exact H'. apply nth_error_In in Hj.
    apply Hf in Hj. congruence. }
  lia.
Qed.

(** *** Runs *)

Lemma extendRun_spec (isDescending : bool) :
  forall l previousElement run rest,
    extendRun comparefn isDescending previousElement l = (run, rest) ->
    l = run ++ rest /\
    Forall (fun x => available x = negb isDescending)
      (removelast (previousElement :: run)).
Proof.
  induction l as [|current l IH]; intros previous run rest; cbn [extendRun].
  - intros [= <- <-]. split; [reflexivity | constructor].
  - rewrite answers. destruct (Bool.eqb (negb (available previous)) isDescending) eqn:E.
    + destruct (extendRun comparefn isDescending current l) as [run' rest'] eqn:Er.
      intros [= <- <-]. destruct (IH _ _ _ Er) as [-> Hall].
      split; [reflexivity|].
      change (removelast (previous :: current :: run'))
        with (previous :: removelast (current :: run')).
      constructor; [|exact Hall].
      apply Bool.eqb_prop in E. rewrite <- E. now rewrite Bool.negb_involutive.
    + intros [= <- <-]. split; [reflexivity | constructor].
Qed.

Lemma CountAndMakeRun_spec (l run rest : list A) :
  l <> [] ->
  CountAndMakeRun comparefn l = (run, rest) ->
  run <> [] /\ availableFirst available run /\ Permutation l (run ++ rest) /\
  length l = length run + length rest.
Proof.
  intros Hl. unfold CountAndMakeRun.
  destruct l as [|elementHigh [|elementLow l]]; [congruence | |].
  - intros [= <- <-]. split; [discriminate|]. split; [|split; [|reflexivity]].
    + apply (availableFirst_cons [] elementHigh). constructor.
    + apply Permutation_refl.
  - rewrite answers.
    destruct (extendRun comparefn (negb (available elementHigh)) elementLow l)
      as [run' rest'] eqn:Er.
    apply extendRun_spec in Er. destruct Er as [-> Hall].
    rewrite Bool.negb_involutive in Hall.
    set (whole := elementHigh :: elementLow :: run').
    assert (Hwhole : Forall (fun x => available x = available elementHigh)
                       (removelast whole)).
    { subst whole.
      change (removelast (elementHigh :: elementLow :: run'))
        with (elementHigh :: removelast (elementLow :: run')).
      constructor; [reflexivity | exact Hall]. }
    assert (Hsplit : whole = removelast whole ++ [last whole elementHigh])
      by (apply app_removelast_last; discriminate).
    fold whole. intros H. apply pair_equal_spec in H. destruct H as [<- <-].
    destruct (available elementHigh) eqn:E; cbn [negb].
    + split; [discriminate|]. split; [|split].
      * rewrite Hsplit. apply availableFirst_snoc. exact Hwhole.
      * apply Permutation_refl.
      * subst whole. simpl. rewrite length_app. lia.
    + split; [|split; [|split]].
      * intros H. apply (f_equal (@List.rev A)) in H.
        rewrite rev_involutive in H. discriminate H.
      * rewrite Hsplit, rev_app_distr. cbn [List.rev List.app].
        apply availableFirst_cons. apply Forall_rev. exact Hwhole.
      * change (Permutation (whole ++ rest') (rev whole ++ rest')).
        apply Permutation_app_tail. apply Permutation_rev.
      * rewrite length_rev. subst whole. simpl. rewrite length_app. lia.
Qed.

Lemma insertPivot_spec (first rest : list A) (pivot : A) :
  availables first -> unavailables rest ->
  insertPivot comparefn (first ++ rest) pivot = first ++ pivot :: rest.
Proof.
  intros Hf Hr. unfold insertPivot.
  rewrite (bisect_spec _ (length first)); cbn [fst].
  - rewrite firstn_app, firstn_all, Nat.sub_diag, firstn_0, app_nil_r.
    rewrite skipn_app, skipn_all, Nat.sub_diag, skipn_0. reflexivity.
  - rewrite length_app. lia.
  - intros m Hm. rewrite answers, app_nth1 by lia.
    rewrite Forall_forall in Hf. rewrite Hf; [reflexivity|]. apply nth_In. lia.
  - intros m Hm. rewrite length_app in Hm. rewrite answers, app_nth2 by lia.
    rewrite Forall_forall in Hr. rewrite Hr; [reflexivity|]. apply nth_In. lia.
  - lia.
Qed.

Lemma BinaryInsertionSort_spec (toInsert run : list A) :
  run <> [] -> availableFirst available run ->
  let sorted := BinaryInsertionSort comparefn run toInsert in
  sorted <> [] /\ availableFirst available sorted /\
  Permutation (run ++ toInsert) sorted.
Proof.
  unfold BinaryInsertionSort. revert run.
  induction toInsert as [|pivot toInsert IH]; intros run Hne Hrun; cbn [fold_left].
  - rewrite app_nil_r. auto.
  - destruct Hrun as (first & rest & -> & Hf & Hr).
    rewrite insertPivot_spec by assumption.
    destruct (IH (first ++ pivot :: rest)) as (H1 & H2 & H3).
    + destruct first; discriminate.
    + now apply availableFirst_insert.
    + split; [exact H1|]. split; [exact H2|].
      eapply perm_trans; [|exact H3].
      rewrite <- !app_assoc. apply Permutation_app_head.
      cbn [List.app]. apply Permutation_sym, Permutation_middle.
Qed.

(** *** Merges *)

(** Run A holds no available element: every element of run B is below
    every element of run A, and the merge puts run B before run A. *)
Lemma GallopRight_unavailables (array : list A) (key : A) (hint : nat) :
  unavailables array -> hint < length array ->
  GallopRight comparefn array key hint = 0.
Proof.
  intros Hu Hhint. apply GallopRight_spec; [exact Hhint | lia | lia |].
  intros i Hi. rewrite answers. rewrite Forall_forall in Hu.
  rewrite Hu; [reflexivity|]. apply nth_In. lia.
Qed.

Lemma GallopLeft_unavailable (array : list A) (key : A) (hint : nat) :
  available key = false -> hint < length array ->
  GallopLeft comparefn array key hint = length array.
Proof.
  intros Hk Hhint. apply GallopLeft_spec; [exact Hhint | lia | | lia].
  intros i Hi. now rewrite answers, Hk.
Qed.

Lemma mergeLowLoop_unavailables :
  forall rounds mode minGallop tempA runB,
    unavailables tempA -> tempA <> [] -> runB <> [] -> starting mode ->
    length runB <= rounds ->
    fst (mergeLowLoop comparefn rounds mode minGallop tempA runB) = runB ++ tempA.
Proof.
  induction rounds as [|rounds IH]; intros mode minGallop tempA runB Hu Ha Hb Hmode Hr.
  - destruct runB; [congruence | simpl in Hr; lia].
  - destruct tempA as [|a tempA']; [congruence|].
    destruct runB as [|b runB']; [congruence|].
    cbn [mergeLowLoop].
    assert (Hav : available a = false) by (inversion Hu; assumption).
    destruct mode as [nofWinsA nofWinsB | firstIteration nofWinsA nofWinsB].
    + rewrite answers, Hav. cbn [negb].
      destruct runB' as [|b' runB'']; [reflexivity|].
      cbn [List.length Nat.eqb].
      destruct (minGallop <=? S nofWinsB).
      * specialize (IH (Galloping true 0 (S nofWinsB)) (S minGallop) (a :: tempA')
                      (b' :: runB'')).
        destruct (mergeLowLoop comparefn rounds _ _ _ _) as [out mg]. cbn [fst] in *.
        rewrite IH;
          first [reflexivity | assumption | discriminate | exact I | simpl in *; lia].
      * specialize (IH (OneAtATime 0 (S nofWinsB)) minGallop (a :: tempA')
                      (b' :: runB'')).
        destruct (mergeLowLoop comparefn rounds _ _ _ _) as [out mg]. cbn [fst] in *.
        rewrite IH;
          first [reflexivity | assumption | discriminate | exact I | simpl in *; lia].
    + simpl in Hmode. subst firstIteration. rewrite Bool.orb_true_r.
      rewrite (GallopRight_unavailables (a :: tempA') b 0) by (auto; simpl; lia).
      cbn [firstn skipn Nat.ltb Nat.leb andb List.app].
      destruct runB' as [|b' runB'']; [reflexivity|].
      cbn [List.length Nat.eqb].
      rewrite (GallopLeft_unavailable (b' :: runB'') a 0) by (auto; simpl; lia).
      rewrite firstn_all, skipn_all. cbn [List.length Nat.eqb Nat.ltb Nat.leb andb fst].
      reflexivity.
Qed.

Lemma MergeLow_unavailables (runA runB : list A) (minGallop : nat) :
  unavailables runA -> runA <> [] -> runB <> [] ->
  fst (MergeLow comparefn runA runB minGallop) = runB ++ runA.
Proof.
  intros Hu Ha Hb. unfold MergeLow.
  destruct runB as [|b runB']; [congruence|].
  destruct runB' as [|b' runB'']; [reflexivity|].
  cbn [List.length Nat.eqb].
  destruct (length runA =? 1); [reflexivity|].
  pose proof (mergeLowLoop_unavailables
                (2 * (length runA + S (S (length runB'')))) (OneAtATime 0 0)
                minGallop runA (b' :: runB'') Hu Ha ltac:(discriminate) I) as H.
  destruct (mergeLowLoop comparefn _ _ _ _ _) as [out mg]. cbn [fst] in *.
  rewrite H; [reflexivity|]. simpl. lia.
Qed.

Lemma mergeHighLoop_unavailables :
  forall rounds mode minGallop revA tempB,
    unavailables revA -> revA <> [] -> tempB <> [] -> starting mode ->
    length revA <= rounds ->
    fst (mergeHighLoop comparefn rounds mode minGallop revA tempB) = revA ++ tempB.
Proof.
  induction rounds as [|rounds IH]; intros mode minGallop revA tempB Hu Ha Hb Hmode Hr.
  - destruct revA; [congruence | simpl in Hr; lia].
  - destruct revA as [|a revA']; [congruence|].
    destruct tempB as [|b tempB']; [congruence|].
    cbn [mergeHighLoop].
    assert (Hav : available a = false) by (inversion Hu; assumption).
    assert (Hu' : unavailables revA') by (inversion Hu; assumption).
    destruct mode as [nofWinsA nofWinsB | firstIteration nofWinsA nofWinsB].
    + rewrite answers, Hav. cbn [negb].
      destruct revA' as [|a' revA'']; [reflexivity|].
      cbn [List.length Nat.eqb].
      destruct (minGallop <=? S nofWinsA).
      * specialize (IH (Galloping true (S nofWinsA) 0) (S minGallop) (a' :: revA'')
                      (b :: tempB')).
        destruct (mergeHighLoop comparefn rounds _ _ _ _) as [out mg]. cbn [fst] in *.
        rewrite IH;
          first [reflexivity | assumption | discriminate | exact I | simpl in *; lia].
      * specialize (IH (OneAtATime (S nofWinsA) 0) minGallop (a' :: revA'')
                      (b :: tempB')).
        destruct (mergeHighLoop comparefn rounds _ _ _ _) as [out mg]. cbn [fst] in *.
        rewrite IH;
          first [reflexivity | assumption | discriminate | exact I | simpl in *; lia].
    + simpl in Hmode. subst firstIteration. rewrite Bool.orb_true_r.
      rewrite (GallopRight_unavailables (rev (a :: revA')) b (length (a :: revA') - 1)).
      * rewrite Nat.sub_0_r, firstn_all, skipn_all.
        cbn [List.length Nat.eqb Nat.ltb Nat.leb andb fst]. reflexivity.
      * apply Forall_rev. exact Hu.
      * rewrite length_rev. simpl. lia.
Qed.

Lemma MergeHigh_unavailables (runA runB : list A) (minGallop : nat) :
  unavailables runA -> runA <> [] -> runB <> [] ->
  fst (MergeHigh comparefn runA runB minGallop) = runB ++ runA.
Proof.
  intros Hu Ha Hb. unfold MergeHigh.
  assert (HrevA : runA = rev (rev runA)) by (symmetry; apply rev_involutive).
  assert (Hu' : unavailables (rev runA)) by (apply Forall_rev; exact Hu).
  assert (Hlen : length (rev runA) = length runA) by apply length_rev.
  destruct (rev runA) as [|a revA']; [simpl in HrevA; congruence|].
  destruct revA' as [|a' revA''].
  - rewrite HrevA. reflexivity.
  - cbn [List.length Nat.eqb].
    destruct (length runB =? 1); [reflexivity|].
    pose proof (mergeHighLoop_unavailables
                  (2 * (length runA + length runB)) (OneAtATime 0 0)
                  minGallop (a' :: revA'') (rev runB)) as H.
    destruct (mergeHighLoop comparefn _ _ _ _ _) as [out mg]. cbn [fst] in *.
    rewrite H.
    + rewrite HrevA. cbn [List.rev]. rewrite !rev_app_distr, rev_involutive.
      cbn [List.rev List.app]. rewrite <- !app_assoc. reflexivity.
    + inversion Hu'; assumption.
    + discriminate.
    + intros E. apply (f_equal (@List.rev A)) in E. rewrite rev_involutive in E.
      simpl in E. congruence.
    + exact I.
    + simpl in Hlen |- *. lia.
Qed.

(** Merging a run that has its available elements first with the run
    after it: the available elements of the first run stay, the second
    run follows, and the other elements of the first run come last. *)
Lemma MergeAt_spec (first rest runB : list A) (minGallop : nat) :
  availables first -> unavailables rest -> first ++ rest <> [] -> runB <> [] ->
  fst (MergeAt comparefn (first ++ rest) runB minGallop) = first ++ runB ++ rest.
Proof.
  intros Hf Hr Ha Hb. unfold MergeAt.
  destruct runB as [|keyRight runB'] eqn:EB; [congruence|]. rewrite <- EB.
  assert (Hk : GallopRight comparefn (first ++ rest) keyRight 0 = length first).
  { apply GallopRight_spec.
    - destruct first, rest; simpl; try lia. simpl in Ha. congruence.
    - rewrite length_app. lia.
    - intros i Hi. rewrite answers, app_nth1 by lia.
      rewrite Forall_forall in Hf. rewrite Hf; [reflexivity|]. apply nth_In. lia.
    - intros i Hi. rewrite length_app in Hi. rewrite answers, app_nth2 by lia.
      rewrite Forall_forall in Hr. rewrite Hr; [reflexivity|]. apply nth_In. lia. }
  rewrite Hk.
  rewrite firstn_app, firstn_all, Nat.sub_diag, firstn_0, app_nil_r.
  rewrite skipn_app, skipn_all, Nat.sub_diag, skipn_0. cbn [List.app].
  destruct rest as [|r rest'] eqn:ER.
  - cbn [List.length Nat.eqb fst]. now rewrite !app_nil_r.
  - rewrite <- ER. assert (Hne : rest <> []) by (subst rest; discriminate).
    assert (Hr' : unavailables rest) by (subst rest; exact Hr).
    replace (length rest =? 0) with false by (subst rest; reflexivity).
    assert (Hlast : available (last rest keyRight) = false).
    { rewrite Forall_forall in Hr'. apply Hr'.
      destruct (exists_last Hne) as (l' & x & ->). rewrite last_last.
      apply in_or_app. right. now left. }
    rewrite (GallopLeft_unavailable runB _ _ Hlast)
      by (subst runB; simpl; lia).
    replace (length runB =? 0) with false by (subst runB; reflexivity).
    rewrite firstn_all, skipn_all.
    destruct (length rest <=? length runB).
    + pose proof (MergeLow_unavailables rest runB minGallop Hr' Hne
                    ltac:(subst runB; discriminate)) as H.
      destruct (MergeLow comparefn rest runB minGallop) as [merged mg].
      cbn [fst] in *. rewrite H, app_nil_r. reflexivity.
    + pose proof (MergeHigh_unavailables rest runB minGallop Hr' Hne
                    ltac:(subst runB; discriminate)) as H.
      destruct (MergeHigh comparefn rest runB minGallop) as [merged mg].
      cbn [fst] in *. rewrite H, app_nil_r. reflexivity.
Qed.

(** *** The stack of runs *)

Lemma MergeAt_goodRun (runA runB : list A) (minGallop : nat) :
  goodRun available runA -> goodRun available runB ->
  goodRun available (fst (MergeAt comparefn runA runB minGallop)) /\
  Permutation (runA ++ runB) (fst (MergeAt comparefn runA runB minGallop)).
Proof.
  intros [Ha (first & rest & -> & Hf & Hr)] [Hb (first' & rest' & EB & Hf' & Hr')].
  rewrite MergeAt_spec by assumption. split; [split|].
  - intros E. apply app_eq_nil in E. destruct E as [_ E].
    apply app_eq_nil in E. destruct E as [E _]. congruence.
  - exists (first ++ first'), (rest' ++ rest). subst runB.
    rewrite <- !app_assoc. repeat split; apply Forall_app; auto.
  - rewrite <- app_assoc. apply Permutation_app_head. apply Permutation_app_comm.
Qed.

Lemma collapsed_refl (pendingRuns : list (list A)) :
  Forall (goodRun available) pendingRuns -> collapsed available pendingRuns pendingRuns.
Proof. intros H. repeat split; auto. Qed.

Lemma collapsed_top (run1 run0 : list A) (below after : list (list A))
    (minGallop : nat) :
  Forall (goodRun available) (run1 :: run0 :: below) ->
  (Forall (goodRun available) (fst (MergeAt comparefn run0 run1 minGallop) :: below) ->
   collapsed available (fst (MergeAt comparefn run0 run1 minGallop) :: below) after) ->
  collapsed available (run1 :: run0 :: below) after.
Proof.
  intros Hgood Hrec.
  inversion Hgood as [|? ? H1 Hgood']; subst.
  inversion Hgood' as [|? ? H0 Hbelow]; subst.
  destruct (MergeAt_goodRun run0 run1 minGallop H0 H1) as [Hm Hp].
  destruct Hrec as (Ha & Hperm & Hlen); [now constructor|].
  split; [exact Ha|]. split.
  - eapply perm_trans; [|exact Hperm]. cbn [List.concat]. rewrite app_assoc.
    apply Permutation_app_tail.
    eapply perm_trans; [apply Permutation_app_comm | exact Hp].
  - simpl in Hlen |- *. lia.
Qed.

Lemma collapsed_below (run1 run0 runM : list A) (below after : list (list A))
    (minGallop : nat) :
  Forall (goodRun available) (run1 :: run0 :: runM :: below) ->
  (Forall (goodRun available) (run1 :: fst (MergeAt comparefn runM run0 minGallop) :: below) ->
   collapsed available (run1 :: fst (MergeAt comparefn runM run0 minGallop) :: below) after) ->
  collapsed available (run1 :: run0 :: runM :: below) after.
Proof.
  intros Hgood Hrec.
  inversion Hgood as [|? ? H1 Hgood']; subst.
  inversion Hgood' as [|? ? H0 Hgood'']; subst.
  inversion Hgood'' as [|? ? HM Hbelow]; subst.
  destruct (MergeAt_goodRun runM run0 minGallop HM H0) as [Hm Hp].
  destruct Hrec as (Ha & Hperm & Hlen);
    [constructor; [assumption | constructor; assumption]|].
  split; [exact Ha|]. split.
  - eapply perm_trans; [|exact Hperm]. cbn [List.concat].
    apply Permutation_app_head. rewrite app_assoc.
    apply Permutation_app_tail.
    eapply perm_trans; [apply Permutation_app_comm | exact Hp].
  - simpl in Hlen |- *. lia.
Qed.

Ltac merged_at :=
  match goal with
  | |- context [MergeAt comparefn ?a ?b ?g] =>
      let merged := fresh "merged" in
      let minGallop' := fresh "minGallop'" in
      let E := fresh "E" in
      destruct (MergeAt comparefn a b g) as [merged minGallop'] eqn:E;
      match goal with
      | IH : _ |- _ =>
          first [ apply (collapsed_top b a _ _ g) | apply (collapsed_below _ b a _ _ g) ];
          [assumption | rewrite E; cbn [fst]; intros; apply IH; assumption]
      end
  end.

Lemma MergeCollapse_collapsed :
  forall rounds pendingRuns minGallop,
    Forall (goodRun available) pendingRuns ->
    collapsed available pendingRuns (fst (MergeCollapse comparefn rounds pendingRuns minGallop)).
Proof.
  induction rounds as [|rounds IH]; intros pendingRuns minGallop Hgood.
  - destruct pendingRuns; apply collapsed_refl; exact Hgood.
  - destruct pendingRuns as [|run1 [|run0 below]];
      try (apply collapsed_refl; exact Hgood).
    cbn [MergeCollapse].
    destruct (negb _ || negb _).
    + destruct below as [|runM below'].
      * merged_at.
      * destruct (length runM <? length run1); merged_at.
    + destruct (length run0 <=? length run1).
      * merged_at.
      * apply collapsed_refl; exact Hgood.
Qed.

Lemma MergeForceCollapse_collapsed :
  forall rounds pendingRuns minGallop,
    Forall (goodRun available) pendingRuns ->
    collapsed available pendingRuns
      (fst (MergeForceCollapse comparefn rounds pendingRuns minGallop)).
Proof.
  induction rounds as [|rounds IH]; intros pendingRuns minGallop Hgood.
  - destruct pendingRuns; apply collapsed_refl; exact Hgood.
  - destruct pendingRuns as [|run1 [|run0 below]];
      try (apply collapsed_refl; exact Hgood).
    cbn [MergeForceCollapse].
    destruct below as [|runM below'].
    + merged_at.
    + destruct (length runM <? length run1); merged_at.
Qed.

(** After [MergeForceCollapse] one run is left. *)
Lemma MergeForceCollapse_one :
  forall rounds pendingRuns minGallop,
    length pendingRuns <= S rounds ->
    length (fst (MergeForceCollapse comparefn rounds pendingRuns minGallop)) <= 1.
Proof.
  induction rounds as [|rounds IH]; intros pendingRuns minGallop Hr.
  - destruct pendingRuns as [|run1 [|run0 below]]; simpl in *; lia.
  - destruct pendingRuns as [|run1 [|run0 below]]; [simpl; lia | simpl; lia |].
    cbn [MergeForceCollapse].
    destruct below as [|runM below'].
    + destruct (MergeAt comparefn run0 run1 minGallop). apply IH. simpl in *. lia.
    + destruct (length runM <? length run1).
      * destruct (MergeAt comparefn runM run0 minGallop). apply IH. simpl in *. lia.
      * destruct (MergeAt comparefn run0 run1 minGallop). apply IH. simpl in *. lia.
Qed.

(** *** The whole sort *)

Lemma sortLoop_spec (minRunLength : nat) :
  forall rounds remaining pendingRuns minGallop,
    Forall (goodRun available) pendingRuns ->
    length remaining <= rounds ->
    let after :=
      fst (sortLoop comparefn rounds minRunLength remaining pendingRuns minGallop) in
    Forall (goodRun available) after /\
    Permutation (remaining ++ concat pendingRuns) (concat after).
Proof.
  induction rounds as [|rounds IH]; intros remaining pendingRuns minGallop Hgood Hr.
  - destruct remaining; [|simpl in Hr; lia]. simpl. auto.
  - destruct remaining as [|x remaining']; [simpl; auto|].
    cbn [sortLoop].
    destruct (CountAndMakeRun comparefn (x :: remaining')) as [run rest] eqn:Erun.
    apply CountAndMakeRun_spec in Erun; [|discriminate].
    destruct Erun as (Hne & Hrun & Hperm & Hlen).
    set (extra := if length run <? minRunLength
                  then Nat.min minRunLength (length (x :: remaining')) - length run
                  else 0).
    destruct (BinaryInsertionSort_spec (firstn extra rest) run Hne Hrun)
      as (Hne' & Hcur & Hperm').
    pose proof (MergeCollapse_collapsed (S (length pendingRuns))
                  (BinaryInsertionSort comparefn run (firstn extra rest) :: pendingRuns)
                  minGallop) as Hc.
    destruct (MergeCollapse comparefn _ _ minGallop) as [pendingRuns' minGallop'].
    cbn [fst] in Hc. destruct Hc as (Hgood' & Hperm'' & _).
    { constructor; [split; assumption | exact Hgood]. }
    specialize (IH (skipn extra rest) pendingRuns' minGallop' Hgood').
    destruct IH as [IH1 IH2].
    { rewrite length_skipn. simpl in Hr, Hlen.
      destruct run; [congruence | simpl in Hlen; lia]. }
    split; [exact IH1|].
    eapply perm_trans; [|exact IH2].
    eapply perm_trans; [apply Permutation_app_tail; exact Hperm|].
    eapply perm_trans; [|apply Permutation_app_head; exact Hperm''].
    cbn [List.concat].
    rewrite <- (firstn_skipn extra rest) at 1.
    rewrite !app_assoc. apply Permutation_app_tail.
    eapply perm_trans; [|apply Permutation_app_comm].
    apply Permutation_app_tail. exact Hperm'.
Qed.

(** Under this comparator the sort rearranges the list, and puts the
    available elements first. *)
Lemma ArrayTimSortImpl_availableFirst (l : list A) :
  Permutation l (ArrayTimSortImpl comparefn l) /\
  availableFirst available (ArrayTimSortImpl comparefn l).
Proof.
  unfold ArrayTimSortImpl. destruct (length l <? 2) eqn:E.
  - split; [apply Permutation_refl|]. apply Nat.ltb_lt in E.
    destruct l as [|x [|y l]]; [apply availableFirst_nil | | simpl in E; lia].
    apply (availableFirst_cons [] x). constructor.
  - pose proof (sortLoop_spec (ComputeMinRunLength (length l)) (length l) l []
                  kMinGallopWins (Forall_nil _) (Nat.le_refl _)) as Hs.
    destruct (sortLoop comparefn _ _ l [] kMinGallopWins) as [pendingRuns minGallop].
    cbn [fst] in Hs. destruct Hs as [Hgood Hperm].
    pose proof (MergeForceCollapse_collapsed (length pendingRuns) pendingRuns
                  minGallop Hgood) as Hc.
    pose proof (MergeForceCollapse_one (length pendingRuns) pendingRuns
                  minGallop (Nat.le_succ_diag_r _)) as Hone.
    destruct (MergeForceCollapse comparefn _ pendingRuns minGallop)
      as [pendingRuns' minGallop'].
    cbn [fst] in Hc, Hone. destruct Hc as (Hgood' & Hperm' & _).
    cbn [List.concat] in Hperm. rewrite app_nil_r in Hperm.
    destruct pendingRuns' as [|run [|run' pendingRuns'']]; [| |simpl in Hone; lia].
    + split; [eapply perm_trans; eassumption | apply availableFirst_nil].
    + cbn [List.rev List.app List.concat] in *. split; [eapply perm_trans; eassumption|].
      rewrite app_nil_r. inversion Hgood' as [|? ? [_ H] _]. exact H.
Qed.

End AvailabilityComparator.

(** The comparator for availability answers [1] when its second Part is
    available and [-1] when it is not. *)
Lemma compareParts_availability_isLess
    (localeCompare : string -> string -> number) (x y : Part) :
  ArraySort.isLess (compareParts localeCompare ByAvailability) x y =
  negb (getAvailabilityStatus (part_stores y)).
Proof.
  unfold ArraySort.isLess, compareParts.
  destruct (getAvailabilityStatus (part_stores y)); reflexivity.
Qed.

(** C7.  With [sortBy] set to availability, the sorted list holds the
    Parts that pass the filter, and in it every Part with a store in
    stock stands before every Part without one. *)
Theorem availability_sort_available_first
    (localeCompare : string -> string -> number) (st : AppState) :
  sortBy st = ByAvailability ->
  let sorted := filteredAndSortedParts localeCompare ArraySort.ArrayPrototypeSort st in
  Permutation (filter (typeSelected (selectedType st)) (parts st)) sorted /\
  forall i j x y,
    nth_error sorted i = Some x -> nth_error sorted j = Some y ->
    getAvailabilityStatus (part_stores x) = true ->
    getAvailabilityStatus (part_stores y) = false ->
    (i < j)%nat.
Proof.
  intros Hby sorted. subst sorted. unfold filteredAndSortedParts.
  rewrite Hby. unfold ArraySort.ArrayPrototypeSort.
  destruct (ArrayTimSortImpl_availableFirst
              (compareParts localeCompare ByAvailability)
              (fun part => getAvailabilityStatus (part_stores part))
              (compareParts_availability_isLess localeCompare)
              (filter (typeSelected (selectedType st)) (parts st)))
    as [Hperm Hfirst].
  split; [exact Hperm|].
  intros i j x y Hi Hj Hx Hy.
  exact (availableFirst_order _ _ Hfirst i j x y Hi Hj Hx Hy).
Qed.

Lemma availability_sort_available_first_witness :
  let st :=
    {| parts :=
         [partOf "1" "Case" [listing "1a" "$89.99" false];
          partOf "2" "CPU" [listing "2a" "$449.99" true; listing "2b" "$459.99" false];
          partOf "3" "PSU" [listing "3a" "$129.99" false];
          partOf "4" "GPU" [listing "4a" "$599.99" false; listing "4b" "$589.99" true]];
       showAddForm := false; showFilters := true;
       showSaveDialog := false; showLoadDialog := false;
       buildName := EmptyString; savedBuilds := [];
       selectedType := "all"; sortBy := ByAvailability; isDark := false;
       newPart := freshForm exampleClock; localStorage := fun _ => None |} in
  let sorted := filteredAndSortedParts (fun _ _ => zero) ArraySort.ArrayPrototypeSort st in
  map part_id sorted = ["2"; "4"; "3"; "1"] /\
  forall i j x y,
    nth_error sorted i = Some x -> nth_error sorted j = Some y ->
    getAvailabilityStatus (part_stores x) = true ->
    getAvailabilityStatus (part_stores y) = false ->
    (i < j)%nat.
Proof.
  intros st sorted. split; [reflexivity|].
  exact (proj2 (availability_sort_available_first (fun _ _ => zero) st eq_refl)).
Defined.

(** An array long enough for the sort to cut it into two runs, which it
    merges: the numbers below 70, a number counting as available when 3
    divides it. *)
Lemma ArrayPrototypeSort_two_runs :
  ArraySort.ArrayPrototypeSort
    (fun _ y => if (y mod 3 =? 0)%nat then one else minusOne) (seq 0 70) =
  [0; 3; 6; 9; 12; 15; 18; 21; 24; 27; 30; 33; 36; 39; 42; 45; 48; 51; 54; 57;
   60; 63; 66; 69; 68; 67; 65; 64; 62; 61; 59; 58; 56; 55; 53; 52; 50; 49; 47;
   46; 44; 43; 41; 40; 38; 37; 35; 34; 32; 31; 29; 28; 26; 25; 23; 22; 20; 19;
   17; 16; 14; 13; 11; 10; 8; 7; 5; 4; 2; 1]%nat.
Proof. vm_compute. reflexivity. Qed.

(** ** The invariant: every Part has a store listing *)

Lemma updateStore_hasStore (partId storeId : string) (lc : option string)
    (f : Store -> Store) (ps : list Part) :
  Forall hasStore ps -> Forall hasStore (updateStore partId storeId lc f ps).
Proof.
  unfold updateStore. intros H. rewrite Forall_map.
  eapply Forall_impl; [|exact H]. intros part Hp.
  destruct (String.eqb (part_id part) partId); [|exact Hp].
  unfold hasStore in *. simpl. destruct (part_stores part); [congruence | discriminate].
Qed.

Lemma Forall_filter_keeps {A : Type} (P : A -> Prop) (f : A -> bool) (l : list A) :
  Forall P l -> Forall P (filter f l).
Proof.
  intros H. rewrite Forall_forall in *. intros x Hx.
  apply filter_In in Hx. now apply H.
Qed.

Lemma formOk_freshForm (clk : Clock) : formOk (freshForm clk).
Proof.
  exists [blankStore (now clk)]. split; [reflexivity|]. split; [discriminate|].
  simpl. constructor; [intros [] | constructor].
Qed.

Lemma NoDup_filter_ids (f : Store -> bool) (ss : list Store) :
  NoDup (map store_id ss) -> NoDup (map store_id (filter f ss)).
Proof.
  induction ss as [|s ss IH]; simpl; intros H; [constructor|].
  inversion H as [|? ? Hnot Hnd]; subst.
  destruct (f s); simpl; [|now apply IH].
  constructor; [|now apply IH].
  intros Hin. apply Hnot. apply in_map_iff in Hin as (s' & Hid & Hs').
  apply filter_In in Hs' as [Hs' _]. apply in_map_iff. now exists s'.
Qed.

(** Removing by id from two or more listings with distinct ids leaves
    one at least. *)
Lemma filter_id_nonempty (storeId : string) (ss : list Store) :
  NoDup (map store_id ss) -> (2 <= List.length ss)%nat ->
  filter (fun store => negb (String.eqb (store_id store) storeId)) ss <> [].
Proof.
  destruct ss as [|s1 [|s2 ss]]; simpl; try lia. intros Hnd _.
  destruct (String.eqb_spec (store_id s1) storeId) as [E1 | E1]; simpl;
    [|discriminate].
  destruct (String.eqb_spec (store_id s2) storeId) as [E2 | E2]; simpl;
    [|discriminate].
  inversion Hnd as [|? ? Hnot _]; subst. exfalso. apply Hnot. left. congruence.
Qed.

Lemma handleRemoveStore_formOk (storeId : string) (st : AppState) :
  formOk (newPart st) -> formOk (newPart (handleRemoveStore storeId st)).
Proof.
  intros (ss & Hss & Hne & Hnd). unfold handleRemoveStore, storesOrEmpty.
  rewrite Hss. destruct (Nat.leb (List.length ss) 1) eqn:E.
  - exists ss. auto.
  - apply Nat.leb_gt in E. simpl. eexists. split; [reflexivity|]. split.
    + apply filter_id_nonempty; [exact Hnd | lia].
    + now apply NoDup_filter_ids.
Qed.

Lemma handleAddStore_formOk (clk : Clock) (st : AppState) :
  ~ In (now clk) (map store_id (storesOrEmpty (newPart st))) ->
  formOk (newPart st) -> formOk (newPart (handleAddStore clk st)).
Proof.
  intros Hfresh (ss & Hss & Hne & Hnd). unfold handleAddStore, storesOrEmpty in *.
  rewrite Hss in *. simpl. eexists. split; [reflexivity|]. split.
  - destruct ss; discriminate.
  - rewrite map_app. simpl. apply NoDup_app; auto.
    + repeat constructor. intros [].
    + intros x Hx [<- | []]. contradiction.
Qed.

Lemma handleStoreChange_formOk (storeId : string) (fv : StoreField) (st : AppState) :
  keepsId fv -> formOk (newPart st) ->
  formOk (newPart (handleStoreChange storeId fv st)).
Proof.
  intros Hfv (ss & Hss & Hne & Hnd). unfold handleStoreChange, storesOrEmpty.
  rewrite Hss. simpl. eexists. split; [reflexivity|]. split.
  - destruct ss; [congruence | discriminate].
  - rewrite map_map. erewrite map_ext; [exact Hnd|].
    intros s. simpl. destruct (String.eqb (store_id s) storeId); [|reflexivity].
    destruct fv; simpl in *; tauto.
Qed.

Lemma handleAddPart_invalid (clk : Clock) (st : AppState) :
  formValid (newPart st) = false -> handleAddPart clk st = st.
Proof. intros H. unfold handleAddPart. now rewrite H. Qed.

(** A missing or empty name, or a listing with an empty name, url or
    price, fails the validation of the form. *)
Lemma formValid_rejects (np : PartialPart) :
  incomplete np -> formValid np = false.
Proof.
  unfold incomplete, hasEmptyField, formValid, storesOrEmpty.
  intros [H | [H | (store & Hin & Hempty)]]; try (rewrite H; reflexivity).
  destruct (np_name np) as [n|]; [|reflexivity].
  destruct (np_stores np) as [ss|]; [|apply andb_false_r].
  apply andb_false_iff. right.
  apply not_true_is_false. intros Hall.
  rewrite forallb_forall in Hall. specialize (Hall store Hin).
  unfold storeFilled in Hall.
  apply andb_true_iff in Hall as [Hall Hp]. apply andb_true_iff in Hall as [Hn Hu].
  destruct Hempty as [E | [E | E]]; rewrite E in *; discriminate.
Qed.

Lemma handleAddPart_valid (clk : Clock) (st : AppState) :
  formValid (newPart st) = true ->
  exists part,
    parts (handleAddPart clk st) = (parts st ++ [part])%list /\
    List.length (part_stores part) = List.length (storesOrEmpty (newPart st)) /\
    newPart (handleAddPart clk st) = freshForm clk.
Proof.
  intros H. unfold handleAddPart. rewrite H. simpl.
  eexists. split; [reflexivity|]. simpl. split; [apply length_map | reflexivity].
Qed.

Section Invariant.

Variable JSON_stringify : list SavedBuild -> string.

Lemma step_preserves_Inv (a : Action) (st : AppState) :
  Inv st -> enabled st a -> Inv (step JSON_stringify a st).
Proof.
  intros (Hparts & Hbuilds & Hform) Hen.
  destruct a; simpl in *.
  - repeat split; auto. now apply handleAddStore_formOk.
  - repeat split; try (unfold handleRemoveStore; destruct (Nat.leb _ _); assumption).
    now apply handleRemoveStore_formOk.
  - repeat split; auto. now apply handleStoreChange_formOk.
  - repeat split; auto.
  - repeat split; auto.
  - destruct (formValid (newPart st)) eqn:E.
    + destruct (handleAddPart_valid clk st E) as (part & Hp & Hlen & Hnew).
      unfold Inv. rewrite Hp, Hnew. repeat split.
      * apply Forall_app. split; [exact Hparts|]. constructor; [|constructor].
        destruct Hform as (ss & Hss & Hne & _).
        unfold storesOrEmpty in Hlen. rewrite Hss in Hlen.
        unfold hasStore. intros Hnil. rewrite Hnil in Hlen.
        destruct ss; [congruence | discriminate].
      * unfold handleAddPart. rewrite E. exact Hbuilds.
      * apply formOk_freshForm.
    + rewrite (handleAddPart_invalid clk st E). repeat split; auto.
  - repeat split; auto. simpl. now apply Forall_filter_keeps.
  - repeat split; auto. simpl. now apply updateStore_hasStore.
  - repeat split; auto. simpl. now apply updateStore_hasStore.
  - repeat split; auto. simpl. now apply updateStore_hasStore.
  - repeat split; auto. simpl. now apply updateStore_hasStore.
  - repeat split; auto.
  - unfold handleSaveBuild. destruct (negb _); [repeat split; auto|].
    repeat split; simpl; auto.
    apply Forall_app. split; [exact Hbuilds|]. repeat constructor. exact Hparts.
  - repeat split; simpl; auto.
    rewrite Forall_forall in Hbuilds. now apply Hbuilds.
  - repeat split; simpl; auto. now apply Forall_filter_keeps.
Qed.

(** What the handlers do provide.  In a state where every Part of the
    catalog and of the saved builds has a store listing and the form
    holds one listing at least, with distinct ids: every event keeps it
    so, given that a listing added to the form gets a new id, that the
    form does not edit ids, and that a loaded build is a saved one; a
    submission with a missing or empty name, or with a listing whose
    name, url or price is empty, leaves the whole state as it is; and a
    submission that passes the validation adds, at the end of the
    catalog, one Part, with as many listings as the form holds. *)
Theorem catalog_invariant (st : AppState) :
  Inv st ->
  (forall a, enabled st a -> Inv (step JSON_stringify a st)) /\
  (forall clk, incomplete (newPart st) -> handleAddPart clk st = st) /\
  (forall clk,
     formValid (newPart st) = true ->
     exists part,
       parts (handleAddPart clk st) = (parts st ++ [part])%list /\
       List.length (part_stores part) = List.length (storesOrEmpty (newPart st)) /\
       hasStore part).
Proof.
  intros HInv. split; [|split].
  - intros a Hen. now apply step_preserves_Inv.
  - intros clk Hbad. apply handleAddPart_invalid. now apply formValid_rejects.
  - intros clk Hvalid.
    destruct (handleAddPart_valid clk st Hvalid) as (part & Hp & Hlen & _).
    exists part. split; [exact Hp|]. split; [exact Hlen|].
    destruct HInv as (_ & _ & (ss & Hss & Hne & _)).
    unfold storesOrEmpty in Hlen. rewrite Hss in Hlen.
    unfold hasStore. intros Hnil. rewrite Hnil in Hlen.
    destruct ss; [congruence | discriminate].
Qed.

End Invariant.

Lemma Inv_initialState (clk : Clock) : Inv (initialState clk).
Proof.
  unfold Inv. simpl. repeat split; try constructor. apply formOk_freshForm.
Qed.

Lemma catalog_invariant_witness :
  let id := now exampleClock in
  let later := {| now := "1704153660000"; currentDate := "1/2/2024" |} in
  let empty := initialState exampleClock in
  let filled :=
    run buildNames
      [NameChange "Fan"; StoreChange id (FieldName "Shop");
       StoreChange id (FieldUrl "https://shop.example");
       StoreChange id (FieldPrice "$12.50")] empty in
  handleAddPart later empty = empty /\
  Inv filled /\
  Inv (step buildNames (AddStore later) filled) /\
  exists part,
    parts (handleAddPart later filled) = [part] /\
    List.length (part_stores part) = 1%nat /\ hasStore part.
Proof.
  intros id later empty filled.
  assert (HInv : Inv filled).
  { unfold Inv. simpl. repeat split; try constructor.
    eexists. split; [reflexivity|]. split; [discriminate|].
    repeat constructor. intros []. }
  destruct (catalog_invariant buildNames empty (Inv_initialState exampleClock))
    as (_ & Hbad & _).
  destruct (catalog_invariant buildNames filled HInv) as (Hstep & _ & Hgood).
  split; [apply Hbad; left; reflexivity|].
  split; [exact HInv|]. split.
  - apply Hstep. simpl. intros [H | []]. discriminate H.
  - destruct (Hgood later eq_refl) as (part & Hp & Hlen & Hhas).
    exists part. repeat split; assumption.
Defined.

(** C8.  The handlers do not keep every Part with a store listing.  The
    validation of a submission does not look at the number of listings,
    and the guard of [handleRemoveStore] counts the listings of the form
    before it removes by id.  When a listing is added to the form within
    the millisecond that gave the first listing its id, the two share
    the id: removing by that id passes the guard and empties the form,
    and a submission with a name then passes the validation and adds a
    Part without any store listing. *)
Lemma submission_without_listing :
  let clk := exampleClock in
  let form := run buildNames [AddStore clk; RemoveStore (now clk); NameChange "Fan"]
                (initialState clk) in
  Inv (initialState clk) /\
  np_stores (newPart form) = Some [] /\
  formValid (newPart form) = true /\
  exists part,
    parts (handleAddPart clk form) = [part] /\ part_stores part = [].
Proof.
  intros clk form. split; [apply Inv_initialState|].
  split; [reflexivity|]. split; [reflexivity|].
  eexists. split; reflexivity.
Qed.

(** ** Total build cost *)

Lemma displayedBest_eq (part : Part) :
  displayedBest part = parseFloat (toFixed (bestPrice part) 2).
Proof.
  unfold displayedBest, parsePrice, getBestPrice, bestPrice, parsedPrices.
  change ("$" ++ ?s) with (String "$" s). now rewrite removeFirst_head.
Qed.

(** [getTotalBuildCost] adds up, from [0] and from left to right, the
    numbers read back from the displayed best prices. *)
Lemma getTotalBuildCost_displayed (ps : list Part) :
  getTotalBuildCost ps = sumNumbers (map displayedBest ps).
Proof.
  unfold getTotalBuildCost, sumNumbers. generalize zero.
  induction ps as [|part ps IH]; intros acc; simpl; [reflexivity | apply IH].
Qed.

(** C9 (amended).  When the best price of every Part comes back
    unchanged from its display with two decimals, [getTotalBuildCost]
    returns the sum of the best prices of the Parts. *)
Theorem getTotalBuildCost_sum (ps : list Part) :
  Forall (fun part => parseFloat (toFixed (bestPrice part) 2) = bestPrice part) ps ->
  getTotalBuildCost ps = sumNumbers (map bestPrice ps).
Proof.
  intros H. rewrite getTotalBuildCost_displayed. f_equal.
  induction H as [|part ps Hp _ IH]; simpl; [reflexivity|].
  now rewrite displayedBest_eq, Hp, IH.
Qed.

Lemma getTotalBuildCost_sum_witness :
  Forall (fun part => parseFloat (toFixed (bestPrice part) 2) = bestPrice part)
    exampleCatalog /\
  getTotalBuildCost exampleCatalog = parseFloat "449.99".
Proof.
  assert (H : Forall (fun part => parseFloat (toFixed (bestPrice part) 2) = bestPrice part)
                exampleCatalog).
  { repeat constructor. }
  split; [exact H|].
  rewrite (getTotalBuildCost_sum exampleCatalog H). reflexivity.
Defined.

(** C9, as stated, fails for a price with more than two decimals: the
    total is computed from the displayed text, which is rounded. *)
Lemma getTotalBuildCost_rounded :
  let ps := [partOf "1" "AMD Ryzen 7 7800X3D" [listing "1a" "$449.999" true]] in
  Forall (fun part => part_stores part <> []) ps /\
  Forall (fun part =>
            Forall (fun store => isFinite (parsePrice (store_price store)) = true)
              (part_stores part)) ps /\
  sumNumbers (map bestPrice ps) = parseFloat "449.999" /\
  getTotalBuildCost ps = parseFloat "450" /\
  getTotalBuildCost ps <> sumNumbers (map bestPrice ps).
Proof.
  intros ps. split; [repeat constructor; discriminate|].
  split; [repeat constructor|].
  split; [reflexivity|]. split; [reflexivity|].
  vm_compute. discriminate.
Qed.

(** ** Outside the precondition: a Part without store listings *)

(** Rounding a mantissa that is not negative never gives NaN, and keeps
    the sign it is given. *)
Lemma shr_1_nonneg (mrs : shr_record) : 0 <= shr_m mrs -> 0 <= shr_m (shr_1 mrs).
Proof.
  destruct mrs as [m r s]. simpl.
  destruct m as [|[p|p|]|p]; simpl; intros H; lia.
Qed.

Lemma iter_shr_1_nonneg (p : positive) :
  forall mrs, 0 <= shr_m mrs -> 0 <= shr_m (iter_pos shr_1 p mrs).
Proof.
  induction p as [p IH|p IH|]; intros mrs H; simpl.
  - apply IH, IH, shr_1_nonneg, H.
  - apply IH, IH, H.
  - apply shr_1_nonneg, H.
Qed.

Lemma shr_fexp_nonneg (m e : Z) (l : location) :
  0 <= m -> 0 <= shr_m (fst (shr_fexp prec emax m e l)).
Proof.
  intros H. unfold shr_fexp, shr.
  assert (H0 : 0 <= shr_m (shr_record_of_loc m l)).
  { destruct l as [|[| |]]; exact H. }
  destruct (fexp prec emax (Zdigits2 m + e) - e); simpl; auto.
  now apply iter_shr_1_nonneg.
Qed.

Lemma round_nearest_even_nonneg (m : Z) (l : location) :
  0 <= m -> 0 <= round_nearest_even m l.
Proof.
  intros H. destruct l as [|[| |]]; simpl; try lia.
  destruct (Z.even m); lia.
Qed.

Lemma binary_round_aux_sign (sx : bool) (mx ex : Z) (lx : location) :
  0 <= mx ->
  notNegative (binary_round_aux prec emax sx mx ex lx) = negb sx \/
  exists s, binary_round_aux prec emax sx mx ex lx = S754_zero s.
Proof.
  intros H. unfold binary_round_aux.
  pose proof (shr_fexp_nonneg mx ex lx H) as H1.
  destruct (shr_fexp prec emax mx ex lx) as [mrs' e']. simpl in H1.
  pose proof (shr_fexp_nonneg _ e' loc_Exact
                (round_nearest_even_nonneg _ (loc_of_shr_record mrs') H1)) as H2.
  destruct (shr_fexp prec emax _ e' loc_Exact) as [mrs'' e'']. simpl in H2.
  destruct (shr_m mrs'') as [|m|m]; [right; eauto | | lia].
  left. destruct (e'' <=? emax - prec); reflexivity.
Qed.

Lemma add_notNegative (x y : number) :
  notNegative x = true -> notNegative y = true -> notNegative (add x y) = true.
Proof.
  destruct x as [sx|sx| |sx mx ex], y as [sy|sy| |sy my ey]; simpl;
    try discriminate; try (destruct sx; discriminate); try (destruct sy; discriminate);
    intros Hx Hy; try reflexivity; try assumption.
  - destruct sx, sy; reflexivity.
  - destruct sx, sy; try discriminate; reflexivity.
  - apply negb_true_iff in Hx, Hy. subst sx sy.
    unfold add, SFadd, cond_Zopp, binary_normalize, binary_round.
    set (z := Z.min ex ey).
    destruct (Z.pos (fst (shl_align mx ex z)) + Z.pos (fst (shl_align my ey z)))
      as [|m|m] eqn:E; try lia.
    destruct (shl_align m z _) as [mz ez].
    destruct (binary_round_aux_sign false (Z.pos mz) ez loc_Exact) as [H | [s H]];
      [lia | exact H | now rewrite H].
Qed.

Lemma add_Infinity_r (x : number) :
  notNegative x = true -> add x Infinity = Infinity.
Proof. destruct x as [s|[|]| |[|] m e]; simpl; try discriminate; reflexivity. Qed.

Lemma add_Infinity_l (y : number) :
  notNegative y = true -> add Infinity y = Infinity.
Proof. destruct y as [s|[|]| |[|] m e]; simpl; try discriminate; reflexivity. Qed.

(** Adding [Infinity], or adding to [Infinity] or to NaN, gives
    [Infinity] or NaN. *)
Lemma add_to_infiniteOrNaN (x y : number) :
  infiniteOrNaN x -> infiniteOrNaN (add x y).
Proof.
  intros [-> | ->]; [|now right].
  destruct y as [s|[|]| |s m e]; simpl; unfold infiniteOrNaN; auto.
Qed.

Lemma add_Infinity_infiniteOrNaN (x : number) : infiniteOrNaN (add x Infinity).
Proof. destruct x as [s|[|]| |s m e]; simpl; unfold infiniteOrNaN; auto. Qed.

Lemma displayedBest_empty (part : Part) :
  part_stores part = [] -> displayedBest part = Infinity.
Proof. unfold displayedBest. intros ->. reflexivity. Qed.

Lemma fold_add_infiniteOrNaN (xs : list number) :
  forall acc, infiniteOrNaN acc -> infiniteOrNaN (fold_left add xs acc).
Proof.
  induction xs as [|x xs IH]; intros acc H; cbn [fold_left]; [exact H|].
  now apply IH, add_to_infiniteOrNaN.
Qed.

Lemma fold_add_meets_Infinity (xs : list number) :
  In Infinity xs -> forall acc, infiniteOrNaN (fold_left add xs acc).
Proof.
  induction xs as [|x xs IH]; intros Hin acc; cbn [fold_left]; [contradiction|].
  destruct Hin as [-> | Hin]; [|now apply IH].
  apply fold_add_infiniteOrNaN, add_Infinity_infiniteOrNaN.
Qed.

Lemma fold_add_from_Infinity (xs : list number) :
  Forall (fun x => notNegative x = true) xs -> fold_left add xs Infinity = Infinity.
Proof.
  induction 1 as [|x xs Hx _ IH]; cbn [fold_left]; [reflexivity|].
  now rewrite add_Infinity_l.
Qed.

Lemma fold_add_reaches_Infinity (xs : list number) :
  Forall (fun x => notNegative x = true) xs -> In Infinity xs ->
  forall acc, notNegative acc = true -> fold_left add xs acc = Infinity.
Proof.
  induction 1 as [|x xs Hx Hxs IH]; intros Hin acc Hacc; cbn [fold_left];
    [contradiction|].
  destruct Hin as [-> | Hin].
  - rewrite add_Infinity_r by exact Hacc. now apply fold_add_from_Infinity.
  - apply IH; [exact Hin|]. now apply add_notNegative.
Qed.

(** C10 (amended).  [getBestPrice] of no store listing is ["$Infinity"].
    Over a catalog with a Part without store listings,
    [getTotalBuildCost] returns [Infinity] or NaN, never a finite
    number; it returns [Infinity] when the number read back from the
    displayed best price of every Part is neither NaN nor negative. *)
Theorem no_listing_not_finite (ps : list Part) :
  (exists part, In part ps /\ part_stores part = []) ->
  getBestPrice [] = "$Infinity" /\
  (getTotalBuildCost ps = Infinity \/ getTotalBuildCost ps = NaN) /\
  (Forall (fun part => notNegative (displayedBest part) = true) ps ->
   getTotalBuildCost ps = Infinity).
Proof.
  intros (part & Hin & Hempty).
  assert (HinI : In Infinity (map displayedBest ps)).
  { apply in_map_iff. exists part. split; [now apply displayedBest_empty | exact Hin]. }
  split; [reflexivity|]. rewrite getTotalBuildCost_displayed. split.
  - now apply fold_add_meets_Infinity.
  - intros Hall. apply fold_add_reaches_Infinity; auto.
    now rewrite Forall_map.
Qed.

Lemma no_listing_not_finite_witness :
  let ps := (exampleCatalog ++ [partOf "2" "NVIDIA RTX 4070" []])%list in
  getBestPrice (part_stores (partOf "2" "NVIDIA RTX 4070" [])) = "$Infinity" /\
  getTotalBuildCost ps = Infinity.
Proof.
  intros ps.
  assert (Hex : exists part, In part ps /\ part_stores part = []).
  { exists (partOf "2" "NVIDIA RTX 4070" []). split; [|reflexivity].
    right. left. reflexivity. }
  destruct (no_listing_not_finite ps Hex) as (Hbest & _ & Htotal).
  split; [exact Hbest|]. apply Htotal. repeat constructor.
Defined.

(** C10, as stated, fails when another Part has a price that does not
    parse: the total is then NaN. *)
Lemma total_NaN_with_unparseable_price :
  let ps := [partOf "1" "AMD Ryzen 7 7800X3D" [];
             partOf "2" "NVIDIA RTX 4070" [listing "2a" "call us" true]] in
  (exists part, In part ps /\ part_stores part = []) /\
  getTotalBuildCost ps = NaN /\
  getTotalBuildCost ps <> Infinity.
Proof.
  intros ps. split.
  - exists (partOf "1" "AMD Ryzen 7 7800X3D" []). split; [now left | reflexivity].
  - split; [reflexivity | vm_compute; discriminate].
Qed.

(** * Further properties of the handlers *)

(** ** Events on a listing of the catalog *)

Lemma with_parts_same (st : AppState) : with_parts (parts st) st = st.
Proof. now destruct st. Qed.

Lemma updateStore_absent (partId storeId : string) (lc : option string)
    (f : Store -> Store) (ps : list Part) :
  ~ In partId (map part_id ps) -> updateStore partId storeId lc f ps = ps.
Proof.
  unfold updateStore. induction ps as [|part ps IH]; simpl; [reflexivity|].
  intros Hnot. destruct (String.eqb_spec (part_id part) partId) as [E | _].
  - exfalso. apply Hnot. now left.
  - f_equal. apply IH. intros Hin. apply Hnot. now right.
Qed.

(** An event addressed to a Part id that no Part of the catalog has
    changes nothing, whatever the listing id: no price, no history, no
    [lastChecked] date. *)
Theorem absent_part_id_changes_nothing
    (clk : Clock) (partId storeId text : string) (price : number) (st : AppState) :
  ~ In partId (map part_id (parts st)) ->
  handlePriceUpdate clk partId storeId text st = st /\
  handlePriceInputChange partId storeId text st = st /\
  toggleStock clk partId storeId st = st /\
  setPriceAlert partId storeId price st = st.
Proof.
  intros Hnot.
  unfold handlePriceUpdate, handlePriceInputChange, toggleStock, setPriceAlert.
  rewrite !updateStore_absent by exact Hnot.
  repeat split; apply with_parts_same.
Qed.

Lemma absent_part_id_changes_nothing_witness :
  let st := with_parts exampleCatalog (initialState exampleClock) in
  ~ In "7" (map part_id (parts st)) /\
  toggleStock exampleClock "7" "1a" st = st /\
  handlePriceUpdate exampleClock "7" "1a" "$1.00" st = st.
Proof.
  intros st.
  assert (Hnot : ~ In "7" (map part_id (parts st))).
  { simpl. intros [H | []]. discriminate H. }
  destruct (absent_part_id_changes_nothing exampleClock "7" "1a" "$1.00" zero st Hnot)
    as (Hu & _ & Ht & _).
  split; [exact Hnot|]. split; [exact Ht | exact Hu].
Defined.

(** [updateStore] with a function that keeps the id of a listing keeps
    the ids of Parts and listings, so that a second event meets the
    same Parts and listings as the first. *)
Lemma updateStore_twice (partId storeId : string) (lc lc' : option string)
    (f g : Store -> Store) (ps : list Part) :
  (forall s, store_id (f s) = store_id s) ->
  listings (updateStore partId storeId lc' g (updateStore partId storeId lc f ps)) =
  listings (updateStore partId storeId lc' (fun s => g (f s)) ps).
Proof.
  intros Hid. unfold listings, updateStore. rewrite !map_map. apply map_ext.
  intros part. destruct (String.eqb (part_id part) partId) eqn:E; simpl.
  - rewrite E. simpl. rewrite map_map. apply map_ext. intros s.
    destruct (String.eqb (store_id s) storeId) eqn:Es.
    + now rewrite Hid, Es.
    + now rewrite Es.
  - now rewrite E.
Qed.

Lemma updateStore_same_listings (partId storeId : string) (lc : option string)
    (f : Store -> Store) (ps : list Part) :
  (forall s, f s = s) -> listings (updateStore partId storeId lc f ps) = listings ps.
Proof.
  intros Hf. unfold listings, updateStore. rewrite map_map. apply map_ext.
  intros part. destruct (String.eqb (part_id part) partId); [|reflexivity]. simpl.
  erewrite map_ext; [apply map_id|]. intros s.
  now destruct (String.eqb (store_id s) storeId).
Qed.

(** Toggling the stock flag of a listing twice gives back every listing
    of the catalog as it was, also when several listings share the id. *)
Theorem toggleStock_twice
    (clk clk' : Clock) (partId storeId : string) (st : AppState) :
  listings (parts (toggleStock clk' partId storeId (toggleStock clk partId storeId st)))
  = listings (parts st).
Proof.
  unfold toggleStock. simpl.
  rewrite updateStore_twice by (intros s; reflexivity).
  apply updateStore_same_listings.
  intros [i n u p b h a t]. simpl. now rewrite negb_involutive.
Qed.

Lemma updateStore_keeps_prices (partId storeId : string) (lc : option string)
    (f : Store -> Store) (ps : list Part) :
  (forall s, store_price (f s) = store_price s) ->
  map (fun part => map store_price (part_stores part))
    (updateStore partId storeId lc f ps)
  = map (fun part => map store_price (part_stores part)) ps.
Proof.
  intros Hf. unfold updateStore. rewrite map_map. apply map_ext.
  intros part. destruct (String.eqb (part_id part) partId); [|reflexivity]. simpl.
  rewrite map_map. apply map_ext. intros s.
  now destruct (String.eqb (store_id s) storeId).
Qed.

Lemma updateStore_keeps_histories (partId storeId : string) (lc : option string)
    (f : Store -> Store) (ps : list Part) :
  (forall s, store_priceHistory (f s) = store_priceHistory s) ->
  histories (updateStore partId storeId lc f ps) = histories ps.
Proof.
  intros Hf. unfold histories, updateStore. rewrite map_map. apply map_ext.
  intros part. destruct (String.eqb (part_id part) partId); [|reflexivity]. simpl.
  rewrite map_map. apply map_ext. intros s.
  now destruct (String.eqb (store_id s) storeId).
Qed.

(** The best prices and the total depend on the price texts only. *)
Lemma parsedPrices_of_prices (ss ss' : list Store) :
  map store_price ss = map store_price ss' -> parsedPrices ss = parsedPrices ss'.
Proof.
  intros H. unfold parsedPrices.
  rewrite <- (map_map store_price parsePrice ss),
          <- (map_map store_price parsePrice ss').
  now rewrite H.
Qed.

Lemma same_prices_same_costs (ps ps' : list Part) :
  map (fun part => map store_price (part_stores part)) ps
  = map (fun part => map store_price (part_stores part)) ps' ->
  bestPrices ps = bestPrices ps' /\ getTotalBuildCost ps = getTotalBuildCost ps'.
Proof.
  intros H.
  assert (Hbest : bestPrices ps = bestPrices ps').
  { unfold bestPrices. revert ps' H.
    induction ps as [|p ps IH]; intros [|p' ps'] H; simpl in *; try discriminate;
      [reflexivity|].
    injection H as Hp Hps. f_equal; [|now apply IH].
    unfold getBestPrice. now rewrite (parsedPrices_of_prices _ _ Hp). }
  split; [exact Hbest|].
  rewrite !getTotalBuildCost_displayed. f_equal.
  unfold bestPrices in Hbest. unfold displayedBest.
  rewrite <- (map_map (fun part => getBestPrice (part_stores part)) parsePrice ps),
          <- (map_map (fun part => getBestPrice (part_stores part)) parsePrice ps').
  now rewrite Hbest.
Qed.

(** Toggling a stock flag, setting a price alert and typing in a price
    field change no price text and no price history of the catalog: the
    displayed best price of every Part and the total build cost stay as
    they are. *)
Theorem prices_untouched
    (clk : Clock) (partId storeId typed : string) (alert : number) (st : AppState) :
  sameFigures st (toggleStock clk partId storeId st) /\
  sameFigures st (setPriceAlert partId storeId alert st) /\
  sameFigures st (handlePriceInputChange partId storeId typed st).
Proof.
  unfold sameFigures, toggleStock, setPriceAlert, handlePriceInputChange. simpl.
  repeat split;
    try (apply updateStore_keeps_histories; intros s; reflexivity);
    apply same_prices_same_costs, updateStore_keeps_prices; intros s; reflexivity.
Qed.

(** Toggling a listing that is out of stock makes its Part available. *)
Theorem toggleStock_makes_available
    (clk : Clock) (partId storeId : string) (st : AppState)
    (i : nat) (part : Part) (store : Store) :
  nth_error (parts st) i = Some part ->
  part_id part = partId ->
  In store (part_stores part) ->
  store_id store = storeId ->
  store_inStock store = false ->
  exists part',
    nth_error (parts (toggleStock clk partId storeId st)) i = Some part' /\
    part_id part' = partId /\
    getAvailabilityStatus (part_stores part') = true.
Proof.
  intros Hi Hp Hin Hs Hout. unfold toggleStock, updateStore. simpl.
  rewrite nth_error_map, Hi. simpl. rewrite <- Hp, String.eqb_refl.
  eexists. split; [reflexivity|]. split; [reflexivity|]. simpl.
  unfold getAvailabilityStatus. apply existsb_exists.
  exists (setStoreField (FieldInStock (negb (store_inStock store))) store).
  split.
  - apply in_map_iff. exists store. split; [|exact Hin].
    now rewrite Hs, String.eqb_refl.
  - simpl. now rewrite Hout.
Qed.

Lemma toggleStock_makes_available_witness :
  let st := with_parts [partOf "2" "NVIDIA RTX 4070" [listing "2a" "$599.99" false]]
              (initialState exampleClock) in
  getAvailabilityStatus (part_stores (partOf "2" "NVIDIA RTX 4070"
                                        [listing "2a" "$599.99" false])) = false /\
  exists part',
    nth_error (parts (toggleStock exampleClock "2" "2a" st)) 0 = Some part' /\
    part_id part' = "2" /\
    getAvailabilityStatus (part_stores part') = true.
Proof.
  intros st. split; [reflexivity|].
  apply (toggleStock_makes_available exampleClock "2" "2a" st 0
           (partOf "2" "NVIDIA RTX 4070" [listing "2a" "$599.99" false])
           (listing "2a" "$599.99" false));
    try reflexivity.
  now left.
Defined.

(** ** Price updates *)

Lemma strictEq_refl (p : number) : isNaN p = false -> strictEq p p = true.
Proof.
  unfold strictEq, SFeqb, SFcompare, isNaN.
  destruct p as [[|]|[|]| |[|] m e]; try reflexivity; try discriminate;
    intros _; order_cases.
Qed.

(** [updatePriceHistory] reads the history of the listing only. *)
Lemma updatePriceHistory_reads_history (today newPrice : string) (s s' : Store) :
  store_priceHistory s = store_priceHistory s' ->
  updatePriceHistory today s newPrice = updatePriceHistory today s' newPrice.
Proof. intros H. unfold updatePriceHistory. now rewrite H. Qed.

Lemma updatePriceHistory_cases (today newPrice : string) (s : Store) :
  updatePriceHistory today s newPrice = store_priceHistory s \/
  (isNaN (parsePrice newPrice) = false /\
   updatePriceHistory today s newPrice =
     (store_priceHistory s
        ++ [{| ph_date := today; ph_price := parsePrice newPrice |}])%list).
Proof.
  unfold updatePriceHistory. destruct (isNaN (parsePrice newPrice)) eqn:E; [now left|].
  destruct (lastEntry (store_priceHistory s)) as [last|]; [|now right].
  destruct (negb _ || negb _)%bool; [now right | now left].
Qed.

(** After an update with a price that parses, the latest entry of the
    history carries today's date and a price equal to the parsed one. *)
Lemma updatePriceHistory_latest (today newPrice : string) (s : Store) :
  isNaN (parsePrice newPrice) = false ->
  exists e,
    lastEntry (updatePriceHistory today s newPrice) = Some e /\
    ph_date e = today /\ strictEq (ph_price e) (parsePrice newPrice) = true.
Proof.
  intros Hnum. unfold updatePriceHistory. rewrite Hnum.
  destruct (lastEntry (store_priceHistory s)) as [last|] eqn:El.
  - destruct (strictEq (ph_price last) (parsePrice newPrice)) eqn:Ep;
      destruct (String.eqb_spec (ph_date last) today) as [Ed | Ed]; simpl;
      try (eexists; split; [apply lastEntry_snoc|];
           split; [reflexivity | now apply strictEq_refl]).
    exists last. auto.
  - eexists. split; [apply lastEntry_snoc|].
    split; [reflexivity | now apply strictEq_refl].
Qed.

Lemma updatePriceHistory_again (today newPrice : string) (s s' : Store) :
  store_priceHistory s' = updatePriceHistory today s newPrice ->
  updatePriceHistory today s' newPrice = updatePriceHistory today s newPrice.
Proof.
  intros Hs'.
  destruct (isNaN (parsePrice newPrice)) eqn:Hnum.
  - unfold updatePriceHistory in *. now rewrite Hnum in *.
  - destruct (updatePriceHistory_latest today newPrice s Hnum) as (e & Hl & Hd & Hp).
    rewrite <- Hs' in *.
    unfold updatePriceHistory at 1. rewrite Hnum, Hl, Hp, Hd, String.eqb_refl.
    reflexivity.
Qed.

(** Updating a price twice with the same text on the same day gives the
    state that one update gives: the second update adds no history entry
    and changes no field. *)
Theorem handlePriceUpdate_idempotent
    (clk : Clock) (partId storeId newPrice : string) (st : AppState) :
  handlePriceUpdate clk partId storeId newPrice
    (handlePriceUpdate clk partId storeId newPrice st)
  = handlePriceUpdate clk partId storeId newPrice st.
Proof.
  unfold handlePriceUpdate. destruct st as [ps a b c d e f g h i j k]. simpl.
  unfold with_parts. simpl. f_equal.
  unfold updateStore. rewrite map_map. apply map_ext. intros part.
  destruct (String.eqb (part_id part) partId) eqn:E; simpl; rewrite E; [|reflexivity].
  f_equal. rewrite map_map. apply map_ext. intros s.
  destruct (String.eqb (store_id s) storeId) eqn:Es; simpl; rewrite Es; [|reflexivity].
  f_equal. now apply updatePriceHistory_again.
Qed.

(** After an update with a price that parses, the listing it targets
    carries the new text as its price, shows it in its price field, and
    the latest entry of its history has today's date and the parsed
    price. *)
Theorem handlePriceUpdate_records_price
    (clk : Clock) (partId storeId newPrice : string) (st : AppState)
    (i j : nat) (part : Part) (store : Store) :
  isNaN (parsePrice newPrice) = false ->
  nth_error (parts st) i = Some part ->
  nth_error (part_stores part) j = Some store ->
  part_id part = partId -> store_id store = storeId ->
  exists part' store' e,
    nth_error (parts (handlePriceUpdate clk partId storeId newPrice st)) i = Some part' /\
    nth_error (part_stores part') j = Some store' /\
    part_lastChecked part' = currentDate clk /\
    store_price store' = newPrice /\
    priceFieldValue store' = newPrice /\
    lastEntry (store_priceHistory store') = Some e /\
    ph_date e = currentDate clk /\
    strictEq (ph_price e) (parsePrice newPrice) = true.
Proof.
  intros Hnum Hi Hj Hp Hs.
  destruct (updatePriceHistory_latest (currentDate clk) newPrice store Hnum)
    as (e & Hl & Hd & Hpr).
  unfold handlePriceUpdate, updateStore. simpl.
  rewrite nth_error_map, Hi. simpl. rewrite <- Hp, String.eqb_refl.
  eexists. eexists. exists e. split; [reflexivity|]. simpl.
  rewrite nth_error_map, Hj. simpl. rewrite <- Hs, String.eqb_refl.
  split; [reflexivity|]. simpl. repeat split; assumption.
Qed.

Lemma handlePriceUpdate_records_price_witness :
  let st := with_parts exampleCatalog (initialState exampleClock) in
  exists part' store' e,
    nth_error (parts (handlePriceUpdate exampleClock "1" "1b" "$429.99" st)) 0
      = Some part' /\
    nth_error (part_stores part') 1 = Some store' /\
    store_price store' = "$429.99" /\
    store_priceHistory store' = [e] /\
    ph_date e = "1/2/2024" /\
    getBestPrice (part_stores part') = "$429.99".
Proof.
  intros st.
  destruct (handlePriceUpdate_records_price exampleClock "1" "1b" "$429.99" st 0 1
              (partOf "1" "AMD Ryzen 7 7800X3D"
                 [listing "1a" "$449.99" true; listing "1b" "$459.99" false])
              (listing "1b" "$459.99" false)
              eq_refl eq_refl eq_refl eq_refl eq_refl)
    as (part' & store' & e & H1 & H2 & _ & H3 & _ & H4 & H5 & _).
  exists part', store', e.
  simpl in H1. injection H1 as <-. simpl in H2. injection H2 as <-.
  simpl in H4. injection H4 as <-.
  repeat split.
Defined.

(** Typing in a price field shows the typed text in the field of the
    listing it targets and leaves the price of the listing as it is. *)
Theorem handlePriceInputChange_shows_typed
    (partId storeId typed : string) (st : AppState)
    (i j : nat) (part : Part) (store : Store) :
  nth_error (parts st) i = Some part ->
  nth_error (part_stores part) j = Some store ->
  part_id part = partId -> store_id store = storeId ->
  exists part' store',
    nth_error (parts (handlePriceInputChange partId storeId typed st)) i = Some part' /\
    nth_error (part_stores part') j = Some store' /\
    priceFieldValue store' = typed /\
    store_price store' = store_price store /\
    part_lastChecked part' = part_lastChecked part.
Proof.
  intros Hi Hj Hp Hs. unfold handlePriceInputChange, updateStore. simpl.
  rewrite nth_error_map, Hi. simpl. rewrite <- Hp, String.eqb_refl.
  eexists. eexists. split; [reflexivity|]. simpl.
  rewrite nth_error_map, Hj. simpl. rewrite <- Hs, String.eqb_refl.
  repeat split.
Qed.

Lemma handlePriceInputChange_shows_typed_witness :
  let st := with_parts exampleCatalog (initialState exampleClock) in
  exists part' store',
    nth_error (parts (handlePriceInputChange "1" "1a" "$44" st)) 0 = Some part' /\
    nth_error (part_stores part') 0 = Some store' /\
    priceFieldValue store' = "$44" /\
    store_price store' = "$449.99".
Proof.
  intros st.
  destruct (handlePriceInputChange_shows_typed "1" "1a" "$44" st 0 0
              (partOf "1" "AMD Ryzen 7 7800X3D"
                 [listing "1a" "$449.99" true; listing "1b" "$459.99" false])
              (listing "1a" "$449.99" true) eq_refl eq_refl eq_refl eq_refl)
    as (part' & store' & H1 & H2 & H3 & H4 & _).
  exists part', store'. repeat split; assumption.
Defined.

Lemma extendsByOne_refl {A : Type} (l : list A) : extendsByOne l l.
Proof. exists []. split; [now rewrite app_nil_r | simpl; lia]. Qed.

Lemma updatePriceHistory_extends (today newPrice : string) (s : Store) :
  extendsByOne (store_priceHistory s) (updatePriceHistory today s newPrice).
Proof.
  destruct (updatePriceHistory_cases today newPrice s) as [-> | [_ ->]].
  - apply extendsByOne_refl.
  - eexists. split; [reflexivity | simpl; lia].
Qed.

(** A price update only ever adds to histories: in every listing of the
    catalog the history of before is continued by one entry at most, and
    a listing with another id, or in a Part with another id, keeps its
    history and its price. *)
Theorem handlePriceUpdate_append_only
    (clk : Clock) (partId storeId newPrice : string) (st : AppState)
    (i j : nat) (part : Part) (store : Store) :
  nth_error (parts st) i = Some part ->
  nth_error (part_stores part) j = Some store ->
  exists part' store',
    nth_error (parts (handlePriceUpdate clk partId storeId newPrice st)) i = Some part' /\
    nth_error (part_stores part') j = Some store' /\
    extendsByOne (store_priceHistory store) (store_priceHistory store') /\
    (part_id part <> partId \/ store_id store <> storeId -> store' = store).
Proof.
  intros Hi Hj. unfold handlePriceUpdate, updateStore. simpl.
  rewrite nth_error_map, Hi. simpl.
  destruct (String.eqb_spec (part_id part) partId) as [Ep | Ep];
    [|exists part, store; repeat split; auto; apply extendsByOne_refl].
  destruct (String.eqb_spec (store_id store) storeId) as [Es | Es].
  - eexists. eexists. split; [reflexivity|]. simpl.
    rewrite nth_error_map, Hj. simpl.
    destruct (String.eqb_spec (store_id store) storeId) as [_ | Es']; [|contradiction].
    split; [reflexivity|]. simpl. split.
    + apply updatePriceHistory_extends.
    + intros [H | H]; contradiction.
  - eexists. exists store. split; [reflexivity|]. simpl.
    rewrite nth_error_map, Hj. simpl.
    destruct (String.eqb_spec (store_id store) storeId) as [Es' | _]; [contradiction|].
    split; [reflexivity|]. split; [apply extendsByOne_refl | reflexivity].
Qed.

Lemma handlePriceUpdate_append_only_witness :
  let st := with_parts exampleCatalog (initialState exampleClock) in
  exists part' store',
    nth_error (parts (handlePriceUpdate exampleClock "1" "1b" "$429.99" st)) 0
      = Some part' /\
    nth_error (part_stores part') 0 = Some store' /\
    store' = listing "1a" "$449.99" true.
Proof.
  intros st.
  destruct (handlePriceUpdate_append_only exampleClock "1" "1b" "$429.99" st 0 0
              (partOf "1" "AMD Ryzen 7 7800X3D"
                 [listing "1a" "$449.99" true; listing "1b" "$459.99" false])
              (listing "1a" "$449.99" true) eq_refl eq_refl)
    as (part' & store' & H1 & H2 & _ & H3).
  exists part', store'. split; [exact H1|]. split; [exact H2|].
  apply H3. right. discriminate.
Defined.

(** ** A price that does not parse *)

Lemma min_from_NaN (xs : list number) :
  In NaN xs -> forall lowest, min_from lowest xs = NaN.
Proof.
  induction xs as [|x xs IH]; intros Hin lowest; simpl; [contradiction|].
  destruct (isNaN x) eqn:E; [reflexivity|].
  destruct Hin as [-> | Hin]; [discriminate E | now apply IH].
Qed.

Lemma isNaN_eq (x : number) : isNaN x = true -> x = NaN.
Proof. destruct x; simpl; intros H; try discriminate; reflexivity. Qed.

Lemma add_NaN_l (y : number) : add NaN y = NaN.
Proof. reflexivity. Qed.

Lemma add_NaN_r (x : number) : add x NaN = NaN.
Proof. now destruct x as [s|s| |s m e]. Qed.

Lemma fold_add_NaN (xs : list number) :
  In NaN xs -> forall acc, fold_left add xs acc = NaN.
Proof.
  induction xs as [|x xs IH]; intros Hin acc; cbn [fold_left]; [contradiction|].
  destruct Hin as [-> | Hin]; [|now apply IH].
  rewrite add_NaN_r. clear IH. induction xs as [|y ys IHy]; cbn [fold_left]; auto.
Qed.

Lemma getBestPrice_NaN (stores : list Store) (store : Store) :
  In store stores -> isNaN (parsePrice (store_price store)) = true ->
  getBestPrice stores = "$NaN".
Proof.
  intros Hin Hnan. unfold getBestPrice, Math_min.
  rewrite min_from_NaN; [reflexivity|].
  unfold parsedPrices. apply in_map_iff. exists store.
  split; [now apply isNaN_eq | exact Hin].
Qed.

(** One price that does not parse spoils the figures: the best price of
    its Part is displayed as ["$NaN"], whatever the other listings of the
    Part, and the total build cost is NaN, whatever the other Parts. *)
Theorem unparseable_price_spoils_total
    (ps : list Part) (part : Part) (store : Store) :
  In part ps -> In store (part_stores part) ->
  isNaN (parsePrice (store_price store)) = true ->
  getBestPrice (part_stores part) = "$NaN" /\ getTotalBuildCost ps = NaN.
Proof.
  intros Hp Hs Hnan.
  pose proof (getBestPrice_NaN _ _ Hs Hnan) as Hbest.
  split; [exact Hbest|].
  rewrite getTotalBuildCost_displayed. apply fold_add_NaN.
  apply in_map_iff. exists part. split; [|exact Hp].
  unfold displayedBest. now rewrite Hbest.
Qed.

Lemma unparseable_price_spoils_total_witness :
  let part := partOf "1" "AMD Ryzen 7 7800X3D"
                [listing "1a" "$449.99" true; listing "1b" "call us" false] in
  let ps := [partOf "2" "NVIDIA RTX 4070" [listing "2a" "$599.99" true]; part] in
  isNaN (parsePrice "call us") = true /\
  getBestPrice (part_stores part) = "$NaN" /\ getTotalBuildCost ps = NaN.
Proof.
  intros part ps. split; [reflexivity|].
  apply (unparseable_price_spoils_total ps part (listing "1b" "call us" false)).
  - right. now left.
  - right. now left.
  - reflexivity.
Defined.

(** ** Deleting a Part *)

Lemma filter_other_part_ids (id : string) (ps : list Part) :
  ~ In id (map part_id ps) ->
  filter (fun part => negb (String.eqb (part_id part) id)) ps = ps.
Proof.
  induction ps as [|p ps IH]; simpl; [reflexivity|]. intros Hnot.
  destruct (String.eqb_spec (part_id p) id) as [E | E]; simpl.
  - exfalso. apply Hnot. now left.
  - f_equal. apply IH. intros Hin. apply Hnot. now right.
Qed.

(** After [handleDeletePart] no Part of the catalog has the id; the
    Parts with another id remain, in their order; with distinct ids the
    one Part with the id is removed; an id that no Part has leaves the
    state as it is. *)
Theorem handleDeletePart_removes (id : string) (st : AppState) :
  let st' := handleDeletePart id st in
  ~ In id (map part_id (parts st')) /\
  filter (fun part => negb (String.eqb (part_id part) id)) (parts st')
    = filter (fun part => negb (String.eqb (part_id part) id)) (parts st) /\
  (forall before part after,
     NoDup (map part_id (parts st)) ->
     parts st = (before ++ part :: after)%list -> part_id part = id ->
     parts st' = (before ++ after)%list) /\
  (~ In id (map part_id (parts st)) -> st' = st).
Proof.
  intros st'. subst st'. unfold handleDeletePart. simpl. repeat split.
  - intros Hin. apply in_map_iff in Hin as (p & Hid & Hp).
    apply filter_In in Hp as [_ Hp]. rewrite Hid, String.eqb_refl in Hp. discriminate.
  - induction (parts st) as [|p ps IH]; simpl; [reflexivity|].
    destruct (negb (String.eqb (part_id p) id)) eqn:E; simpl; rewrite ?E, IH; reflexivity.
  - intros before part after Hnd Heq Hid. rewrite Heq in *.
    rewrite map_app in Hnd. simpl in Hnd.
    pose proof (NoDup_remove_2 _ _ _ Hnd) as Hnot. rewrite Hid in Hnot.
    rewrite filter_app. simpl. rewrite Hid, String.eqb_refl. simpl.
    rewrite !filter_other_part_ids; [reflexivity | |];
      intros Hin; apply Hnot; apply in_or_app; auto.
  - intros Hnot. rewrite filter_other_part_ids by exact Hnot. apply with_parts_same.
Qed.

(** ** The add-Part form *)

Lemma filter_other_store_ids (id : string) (ss : list Store) :
  ~ In id (map store_id ss) ->
  filter (fun store => negb (String.eqb (store_id store) id)) ss = ss.
Proof.
  induction ss as [|s ss IH]; simpl; [reflexivity|]. intros Hnot.
  destruct (String.eqb_spec (store_id s) id) as [E | E]; simpl.
  - exfalso. apply Hnot. now left.
  - f_equal. apply IH. intros Hin. apply Hnot. now right.
Qed.

(** Adding a listing to a form that holds one listing at least, then
    removing the listing that was added, gives back the listings of
    before, when the id of the added listing is a new one. *)
Theorem add_then_remove_store (clk : Clock) (st : AppState) (ss : list Store) :
  np_stores (newPart st) = Some ss -> ss <> [] ->
  ~ In (now clk) (map store_id ss) ->
  handleRemoveStore (now clk) (handleAddStore clk st) = st.
Proof.
  intros Hss Hne Hfresh.
  unfold handleRemoveStore, handleAddStore, storesOrEmpty. simpl. rewrite Hss.
  rewrite length_app. simpl.
  destruct (Nat.leb_spec (List.length ss + 1) 1) as [Hle | _].
  - destruct ss; [congruence | simpl in Hle; lia].
  - rewrite filter_app. simpl. rewrite String.eqb_refl. simpl.
    rewrite app_nil_r, filter_other_store_ids by exact Hfresh.
    destruct st as [a b c d e f g h i j np l]. simpl in *.
    destruct np as [n1 n2 n3 n4 n5 n6]. simpl in *. subst n4. reflexivity.
Qed.

Lemma add_then_remove_store_witness :
  let st := initialState exampleClock in
  let later := {| now := "1704153660000"; currentDate := "1/2/2024" |} in
  List.length (storesOrEmpty (newPart (handleAddStore later st))) = 2%nat /\
  handleRemoveStore (now later) (handleAddStore later st) = st.
Proof.
  intros st later. split; [reflexivity|].
  apply (add_then_remove_store later st [blankStore (now exampleClock)]).
  - reflexivity.
  - discriminate.
  - simpl. intros [H | []]. discriminate H.
Defined.

(** With a single listing in the form, or none, [handleRemoveStore]
    changes nothing, whatever the id. *)
Lemma handleRemoveStore_last (storeId : string) (st : AppState) :
  (List.length (storesOrEmpty (newPart st)) <= 1)%nat ->
  handleRemoveStore storeId st = st.
Proof.
  intros H. unfold handleRemoveStore. apply Nat.leb_le in H. now rewrite H.
Qed.

Lemma map_change_one (id : string) (f : Store -> Store)
    (before after : list Store) (s : Store) :
  ~ In id (map store_id before) -> ~ In id (map store_id after) ->
  store_id s = id ->
  map (fun store => if String.eqb (store_id store) id then f store else store)
    (before ++ s :: after)
  = (before ++ f s :: after)%list.
Proof.
  intros Hb Ha Hs.
  assert (Hother : forall l, ~ In id (map store_id l) ->
            map (fun store => if String.eqb (store_id store) id then f store else store) l
            = l).
  { induction l as [|x l IH]; simpl; [reflexivity|]. intros Hnot.
    destruct (String.eqb_spec (store_id x) id) as [E | E].
    - exfalso. apply Hnot. now left.
    - f_equal. apply IH. intros Hin. apply Hnot. now right. }
  rewrite map_app. simpl. rewrite Hs, String.eqb_refl.
  now rewrite (Hother before Hb), (Hother after Ha).
Qed.

(** With distinct ids in the form, [handleStoreChange] writes the field
    of the one listing that has the id and leaves the listings before it
    and after it as they are; the name, the type and the other fields of
    the form are kept. *)
Theorem handleStoreChange_one_listing
    (storeId : string) (fv : StoreField) (st : AppState)
    (before after : list Store) (s : Store) :
  np_stores (newPart st) = Some (before ++ s :: after)%list ->
  NoDup (map store_id (before ++ s :: after)) ->
  store_id s = storeId ->
  handleStoreChange storeId fv st =
    with_newPart
      (with_stores (Some (before ++ setStoreField fv s :: after)%list) (newPart st)) st.
Proof.
  intros Hss Hnd Hs. unfold handleStoreChange, storesOrEmpty. rewrite Hss.
  rewrite map_app in Hnd. simpl in Hnd.
  pose proof (NoDup_remove_2 _ _ _ Hnd) as Hnot. rewrite Hs in Hnot.
  rewrite map_change_one; [reflexivity | | | exact Hs];
    intros Hin; apply Hnot; apply in_or_app; auto.
Qed.

Lemma handleStoreChange_one_listing_witness :
  let later := {| now := "1704153660000"; currentDate := "1/2/2024" |} in
  let st := handleAddStore later (initialState exampleClock) in
  np_stores (newPart (handleStoreChange "1704153660000" (FieldPrice "$9.99") st))
  = Some [blankStore "1704153600000";
          setStoreField (FieldPrice "$9.99") (blankStore "1704153660000")].
Proof.
  intros later st.
  rewrite (handleStoreChange_one_listing "1704153660000" (FieldPrice "$9.99") st
             [blankStore "1704153600000"] [] (blankStore "1704153660000")).
  - reflexivity.
  - reflexivity.
  - simpl. repeat constructor; simpl; intuition discriminate.
  - reflexivity.
Defined.

(** ** Submitting the form *)

Lemma getTotalBuildCost_snoc (ps : list Part) (part : Part) :
  getTotalBuildCost (ps ++ [part]) = add (getTotalBuildCost ps) (displayedBest part).
Proof. unfold getTotalBuildCost. now rewrite fold_left_app. Qed.

(** A submission that passes the validation adds one Part at the end of
    the catalog, with the clock's time as id and date, the name and the
    type of the form, and the listings of the form in their order, each
    with its id, name, url, price and stock flag; the total build cost
    becomes the total of before plus the displayed best price of the new
    Part; the form is reset and closed. *)
Theorem handleAddPart_appends (clk : Clock) (st : AppState) :
  formValid (newPart st) = true ->
  let st' := handleAddPart clk st in
  exists part,
    parts st' = (parts st ++ [part])%list /\
    part_id part = now clk /\
    part_lastChecked part = currentDate clk /\
    np_name (newPart st) = Some (part_name part) /\
    part_type part = np_type (newPart st) /\
    map (fun s => (store_id s, store_name s, store_url s, store_price s, store_inStock s))
      (part_stores part)
    = map (fun s => (store_id s, store_name s, store_url s, store_price s, store_inStock s))
        (storesOrEmpty (newPart st)) /\
    getTotalBuildCost (parts st')
    = add (getTotalBuildCost (parts st)) (displayedBest part) /\
    newPart st' = freshForm clk /\
    showAddForm st' = false.
Proof.
  intros Hvalid st'. subst st'. unfold handleAddPart. rewrite Hvalid. simpl.
  eexists. split; [reflexivity|]. simpl.
  repeat split.
  - unfold formValid in Hvalid. now destruct (np_name (newPart st)).
  - rewrite map_map. reflexivity.
  - apply getTotalBuildCost_snoc.
Qed.

Section FormHistories.

Variable JSON_stringify : list SavedBuild -> string.

Lemma step_blankHistories (a : Action) (st : AppState) :
  blankHistories (newPart st) -> blankHistories (newPart (step JSON_stringify a st)).
Proof.
  unfold blankHistories. intros H. destruct a; simpl; auto.
  - unfold storesOrEmpty. simpl. apply Forall_app. split; [exact H|].
    repeat constructor.
  - unfold handleRemoveStore. destruct (Nat.leb _ _); [exact H|]. simpl.
    unfold storesOrEmpty at 1. simpl. now apply Forall_filter_keeps.
  - unfold storesOrEmpty at 1. simpl. rewrite Forall_map.
    eapply Forall_impl; [|exact H]. intros s Hs.
    destruct (String.eqb (store_id s) storeId); [|exact Hs]. exact Hs.
  - unfold handleAddPart. destruct (formValid _); [|exact H]. simpl.
    repeat constructor.
  - unfold handleSaveBuild. now destruct (negb _).
Qed.

Lemma run_blankHistories (acts : list Action) :
  forall st, blankHistories (newPart st) ->
             blankHistories (newPart (run JSON_stringify acts st)).
Proof.
  induction acts as [|a acts IH]; intros st H; [exact H|].
  change (run JSON_stringify (a :: acts) st)
    with (run JSON_stringify acts (step JSON_stringify a st)).
  now apply IH, step_blankHistories.
Qed.

(** In every state that the component reaches from its start, a
    submission that passes the validation gives each listing of the new
    Part its first history entry: today's date with the parsed price
    when the price parses, and no entry when it does not. *)
Theorem first_history_entry (clk0 clk : Clock) (acts : list Action) :
  let st := run JSON_stringify acts (initialState clk0) in
  formValid (newPart st) = true ->
  exists part,
    parts (handleAddPart clk st) = (parts st ++ [part])%list /\
    part_stores part =
      map (fun store => withHistory (firstHistory (currentDate clk) (store_price store)) store)
        (storesOrEmpty (newPart st)).
Proof.
  intros st Hvalid.
  assert (Hblank : blankHistories (newPart st)).
  { apply run_blankHistories. repeat constructor. }
  unfold handleAddPart. rewrite Hvalid. simpl.
  eexists. split; [reflexivity|]. simpl.
  unfold blankHistories in Hblank. rewrite Forall_forall in Hblank.
  apply map_ext_in. intros s Hs. f_equal.
  unfold updatePriceHistory, firstHistory. rewrite (Hblank s Hs).
  now destruct (isNaN _).
Qed.

End FormHistories.

Lemma handleAddPart_appends_witness :
  let st := run buildNames
              [NameChange "Corsair RM850x";
               StoreChange "1704153600000" (FieldName "Newegg");
               StoreChange "1704153600000" (FieldUrl "https://www.newegg.com");
               StoreChange "1704153600000" (FieldPrice "$129.99")]
              (with_parts exampleCatalog (initialState exampleClock)) in
  formValid (newPart st) = true /\
  getTotalBuildCost (parts (handleAddPart exampleClock st))
  = add (parseFloat "449.99") (parseFloat "129.99").
Proof.
  intros st. split; [reflexivity|].
  destruct (handleAddPart_appends exampleClock st eq_refl)
    as (part & Hparts & _ & _ & _ & _ & _ & Htotal & _).
  rewrite Htotal. simpl in Hparts. injection Hparts as <-. reflexivity.
Defined.

Lemma first_history_entry_witness :
  let acts := [NameChange "Corsair RM850x";
               StoreChange "1704153600000" (FieldName "Newegg");
               StoreChange "1704153600000" (FieldUrl "https://www.newegg.com");
               StoreChange "1704153600000" (FieldPrice "$129.99")] in
  let st := run buildNames acts (initialState exampleClock) in
  exists part,
    parts (handleAddPart exampleClock st) = [part] /\
    map store_priceHistory (part_stores part)
    = [[{| ph_date := "1/2/2024"; ph_price := parseFloat "129.99" |}]].
Proof.
  intros acts st.
  destruct (first_history_entry buildNames exampleClock exampleClock acts eq_refl)
    as (part & Hparts & Hstores).
  exists part. split; [exact Hparts|]. rewrite Hstores. reflexivity.
Defined.

(** ** The displayed list *)

Section Displayed.

Variable localeCompare : string -> string -> number.
Variable sort : (Part -> Part -> number) -> list Part -> list Part.

(** Whatever the sort key, the displayed list holds the Parts of the
    catalog whose type is the selected one, each as often as the catalog
    holds it, and no other Part; with ["all"] selected it is a
    rearrangement of the whole catalog. *)
Theorem displayed_parts (st : AppState) :
  permutes sort ->
  let shown := filteredAndSortedParts localeCompare sort st in
  Permutation (filter (typeSelected (selectedType st)) (parts st)) shown /\
  (forall part,
     In part shown <->
     In part (parts st) /\
     (selectedType st = "all" \/ part_type part = Some (selectedType st))) /\
  (selectedType st = "all" -> Permutation (parts st) shown).
Proof.
  intros Hsort shown. subst shown. unfold filteredAndSortedParts.
  pose proof (Hsort (compareParts localeCompare (sortBy st))
                (filter (typeSelected (selectedType st)) (parts st))) as Hperm.
  split; [exact Hperm|]. split.
  - intros part. split.
    + intros Hin. apply (Permutation_in _ (Permutation_sym Hperm)) in Hin.
      apply filter_In in Hin as [Hin Hsel]. split; [exact Hin|].
      unfold typeSelected in Hsel. apply orb_true_iff in Hsel as [Hall | Htype].
      * left. now apply String.eqb_eq.
      * right. destruct (part_type part) as [t|]; [|discriminate].
        apply String.eqb_eq in Htype. now subst.
    + intros [Hin Hsel]. apply (Permutation_in _ Hperm). apply filter_In.
      split; [exact Hin|]. unfold typeSelected. apply orb_true_iff.
      destruct Hsel as [-> | ->]; [left; reflexivity | right; apply String.eqb_refl].
  - intros Hall. rewrite Hall in *.
    assert (Hfilter : forall l, filter (typeSelected "all") l = l).
    { induction l as [|x l IH]; simpl; [reflexivity | now rewrite IH]. }
    now rewrite Hfilter in *.
Qed.

End Displayed.

Lemma insertBy_perm (cmp : Part -> Part -> number) (x : Part) (l : list Part) :
  Permutation (x :: l) (insertBy cmp x l).
Proof.
  induction l as [|y l IH]; simpl; [apply Permutation_refl|].
  destruct (lt zero (cmp x y)); [|apply Permutation_refl].
  eapply perm_trans; [apply perm_swap|]. now apply perm_skip.
Qed.

Lemma insertionSort_permutes : permutes insertionSort.
Proof.
  intros cmp l. induction l as [|x l IH]; simpl; [constructor|].
  eapply perm_trans; [apply perm_skip, IH | apply insertBy_perm].
Qed.

Lemma displayed_parts_witness :
  let gpu := {| part_id := "2"; part_name := "NVIDIA RTX 4070"; part_type := Some "GPU";
                part_stores := [listing "2a" "$599.99" true];
                part_lastChecked := "1/1/2024"; part_compatibility := None |} in
  let st :=
    {| parts := (exampleCatalog ++ [gpu])%list;
       showAddForm := false; showFilters := true;
       showSaveDialog := false; showLoadDialog := false;
       buildName := EmptyString; savedBuilds := [];
       selectedType := "GPU"; sortBy := ByPrice; isDark := false;
       newPart := freshForm exampleClock; localStorage := fun _ => None |} in
  filteredAndSortedParts (fun _ _ => zero) insertionSort st = [gpu] /\
  Permutation (filter (typeSelected (selectedType st)) (parts st))
    (filteredAndSortedParts (fun _ _ => zero) insertionSort st).
Proof.
  intros gpu st. split; [reflexivity|].
  exact (proj1 (displayed_parts (fun _ _ => zero) insertionSort st
                  insertionSort_permutes)).
Defined.

(** ** Storage *)

Section Storage.

Variable JSON_stringify : list SavedBuild -> string.

Lemma step_storage (a : Action) (st : AppState) :
  (inSync JSON_stringify st -> inSync JSON_stringify (step JSON_stringify a st)) /\
  (forall key, key <> "savedBuilds" ->
     localStorage (step JSON_stringify a st) key = localStorage st key).
Proof.
  unfold inSync.
  destruct a; simpl; try (split; [intros H; exact H | reflexivity]).
  - unfold handleRemoveStore. destruct (Nat.leb _ _); split; auto.
  - unfold handleAddPart. destruct (formValid _); split; auto.
  - unfold handleSaveBuild. destruct (negb _); [split; auto|]. simpl. split.
    + intros _. unfold setItem. reflexivity.
    + intros key Hkey. unfold setItem.
      destruct (String.eqb_spec key "savedBuilds"); [contradiction | reflexivity].
  - split.
    + intros _. unfold setItem. reflexivity.
    + intros key Hkey. unfold setItem.
      destruct (String.eqb_spec key "savedBuilds"); [contradiction | reflexivity].
Qed.

(** Once the stored text is the text of the list of saved builds, it
    stays so through every sequence of events; and no event writes
    another key of the storage. *)
Theorem storage_in_sync (acts : list Action) (st : AppState) :
  inSync JSON_stringify st ->
  inSync JSON_stringify (run JSON_stringify acts st) /\
  (forall key, key <> "savedBuilds" ->
     localStorage (run JSON_stringify acts st) key = localStorage st key).
Proof.
  revert st. induction acts as [|a acts IH]; intros st Hsync.
  - split; [exact Hsync | reflexivity].
  - change (run JSON_stringify (a :: acts) st)
      with (run JSON_stringify acts (step JSON_stringify a st)).
    destruct (step_storage a st) as [Hs Hk].
    destruct (IH _ (Hs Hsync)) as [IHs IHk].
    split; [exact IHs|]. intros key Hkey. rewrite IHk by exact Hkey. now apply Hk.
Qed.

(** Saving a build under a name that is not blank and then deleting the
    build by the id it was given returns the list of saved builds of
    before, when that id was not in use; the catalog is not touched. *)
Theorem save_then_delete (clk : Clock) (st : AppState) :
  truthy (trim (buildName st)) = true ->
  ~ In (now clk) (map build_id (savedBuilds st)) ->
  let st' := handleDeleteBuild JSON_stringify (now clk)
               (handleSaveBuild JSON_stringify clk st) in
  savedBuilds st' = savedBuilds st /\
  parts st' = parts st /\
  inSync JSON_stringify st'.
Proof.
  intros Hname Hfresh st'. subst st'.
  unfold handleSaveBuild. rewrite Hname. unfold handleDeleteBuild, inSync. simpl.
  assert (Hfilter :
    filter (fun build => negb (String.eqb (build_id build) (now clk)))
      (savedBuilds st ++
         [{| build_id := now clk; build_name := buildName st;
             build_date := currentDate clk; build_parts := parts st |}])
    = savedBuilds st).
  { rewrite filter_app. simpl. rewrite String.eqb_refl. simpl.
    rewrite app_nil_r. now apply filter_other_ids. }
  rewrite Hfilter. repeat split.
Qed.

End Storage.

Lemma storage_in_sync_witness :
  let st := handleDeleteBuild buildNames "9"
              (with_parts exampleCatalog (initialState exampleClock)) in
  let acts := [BuildNameChange "Gaming rig"; SaveBuild exampleClock;
               DeletePart "1"; BuildNameChange "Empty"; SaveBuild exampleClock] in
  inSync buildNames st /\
  localStorage (run buildNames acts st) "savedBuilds" = Some "Gaming rig,Empty".
Proof.
  intros st acts.
  assert (Hsync : inSync buildNames st) by reflexivity.
  split; [exact Hsync|].
  rewrite (proj1 (storage_in_sync buildNames acts st Hsync)). reflexivity.
Defined.

Lemma save_then_delete_witness :
  let st := with_buildName "Gaming rig"
              (with_parts exampleCatalog (initialState exampleClock)) in
  savedBuilds (handleSaveBuild buildNames exampleClock st) <> [] /\
  savedBuilds (handleDeleteBuild buildNames (now exampleClock)
                 (handleSaveBuild buildNames exampleClock st)) = [].
Proof.
  intros st. split; [discriminate|].
  apply (save_then_delete buildNames exampleClock st); [reflexivity|].
  intros [].
Defined.

(** ** Distinct ids *)

Lemma updateStore_part_ids (partId storeId : string) (lc : option string)
    (f : Store -> Store) (ps : list Part) :
  map part_id (updateStore partId storeId lc f ps) = map part_id ps.
Proof.
  unfold updateStore. rewrite map_map. apply map_ext. intros part.
  now destruct (String.eqb (part_id part) partId).
Qed.

Lemma updateStore_uniqueIds (partId storeId : string) (lc : option string)
    (f : Store -> Store) (ps : list Part) :
  (forall s, store_id (f s) = store_id s) ->
  uniqueIds ps -> uniqueIds (updateStore partId storeId lc f ps).
Proof.
  intros Hf [Hparts Hstores]. split.
  - now rewrite updateStore_part_ids.
  - unfold updateStore. rewrite Forall_map.
    eapply Forall_impl; [|exact Hstores]. intros part Hnd.
    destruct (String.eqb (part_id part) partId); [|exact Hnd]. simpl.
    rewrite map_map. erewrite map_ext; [exact Hnd|]. intros s. simpl.
    destruct (String.eqb (store_id s) storeId); [apply Hf | reflexivity].
Qed.

Lemma NoDup_filter_part_ids (f : Part -> bool) (ps : list Part) :
  NoDup (map part_id ps) -> NoDup (map part_id (filter f ps)).
Proof.
  induction ps as [|p ps IH]; simpl; intros H; [constructor|].
  inversion H as [|? ? Hnot Hnd]; subst.
  destruct (f p); simpl; [|now apply IH].
  constructor; [|now apply IH].
  intros Hin. apply Hnot. apply in_map_iff in Hin as (p' & Hid & Hp').
  apply filter_In in Hp' as [Hp' _]. apply in_map_iff. now exists p'.
Qed.

Section DistinctIds.

Variable JSON_stringify : list SavedBuild -> string.

(** The ids of the Parts, of the listings of each Part and of the
    listings of the form stay distinct through every event, in the
    catalog and in the saved builds, as long as the clock gives ids that
    are not in use; so an event by id meets one Part, and one listing in
    it, at most. *)
Theorem ids_stay_distinct (a : Action) (st : AppState) :
  idsOk st -> freshIds st a -> idsOk (step JSON_stringify a st).
Proof.
  intros ((Hparts & Hstores) & Hbuilds & Hform) Hfresh.
  destruct a; simpl in *.
  - repeat split; auto. unfold storesOrEmpty at 1. simpl.
    rewrite map_app. simpl. apply NoDup_app; auto.
    + repeat constructor. intros [].
    + intros x Hx [<- | []]. contradiction.
  - unfold handleRemoveStore. destruct (Nat.leb _ _); [repeat split; auto|].
    repeat split; auto. unfold storesOrEmpty at 1. simpl.
    now apply NoDup_filter_ids.
  - repeat split; auto. unfold storesOrEmpty at 1. simpl.
    rewrite map_map. erewrite map_ext; [exact Hform|]. intros s. simpl.
    destruct (String.eqb (store_id s) storeId); [|reflexivity].
    destruct fv; simpl in *; tauto.
  - repeat split; auto.
  - repeat split; auto.
  - unfold handleAddPart. destruct (formValid (newPart st)); [|repeat split; auto].
    unfold idsOk, uniqueIds. simpl. repeat split; auto.
    + rewrite map_app. simpl. apply NoDup_app; auto.
      * repeat constructor. intros [].
      * intros x Hx [<- | []]. contradiction.
    + apply Forall_app. split; [exact Hstores|]. constructor; [|constructor]. simpl.
      rewrite map_map. exact Hform.
    + unfold storesOrEmpty. simpl. repeat constructor. intros [].
  - repeat split; auto; simpl.
    + now apply NoDup_filter_part_ids.
    + now apply Forall_filter_keeps.
  - repeat split; auto; apply updateStore_uniqueIds; try (split; auto); reflexivity.
  - repeat split; auto; apply updateStore_uniqueIds; try (split; auto); reflexivity.
  - repeat split; auto; apply updateStore_uniqueIds; try (split; auto); reflexivity.
  - repeat split; auto; apply updateStore_uniqueIds; try (split; auto); reflexivity.
  - repeat split; auto.
  - unfold handleSaveBuild. destruct (negb _); [repeat split; auto|].
    repeat split; simpl; auto.
    apply Forall_app. split; [exact Hbuilds|]. repeat constructor; assumption.
  - pose proof Hbuilds as Hall. rewrite Forall_forall in Hall.
    destruct (Hall build Hfresh) as [Hp Hs].
    repeat split; simpl; auto.
  - repeat split; simpl; auto. now apply Forall_filter_keeps.
Qed.

End DistinctIds.

Lemma idsOk_initialState (clk : Clock) : idsOk (initialState clk).
Proof.
  unfold idsOk, uniqueIds. simpl. repeat split; try constructor.
  - intros [].
  - constructor.
Qed.

Lemma ids_stay_distinct_witness :
  let later := {| now := "1704153660000"; currentDate := "1/2/2024" |} in
  idsOk (step buildNames (AddStore later) (initialState exampleClock)).
Proof.
  intros later.
  apply (ids_stay_distinct buildNames (AddStore later) (initialState exampleClock)).
  - apply idsOk_initialState.
  - simpl. intros [H | []]. discriminate H.
Defined.

(** ** One Part and one listing *)

Lemma updateStore_one (partId storeId : string) (lc : option string)
    (f : Store -> Store) (before after : list Part) (part : Part)
    (sb sa : list Store) (s : Store) :
  NoDup (map part_id (before ++ part :: after)) ->
  part_id part = partId ->
  part_stores part = (sb ++ s :: sa)%list ->
  NoDup (map store_id (sb ++ s :: sa)) ->
  store_id s = storeId ->
  updateStore partId storeId lc f (before ++ part :: after)
  = (before
       ++ withListings (sb ++ f s :: sa)
            (match lc with Some d => d | None => part_lastChecked part end) part
       :: after)%list.
Proof.
  intros Hnd Hp Hstores Hnds Hs. subst partId storeId.
  rewrite map_app in Hnd. simpl in Hnd.
  pose proof (NoDup_remove_2 _ _ _ Hnd) as Hnot.
  rewrite map_app in Hnds. simpl in Hnds.
  pose proof (NoDup_remove_2 _ _ _ Hnds) as Hnots.
  assert (Happ : updateStore (part_id part) (store_id s) lc f (before ++ part :: after)
                 = (updateStore (part_id part) (store_id s) lc f before
                      ++ updateStore (part_id part) (store_id s) lc f [part]
                      ++ updateStore (part_id part) (store_id s) lc f after)%list).
  { unfold updateStore. now rewrite map_app. }
  rewrite Happ, (updateStore_absent _ _ _ _ before), (updateStore_absent _ _ _ _ after);
    try (intros Hin; apply Hnot; apply in_or_app; auto).
  f_equal. simpl. f_equal.
  rewrite String.eqb_refl, Hstores. unfold withListings. f_equal.
  apply map_change_one; [| | reflexivity];
    intros Hin; apply Hnots; apply in_or_app; auto.
Qed.

(** With distinct ids, toggling the stock flag or setting a price alert
    changes the one listing with the given ids: the Parts before and
    after its Part, and the listings before and after it, are as they
    were.  Toggling also sets the [lastChecked] date of the Part;
    setting an alert does not. *)
Theorem event_changes_one_listing
    (clk : Clock) (partId storeId : string) (alert : number) (st : AppState)
    (before after : list Part) (part : Part) (sb sa : list Store) (s : Store) :
  parts st = (before ++ part :: after)%list ->
  NoDup (map part_id (parts st)) ->
  part_id part = partId ->
  part_stores part = (sb ++ s :: sa)%list ->
  NoDup (map store_id (part_stores part)) ->
  store_id s = storeId ->
  parts (toggleStock clk partId storeId st)
  = (before
       ++ withListings
            (sb ++ setStoreField (FieldInStock (negb (store_inStock s))) s :: sa)
            (currentDate clk) part
       :: after)%list /\
  parts (setPriceAlert partId storeId alert st)
  = (before
       ++ withListings (sb ++ setStoreField (FieldPriceAlert alert) s :: sa)
            (part_lastChecked part) part
       :: after)%list.
Proof.
  intros Hparts Hnd Hp Hstores Hnds Hs.
  unfold toggleStock, setPriceAlert. simpl. rewrite Hparts in *. rewrite Hstores in Hnds.
  split.
  - now rewrite (updateStore_one partId storeId (Some (currentDate clk)) _
                   before after part sb sa s).
  - now rewrite (updateStore_one partId storeId None _ before after part sb sa s).
Qed.

Lemma event_changes_one_listing_witness :
  let st := with_parts exampleCatalog (initialState exampleClock) in
  map (fun part => map store_inStock (part_stores part))
    (parts (toggleStock exampleClock "1" "1b" st)) = [[true; true]].
Proof.
  intros st.
  destruct (event_changes_one_listing exampleClock "1" "1b" zero st [] []
              (partOf "1" "AMD Ryzen 7 7800X3D"
                 [listing "1a" "$449.99" true; listing "1b" "$459.99" false])
              [listing "1a" "$449.99" true] [] (listing "1b" "$459.99" false))
    as [Htoggle _];
    [reflexivity | | reflexivity | reflexivity | | reflexivity | ].
  - simpl. repeat constructor. intros [].
  - simpl. repeat constructor; simpl; intuition discriminate.
  - rewrite Htoggle. reflexivity.
Defined.

(** Text in the alert field that does not parse, such as the empty
    text of a cleared field, does not remove the alert of the listing:
    the alert is set to NaN, and the field shows nothing. *)
Theorem handleAlertInput_unparseable
    (partId storeId text : string) (st : AppState)
    (i j : nat) (part : Part) (store : Store) :
  isNaN (parseFloat text) = true ->
  nth_error (parts st) i = Some part ->
  nth_error (part_stores part) j = Some store ->
  part_id part = partId -> store_id store = storeId ->
  exists part' store',
    nth_error (parts (handleAlertInput partId storeId text st)) i = Some part' /\
    nth_error (part_stores part') j = Some store' /\
    store_priceAlert store' = Some NaN /\
    alertFieldValue store' = None.
Proof.
  intros Hnan Hi Hj Hp Hs. unfold handleAlertInput, setPriceAlert, updateStore. simpl.
  rewrite nth_error_map, Hi. simpl. rewrite <- Hp, String.eqb_refl.
  eexists. eexists. split; [reflexivity|]. simpl.
  rewrite nth_error_map, Hj. simpl. rewrite <- Hs, String.eqb_refl.
  split; [reflexivity|]. unfold alertFieldValue. simpl.
  rewrite (isNaN_eq _ Hnan). split; reflexivity.
Qed.

Lemma handleAlertInput_unparseable_witness :
  let st := with_parts exampleCatalog (initialState exampleClock) in
  isNaN (parseFloat EmptyString) = true /\
  exists part' store',
    nth_error (parts (handleAlertInput "1" "1a" EmptyString
                        (handleAlertInput "1" "1a" "400" st))) 0 = Some part' /\
    nth_error (part_stores part') 0 = Some store' /\
    store_priceAlert store' = Some NaN.
Proof.
  intros st. split; [reflexivity|].
  destruct (handleAlertInput_unparseable "1" "1a" EmptyString
              (handleAlertInput "1" "1a" "400" st) 0 0
              (partOf "1" "AMD Ryzen 7 7800X3D"
                 [setStoreField (FieldPriceAlert (parseFloat "400"))
                    (listing "1a" "$449.99" true);
                  listing "1b" "$459.99" false])
              (setStoreField (FieldPriceAlert (parseFloat "400"))
                 (listing "1a" "$449.99" true))
              eq_refl eq_refl eq_refl eq_refl eq_refl)
    as (part' & store' & H1 & H2 & H3 & _).
  exists part', store'. auto.
Defined.

(** ** The order of the listings *)

Lemma le_antisym (a b : number) :
  le a b = true -> le b a = true -> strictEq a b = true.
Proof.
  unfold le, strictEq, SFleb, SFeqb, SFcompare.
  destruct a as [[|]|[|]| |[|] ma ea], b as [[|]|[|]| |[|] mb eb];
    try reflexivity; try discriminate;
    intros Hab Hba; order_cases.
Qed.

Lemma strictEq_toFixed (a b : number) (f : N) :
  strictEq a b = true -> toFixed a f = toFixed b f.
Proof.
  unfold strictEq, SFeqb, SFcompare.
  destruct a as [[|]|[|]| |[|] ma ea], b as [[|]|[|]| |[|] mb eb];
    try reflexivity; try discriminate;
    intros H; order_cases; subst; reflexivity.
Qed.

Lemma Math_min_bounds (xs : list number) :
  Forall (fun x => isNaN x = false) xs ->
  (Math_min xs = Infinity \/ In (Math_min xs) xs) /\
  le (Math_min xs) Infinity = true /\
  Forall (fun x => le (Math_min xs) x = true) xs.
Proof. intros H. exact (min_from_spec xs Infinity eq_refl H). Qed.

Lemma In_NaN_dec (xs : list number) :
  In NaN xs \/ Forall (fun x => isNaN x = false) xs.
Proof.
  induction xs as [|x xs [IH | IH]]; [right; constructor | left; now right |].
  destruct (isNaN x) eqn:E.
  - left. left. now apply isNaN_eq.
  - right. now constructor.
Qed.

(** The displayed best price does not depend on the order of the
    listings of a Part. *)
Theorem getBestPrice_any_order (stores stores' : list Store) :
  Permutation stores stores' -> getBestPrice stores = getBestPrice stores'.
Proof.
  intros Hperm. unfold getBestPrice. f_equal.
  assert (Hp : Permutation (parsedPrices stores) (parsedPrices stores'))
    by (now apply Permutation_map).
  destruct (In_NaN_dec (parsedPrices stores)) as [Hnan | Hnum].
  - unfold Math_min. rewrite (min_from_NaN _ Hnan).
    now rewrite (min_from_NaN _ (Permutation_in _ Hp Hnan)).
  - assert (Hnum' : Forall (fun x => isNaN x = false) (parsedPrices stores')).
    { rewrite Forall_forall in *. intros x Hx. apply Hnum.
      now apply (Permutation_in _ (Permutation_sym Hp)). }
    destruct (Math_min_bounds _ Hnum) as (Hin & Htop & Hall).
    destruct (Math_min_bounds _ Hnum') as (Hin' & Htop' & Hall').
    rewrite Forall_forall in Hall, Hall'.
    apply strictEq_toFixed, le_antisym.
    + destruct Hin' as [-> | Hin']; [exact Htop|].
      apply Hall. now apply (Permutation_in _ (Permutation_sym Hp)).
    + destruct Hin as [-> | Hin]; [exact Htop'|].
      apply Hall'. now apply (Permutation_in _ Hp).
Qed.

Lemma getBestPrice_any_order_witness :
  getBestPrice [listing "1b" "$459.99" false; listing "1a" "$449.99" true]
  = getBestPrice [listing "1a" "$449.99" true; listing "1b" "$459.99" false].
Proof.
  apply getBestPrice_any_order. apply perm_swap.
Defined.
